(** * Spherical-Gaussian renderer: model/sg_render.py

    A shallow embedding of the SG rendering engine over the real numbers,
    following the source function by function.  Tensor code is modelled
    element-wise, with the broadcast axes (point, lobe, sample, channel)
    made explicit as lists.  Arithmetic is the exact arithmetic of [R]:
    rounding and overflow of the floating-point tensors are outside the
    model.  The program computes in float32, and exact arithmetic stands
    for it only where the float32 computation is well conditioned; three
    places are not, and the statements that depend on them say so in a
    hypothesis:
    - a quotient whose divisor is 0 is [inf] or NaN in torch and a number
      in [R]: [lambda1 / lambda2] in [lambda_trick] at [lambda2 = 0],
      [2 / roughness^4] at [roughness = 0], the norm of a zero axis in
      [render_envmap_sg];
    - for a sharpness below about 1e-5 the float32 value of [exp(-t)]
      in [hemisphere_int] is 1 and the mixing factor is 0/0, and up to a
      few 1e-4 the differences [1 - exp(-lambda)] lose their digits
      (see [lambda_floor]);
    - [torch.cross] without [dim] takes the first axis of size 3, which
      is the last one unless a leading axis has size 3 as well (see
      [cross]).
    Values that flow out of the external visibility predictor may
    be NaN ([tval]); NaN propagates through arithmetic as it does in
    torch.  The debugger breakpoints of the source are events of a small
    trace monad.  The shading engine is modelled for view directions of
    rank 2 (one camera per point); the specular sampler also in its
    multi-view mode. *)

From Stdlib Require Import Reals Lra Lia Psatz List Bool NArith ZArith.
From stdpp Require Import base list.
Import ListNotations.
Open Scope R_scope.

(** ** Constants *)

(** [TINY_NUMBER = 1e-6] *)
Definition TINY_NUMBER : R := 1e-6.

(** ** Three-component vectors (the last tensor axis, of size 3) *)

Record vec3 : Type := V3 { vx : R; vy : R; vz : R }.

(** [torch.sum(a * b, dim=-1)] *)
Definition dot (a b : vec3) : R :=
  vx a * vx b + vy a * vy b + vz a * vz b.

(** [torch.norm(x, dim=-1)] *)
Definition norm (a : vec3) : R := sqrt (dot a a).

(** [torch.cross(a, b)] on the last axis.  The source calls
    [torch.cross] without [dim], which takes the first axis of size 3:
    for the sampler tensors of shape [[n, 1, 3]] that is the last axis
    unless [n = 3] (three lobes in the diffuse sampler, three points or
    views in the specular one). *)
Definition cross (a b : vec3) : vec3 :=
  V3 (vy a * vz b - vz a * vy b)
     (vz a * vx b - vx a * vz b)
     (vx a * vy b - vy a * vx b).

Definition vadd (a b : vec3) : vec3 :=
  V3 (vx a + vx b) (vy a + vy b) (vz a + vz b).

Definition vsub (a b : vec3) : vec3 :=
  V3 (vx a - vx b) (vy a - vy b) (vz a - vz b).

(** a scalar broadcast against the last axis: [s * a] *)
Definition vscale (s : R) (a : vec3) : vec3 :=
  V3 (s * vx a) (s * vy a) (s * vz a).

(** [a / d] with [d] broadcast against the last axis *)
Definition vdiv (a : vec3) (d : R) : vec3 :=
  V3 (vx a / d) (vy a / d) (vz a / d).

Definition vneg (a : vec3) : vec3 := V3 (- vx a) (- vy a) (- vz a).

(** [torch.clamp(x, min=lo)] and [torch.clamp(x, max=hi)] *)
Definition clamp_min (x lo : R) : R := Rmax x lo.
Definition clamp_max (x hi : R) : R := Rmin x hi.

(** ** SG algebra *)

(** The denominator of [norm_axis]. *)
Definition norm_axis_denom (x : vec3) : R := norm x + TINY_NUMBER.

(** [norm_axis(x) = x / (torch.norm(x, dim=-1, keepdim=True) + TINY_NUMBER)] *)
Definition norm_axis (x : vec3) : vec3 := vdiv x (norm_axis_denom x).

(** The fitted parameter [t] of [hemisphere_int], as a function of the
    already shifted sharpness [lambda_val + TINY_NUMBER]. *)
Definition hemi_t (lambda_val : R) : R :=
  let inv_lambda_val := 1 / lambda_val in
  sqrt lambda_val * (1.6988 + 10.8438 * inv_lambda_val) /
  (1 + 6.2201 * inv_lambda_val + 10.2415 * inv_lambda_val * inv_lambda_val).

(** [mask = (cos_beta >= 0).float()] *)
Definition hemi_mask (cos_beta : R) : R :=
  if Rle_dec 0 cos_beta then 1 else 0.

(** The mixing factor [s] of [hemisphere_int]; [lambda_val] is the raw
    argument, shifted by [TINY_NUMBER] as the first statement of the source
    does.  In exact arithmetic [exp(-t) < 1] for every sharpness; in
    float32 it is 1 for a sharpness below about 1e-5, both quotients are
    0/0 and [s] is NaN there, which this definition does not show. *)
Definition hemi_s (lambda_val cos_beta : R) : R :=
  let lambda_val := lambda_val + TINY_NUMBER in
  let t := hemi_t lambda_val in
  let inv_a := exp (- t) in
  let mask := hemi_mask cos_beta in
  let inv_b := exp (- t * clamp_min cos_beta 0) in
  let s1 := (1 - inv_a * inv_b) / (1 - inv_a + inv_b - inv_a * inv_b) in
  let b := exp (t * clamp_max cos_beta 0) in
  let s2 := (b - inv_a) / ((1 - inv_a) * (b + 1)) in
  mask * s1 + (1 - mask) * s2.

(** The below-horizon and above-horizon terms, at the shifted sharpness. *)
Definition hemi_A_b (lambda_val : R) : R :=
  2 * PI / lambda_val * (exp (- lambda_val) - exp (- 2 * lambda_val)).

Definition hemi_A_u (lambda_val : R) : R :=
  2 * PI / lambda_val * (1 - exp (- lambda_val)).

(** [hemisphere_int(lambda_val, cos_beta)] *)
Definition hemisphere_int (lambda_val cos_beta : R) : R :=
  let s := hemi_s lambda_val cos_beta in
  let lambda_val := lambda_val + TINY_NUMBER in
  let A_b := hemi_A_b lambda_val in
  let A_u := hemi_A_u lambda_val in
  A_b * (1 - s) + A_u * s.


(** The value [tmp] of [lambda_trick] after the [torch.min].  For
    [lambda2 = 0] the source computes [ratio = inf] and NaN from it; the
    definition stands for the source where [lambda2 <> 0]. *)
Definition lambda_trick_tmp (lobe1 : vec3) (lambda1 : R)
                            (lobe2 : vec3) (lambda2 : R) : R :=
  let ratio := lambda1 / lambda2 in
  let lobe1 := norm_axis lobe1 in
  let lobe2 := norm_axis lobe2 in
  let dot := dot lobe1 lobe2 in
  let tmp := sqrt (ratio * ratio + 1 + 2 * ratio * dot) in
  Rmin tmp (ratio + 1).

(** [final_lobes] of [lambda_trick]. *)
Definition lambda_trick_lobes (lobe1 : vec3) (lambda1 : R)
                              (lobe2 : vec3) (lambda2 : R) : vec3 :=
  let ratio := lambda1 / lambda2 in
  let tmp := lambda_trick_tmp lobe1 lambda1 lobe2 lambda2 in
  let lobe1 := norm_axis lobe1 in
  let lobe2 := norm_axis lobe2 in
  let lambda1_over_lambda3 := ratio / tmp in
  let lambda2_over_lambda3 := 1 / tmp in
  vadd (vscale lambda1_over_lambda3 lobe1) (vscale lambda2_over_lambda3 lobe2).

(** [final_lambdas = lambda3] of [lambda_trick]. *)
Definition lambda_trick_lambdas (lobe1 : vec3) (lambda1 : R)
                                (lobe2 : vec3) (lambda2 : R) : R :=
  let tmp := lambda_trick_tmp lobe1 lambda1 lobe2 lambda2 in
  let lambda3 := lambda2 * tmp in
  lambda3.

(** [final_mus] of [lambda_trick], for one colour channel. *)
Definition lambda_trick_mus (lobe1 : vec3) (lambda1 mu1 : R)
                            (lobe2 : vec3) (lambda2 mu2 : R) : R :=
  let ratio := lambda1 / lambda2 in
  let tmp := lambda_trick_tmp lobe1 lambda1 lobe2 lambda2 in
  let diff := lambda2 * (tmp - ratio - 1) in
  mu1 * mu2 * exp diff.

(** [lambda_trick(lobe1, lambda1, mu1, lobe2, lambda2, mu2)], for one lobe
    pair and one colour channel of the amplitudes; it returns
    [(final_lobes, final_lambdas, final_mus)]. *)
Definition lambda_trick (lobe1 : vec3) (lambda1 mu1 : R)
                        (lobe2 : vec3) (lambda2 mu2 : R) : vec3 * R * R :=
  (lambda_trick_lobes lobe1 lambda1 lobe2 lambda2,
   lambda_trick_lambdas lobe1 lambda1 lobe2 lambda2,
   lambda_trick_mus lobe1 lambda1 mu1 lobe2 lambda2 mu2).


(** The closed-form integral of an SG of sharpness [lambda] over the whole
    sphere, [2 pi / lambda (1 - exp (- 2 lambda))]. *)
Definition full_sphere_sg_integral (lambda_val : R) : R :=
  2 * PI / lambda_val * (1 - exp (- 2 * lambda_val)).

(** The value of [tmp] when [lambda_trick] is applied to twice the same
    unit lobe with equal sharpness: the two [norm_axis] calls shrink the
    axis by [1 / (1 + TINY_NUMBER)], so the dot product of the normalised
    axes is [1 / (1 + TINY_NUMBER)^2]. *)
Definition lambda_trick_equal_tmp : R :=
  sqrt (2 + 2 / ((1 + TINY_NUMBER) * (1 + TINY_NUMBER))).

(** ** Tensor values that may be NaN *)

Inductive tval : Type :=
| Val (r : R)
| NaN.

Definition isnan (v : tval) : bool :=
  match v with NaN => true | Val _ => false end.

(** [torch.isnan(t).sum() > 0] on a flattened tensor *)
Definition any_nan (t : list tval) : bool := existsb isnan t.

Definition tlift1 (f : R -> R) (a : tval) : tval :=
  match a with Val x => Val (f x) | NaN => NaN end.

Definition tlift2 (f : R -> R -> R) (a b : tval) : tval :=
  match a, b with Val x, Val y => Val (f x y) | _, _ => NaN end.

Definition tadd : tval -> tval -> tval := tlift2 Rplus.
Definition tsub : tval -> tval -> tval := tlift2 Rminus.
Definition tmul : tval -> tval -> tval := tlift2 Rmult.
Definition tdiv : tval -> tval -> tval := tlift2 Rdiv.

(** [torch.sum] along one axis *)
Definition tsum (l : list tval) : tval := fold_right tadd (Val 0) l.
Definition Rsum (l : list R) : R := fold_right Rplus 0 l.

(** Three-channel values (RGB) that may be NaN *)
Record tvec3 : Type := T3 { tr : tval; tg : tval; tb : tval }.

Definition tvec3_map (f : tval -> tval) (a : tvec3) : tvec3 :=
  T3 (f (tr a)) (f (tg a)) (f (tb a)).

Definition tvec3_map2 (f : tval -> tval -> tval) (a b : tvec3) : tvec3 :=
  T3 (f (tr a) (tr b)) (f (tg a) (tg b)) (f (tb a) (tb b)).

Definition tvec3_of (a : vec3) : tvec3 := T3 (Val (vx a)) (Val (vy a)) (Val (vz a)).

Definition tvec3_channels (a : tvec3) : list tval := [tr a; tg a; tb a].

(** [torch.sum(t, dim=-2)] of a list of RGB rows *)
Definition tvec3_sum (l : list tvec3) : tvec3 :=
  fold_right (tvec3_map2 tadd) (T3 (Val 0) (Val 0) (Val 0)) l.

(** ** Effects: predictor calls and debugger breakpoints *)

(** The places where the source runs [import ipdb; ipdb.set_trace()]. *)
Inductive trap_site : Type :=
| InDiffuseVisibility      (* get_diffuse_visibility, isnan(vis) *)
| InSpecularVisibility     (* get_specular_visibility, isnan(vis) *)
| InWarpBrdfSGLambdas      (* specular_rgb_fn, warpBrdfSGLambdas.isnan() *)
| InSpecularRgb            (* specular_rgb_fn, isnan(specular_rgb) *)
| InDiffuseRgb.            (* render_with_sg, isnan(diffuse_rgb) *)

Inductive event : Type :=
| EvQuery (rows : list (vec3 * vec3))  (* one call VisModel(points, dirs) *)
| EvBreakpoint (site : trap_site).     (* ipdb.set_trace() reached *)

(** What the operator types at the debugger prompt: [c] resumes the
    program, [q] leaves it by raising [bdb.BdbQuit]. *)
Inductive dbg_cmd : Type := DbgContinue | DbgQuit.

Inductive outcome (A : Type) : Type :=
| Returned (a : A)
| BdbQuit.
Arguments Returned {A} a.
Arguments BdbQuit {A}.

Definition M (A : Type) : Type := (list event * outcome A)%type.

Definition ret {A : Type} (a : A) : M A := ([], Returned a).

Definition bind {A B : Type} (m : M A) (k : A -> M B) : M B :=
  match m with
  | (tr1, Returned a) => let '(tr2, r) := k a in (tr1 ++ tr2, r)
  | (tr1, BdbQuit) => (tr1, BdbQuit)
  end.

Notation "'do' x <- m ; k" := (bind m (fun x => k))
  (at level 10, x name, m at level 100, k at level 200).
Notation "'run' m ; k" := (bind m (fun _ => k))
  (at level 10, m at level 100, k at level 200).

Definition trace_of {A : Type} (m : M A) : list event := fst m.
Definition result_of {A : Type} (m : M A) : outcome A := snd m.

(** [for x in xs: acc = body(acc, x)] *)
Fixpoint foldM {A B : Type} (body : B -> A -> M B) (xs : list A) (acc : B) : M B :=
  match xs with
  | [] => ret acc
  | x :: xs' => do acc' <- body acc x; foldM body xs' acc'
  end.

(** The rows of all predictor calls of a trace, in call order. *)
Fixpoint queried_rows (tr : list event) : list (vec3 * vec3) :=
  match tr with
  | [] => []
  | EvQuery rows :: tr' => rows ++ queried_rows tr'
  | EvBreakpoint _ :: tr' => queried_rows tr'
  end.

Fixpoint breakpoints (tr : list event) : list trap_site :=
  match tr with
  | [] => []
  | EvQuery _ :: tr' => breakpoints tr'
  | EvBreakpoint s :: tr' => s :: breakpoints tr'
  end.

(** ** Tensor indexing *)

(** [t[mask]]: the entries of [t] where the boolean [mask] holds, in
    row-major order *)
Fixpoint masked_select {A : Type} (mask : list bool) (xs : list A) : list A :=
  match mask, xs with
  | m :: mask', x :: xs' =>
      if m then x :: masked_select mask' xs' else masked_select mask' xs'
  | _, _ => []
  end.

(** [t = zeros(len(mask)); t[mask] = vals] *)
Fixpoint masked_scatter {A : Type} (mask : list bool) (zero : A) (vals : list A) : list A :=
  match mask with
  | [] => []
  | true :: mask' =>
      match vals with
      | v :: vals' => v :: masked_scatter mask' zero vals'
      | [] => zero :: masked_scatter mask' zero []
      end
  | false :: mask' => zero :: masked_scatter mask' zero vals
  end.

(** [t[indx]] for an index tensor [indx] *)
Definition index_select {A : Type} (d : A) (t : list A) (indx : list nat) : list A :=
  map (fun i => nth i t d) indx.

(** [t[indx] = vals] for an index tensor [indx] *)
Definition index_put {A : Type} (t : list A) (indx : list nat) (vals : list A) : list A :=
  fold_left (fun acc iv => <[fst iv := snd iv]> acc) (combine indx vals) t.

(** The chunks [start, start + batch_size), ... of [torch.arange];
    every step consumes at least one index when [batch_size > 0], so
    [remaining] steps are enough. *)
Fixpoint arange_chunks (steps start remaining batch_size : nat) : list (list nat) :=
  match steps with
  | O => []
  | S steps' =>
      match remaining with
      | O => []
      | _ =>
          let k := Nat.min batch_size remaining in
          seq start k :: arange_chunks steps' (start + k) (remaining - k) batch_size
      end
  end.

(** [torch.split(torch.arange(n), batch_size, dim=0)]; an empty tensor is
    split into one empty chunk. *)
Definition split_arange (n batch_size : nat) : list (list nat) :=
  match n with
  | O => [[]]
  | _ => arange_chunks n 0 n batch_size
  end.

(** ** Visibility sampler *)

(** Two-class scores of the predictor: (occluded, visible). *)
Definition score : Type := (tval * tval)%type.

(** [torch.argmax(s, dim=-1).float()]: the first maximal entry, NaN
    counting as maximal *)
Definition argmax2 (s : score) : tval :=
  match s with
  | (NaN, _) => Val 0
  | (Val _, NaN) => Val 1
  | (Val a, Val b) => if Rlt_dec a b then Val 1 else Val 0
  end.

(** [torch.argmin(s, dim=-1).float()]: the first minimal entry, NaN
    counting as minimal *)
Definition argmin2 (s : score) : tval :=
  match s with
  | (NaN, _) => Val 0
  | (Val _, NaN) => Val 1
  | (Val a, Val b) => if Rlt_dec b a then Val 1 else Val 0
  end.

(** [torch.softmax(s, dim=-1)[..., 0]] and [[..., 1]] *)
Definition softmax2_0 (s : score) : tval :=
  tlift2 (fun a b => exp a / (exp a + exp b)) (fst s) (snd s).
Definition softmax2_1 (s : score) : tval :=
  tlift2 (fun a b => exp b / (exp a + exp b)) (fst s) (snd s).

(** [x > y] as a boolean tensor entry *)
Definition Rgtb (x y : R) : bool := if Rlt_dec y x then true else false.

(** [a * s] with the scalar tensor [s] expanded along the last axis *)
Definition vmul_s (a : vec3) (s : R) : vec3 :=
  V3 (vx a * s) (vy a * s) (vz a * s).

Definition z_axis : vec3 := V3 0 0 1.

(** [sharpness.min()]; the tensor is not empty where it is used *)
Definition Rlist_min (l : list R) : R :=
  match l with
  | [] => 0
  | x :: l' => fold_left Rmin l' x
  end.

(** [U * cos(r_theta) * sin(r_phi) + V * sin(r_theta) * sin(r_phi)
     + axis * cos(r_phi)] *)
Definition sample_direction (U V axis : vec3) (r_theta r_phi : R) : vec3 :=
  vadd (vadd (vmul_s (vmul_s U (cos r_theta)) (sin r_phi))
             (vmul_s (vmul_s V (sin r_theta)) (sin r_phi)))
       (vmul_s axis (cos r_phi)).

(** [weight_sum = torch.sum(weight_vis, dim=1) + TINY_NUMBER], the
    denominator of the importance-weighted mean of both samplers *)
Definition weight_sum_of (w : list R) : R := Rsum w + TINY_NUMBER.

(** [torch.arccos((-0.95 * sg_range) / sharpness + 1)] *)
Definition r_phi_range (sg_range sharpness : R) : R :=
  acos ((-0.95 * sg_range) / sharpness + 1).

Section VisibilitySampler.

(** The external predictor, one row at a time: a batch call
    [VisModel(points, dirs)] applies it to every row. *)
Variable VisModel : vec3 -> vec3 -> score.

(** The operator's answer at each breakpoint. *)
Variable dbg : trap_site -> dbg_cmd.

(** The draws of the two [torch.rand(n, nsamp)] calls of one sampler
    call, by row and column; each lies in [[0, 1)]. *)
Variable rand_theta rand_phi : nat -> nat -> R.

(** [import ipdb; ipdb.set_trace()] *)
Definition set_trace (site : trap_site) : M unit :=
  ([EvBreakpoint site],
   match dbg site with
   | DbgContinue => Returned tt
   | DbgQuit => BdbQuit
   end).

(** [if cond: import ipdb; ipdb.set_trace()] *)
Definition trap_if (cond : bool) (site : trap_site) : M unit :=
  if cond then set_trace site else ret tt.

(** [VisModel(input_p[cos_term][indx], input_dir[cos_term][indx])] *)
Definition VisModel_batch (rows : list (vec3 * vec3)) : M (list score) :=
  ([EvQuery rows], Returned (map (fun pd => VisModel (fst pd) (snd pd)) rows)).

(** The batch-forward loop shared by both samplers:
    [pred_vis = zeros(n_mask_dir, 2)] and, for every chunk [indx] of
    [torch.split(torch.arange(n_mask_dir), batch_size)],
    [pred_vis[indx] = VisModel(rows[indx])]. *)
Definition batch_forward (batch_size : nat) (rows : list (vec3 * vec3)) : M (list score) :=
  let n_mask_dir := length rows in
  let pred_vis := repeat (Val 0, Val 0) n_mask_dir in
  foldM (fun pred_vis indx =>
           do out <- VisModel_batch (index_select (V3 0 0 0, V3 0 0 0) rows indx);
           ret (index_put pred_vis indx out))
        (split_arange n_mask_dir batch_size) pred_vis.

(** [input_p] and [input_dir] of the diffuse sampler, flattened row-major
    to [n_points * (n_lobe * nsamp)] rows. *)
Definition diffuse_input_rows (points dirs : list vec3) : list (vec3 * vec3) :=
  flat_map (fun p => map (fun d => (p, d)) dirs) points.

(** [cos_term = torch.sum(normals * input_dir, dim=-1) > TINY_NUMBER],
    flattened the same way. *)
Definition diffuse_cos_term (normals dirs : list vec3) : list bool :=
  flat_map (fun n => map (fun d => Rgtb (dot n d) TINY_NUMBER) dirs) normals.

(** [light_dirs = norm_axis(lgtSGLobes.unsqueeze(-2))] *)
Definition diffuse_light_dirs (lgtSGLobes : list vec3) : list vec3 :=
  map norm_axis lgtSGLobes.

(** [sample_dir], of shape [num_lobe, num_sample, 3]. *)
Definition diffuse_sample_dir (lgtSGLobes : list vec3) (lgtSGLambdas : list R)
                              (nsamp : nat) (thr : R) : list (list vec3) :=
  let sharpness := map (fun l => clamp_min l 1e-4) lgtSGLambdas in
  let sg_range := clamp_max (Rlist_min sharpness) thr in
  imap (fun k ls =>
          let light_dirs := fst ls in
          let U := norm_axis (cross z_axis light_dirs) in
          let V := norm_axis (cross light_dirs U) in
          let r_phi_range := r_phi_range sg_range (snd ls) in
          map (fun j =>
                 let r_theta := rand_theta k j * 2 * PI in
                 let r_phi := rand_phi k j * r_phi_range in
                 sample_direction U V light_dirs r_theta r_phi)
              (seq 0 nsamp))
       (combine (diffuse_light_dirs lgtSGLobes) sharpness).

(** [weight_vis = exp(lgtSGLambdas * (sum(sample_dir * light_dirs) - 1))],
    of shape [num_lobe, num_sample]. *)
Definition diffuse_weight_vis (lgtSGLobes : list vec3) (lgtSGLambdas : list R)
                              (sample_dir : list (list vec3)) : list (list R) :=
  zip_with (fun ll dirs =>
              map (fun d => exp (snd ll * (dot d (fst ll) - 1))) dirs)
           (combine (diffuse_light_dirs lgtSGLobes) lgtSGLambdas) sample_dir.

(** The reduction of the two-class scores to one visibility value. *)
Definition diffuse_reduce (argmax_vis : bool) (s : score) : tval :=
  if argmax_vis then argmax2 s else softmax2_1 s.

(** The flat per-sample tensor [vis] ([n_points, n_lobe * nsamp]) after
    [vis[cos_term] = pred_vis]. *)
Definition diffuse_vis_flat (cos_term : list bool) (argmax_vis : bool)
                            (pred_vis : list score) : list tval :=
  masked_scatter cos_term (Val 0) (map (diffuse_reduce argmax_vis) pred_vis).

(** [vis.reshape(n_points, n_lobe, nsamp).permute(1, 2, 0)] *)
Definition diffuse_vis_permuted (vis : list tval) (n_points n_lobe nsamp : nat)
  : list (list (list tval)) :=
  map (fun k =>
         map (fun j =>
                map (fun p => nth (p * (n_lobe * nsamp) + (k * nsamp + j)) vis (Val 0))
                    (seq 0 n_points))
             (seq 0 nsamp))
      (seq 0 n_lobe).

(** One entry of [torch.sum(vis * weight_vis, dim=1) / weight_sum]:
    [vis_kp] holds the [nsamp] per-sample values of one lobe (or warped
    BRDF lobe) at one point, [w_k] their weights. *)
Definition weighted_mean (vis_kp : list tval) (w_k : list R) : tval :=
  let weight_sum := weight_sum_of w_k in
  tdiv (tsum (zip_with (fun v w => tmul v (Val w)) vis_kp w_k)) (Val weight_sum).

Definition diffuse_mean_vis (vis : list (list (list tval))) (weight_vis : list (list R))
                            (n_points : nat) : list (list tval) :=
  zip_with (fun vis_k w_k =>
              map (fun p => weighted_mean (map (fun row => nth p row (Val 0)) vis_k) w_k)
                  (seq 0 n_points))
           vis weight_vis.

(** What [get_diffuse_visibility] returns: the per-sample tensor
    ([bounding]) or the aggregated one. *)
Inductive diffuse_visibility : Type :=
| VisPerSample (vis : list (list (list tval)))   (* [n_lobe, nsamp, n_points] *)
| VisMean (vis : list (list tval)).              (* [n_lobe, n_points] *)

(** [get_diffuse_visibility(points, normals, VisModel, lgtSGLobes,
    lgtSGLambdas, nsamp, testing, thr, bounding, argmax_vis)];
    [batch_size] is the local constant of the source (2000000).
    [testing] only switches gradient tracking off around the same loop. *)
Definition get_diffuse_visibility (batch_size : nat)
    (points normals : list vec3) (lgtSGLobes : list vec3) (lgtSGLambdas : list R)
    (nsamp : nat) (testing : bool) (thr : R) (bounding argmax_vis : bool)
  : M diffuse_visibility :=
  let n_lobe := length lgtSGLobes in
  let n_points := length points in
  let sample_dir := diffuse_sample_dir lgtSGLobes lgtSGLambdas nsamp thr in
  let sample_dir_flat := concat sample_dir in
  let input_rows := diffuse_input_rows points sample_dir_flat in
  let cos_term := diffuse_cos_term normals sample_dir_flat in
  do pred_vis <- (if testing
                  then batch_forward batch_size (masked_select cos_term input_rows)
                  else batch_forward batch_size (masked_select cos_term input_rows));
  let vis := diffuse_vis_flat cos_term argmax_vis pred_vis in
  let vis := diffuse_vis_permuted vis n_points n_lobe nsamp in
  let weight_vis := diffuse_weight_vis lgtSGLobes lgtSGLambdas sample_dir in
  let mean_vis := diffuse_mean_vis vis weight_vis n_points in
  if bounding then ret (VisPerSample vis)
  else
    let vis := mean_vis in
    run trap_if (any_nan (concat vis)) InDiffuseVisibility;
    ret (VisMean vis).

(** The per-point quantities of the specular sampler. *)
Record specular_point : Type := SpecPoint {
  sp_point : vec3;
  sp_normal : vec3;
  sp_viewdir : vec3;
  sp_lobe : vec3;      (* lgtSGLobes, the warped BRDF lobe *)
  sp_lambda : R        (* lgtSGLambdas[..., 0] *)
}.

Definition specular_points (points normals viewdirs lgtSGLobes : list vec3)
                           (lgtSGLambdas : list R) : list specular_point :=
  zip_with (fun pnv ll =>
              SpecPoint (fst (fst pnv)) (snd (fst pnv)) (snd pnv) (fst ll) (snd ll))
           (combine (combine points normals) viewdirs)
           (combine lgtSGLobes lgtSGLambdas).

(** [ref_dir = -viewdirs + 2 * clamp(sum(normals * viewdirs), min=0) * normals] *)
Definition specular_ref_dir (normal viewdir : vec3) : vec3 :=
  let n_dot_v := clamp_min (dot normal viewdir) 0 in
  vadd (vneg viewdir) (vscale (2 * n_dot_v) normal).

(** [sharpness = torch.clip(lgtSGLambdas[..., 0], min=0.1, max=50)] *)
Definition specular_sharpness (lambda_val : R) : R :=
  Rmin (Rmax lambda_val 0.1) 50.

(** [sg_range = torch.clamp(sharpness.min(), max=1)], the minimum taken
    over the whole [sharpness] tensor *)
Definition specular_sg_range (sharpness : list R) : R :=
  clamp_max (Rlist_min sharpness) 1.

(** [sample_dir] for the points of one view, of shape
    [n_points, nsamp, 3], given [sg_range]. *)
Definition specular_sample_dir_at (sg_range : R) (pts : list specular_point)
                                  (nsamp : nat) : list (list vec3) :=
  imap (fun i sp =>
          let ref_dir := specular_ref_dir (sp_normal sp) (sp_viewdir sp) in
          let U := norm_axis (cross z_axis ref_dir) in
          let V := norm_axis (cross ref_dir U) in
          let r_phi_range := r_phi_range sg_range (specular_sharpness (sp_lambda sp)) in
          map (fun j =>
                 let r_theta := rand_theta i j * 2 * PI in
                 let r_phi := rand_phi i j * r_phi_range in
                 sample_direction U V ref_dir r_theta r_phi)
              (seq 0 nsamp))
       pts.

(** [sample_dir] in single-view mode. *)
Definition specular_sample_dir (pts : list specular_point) (nsamp : nat)
  : list (list vec3) :=
  let sharpness := map (fun sp => specular_sharpness (sp_lambda sp)) pts in
  specular_sample_dir_at (specular_sg_range sharpness) pts nsamp.

(** [input_p] and [input_dir], flattened row-major to
    [n_points * nsamp] rows, and [cos_term] likewise. *)
Definition specular_input_rows (pts : list specular_point)
                               (sample_dir : list (list vec3)) : list (vec3 * vec3) :=
  concat (zip_with (fun sp dirs => map (fun d => (sp_point sp, d)) dirs) pts sample_dir).

Definition specular_cos_term (pts : list specular_point)
                             (sample_dir : list (list vec3)) : list bool :=
  concat (zip_with (fun sp dirs =>
                      map (fun d => Rgtb (dot (sp_normal sp) d) TINY_NUMBER) dirs)
                   pts sample_dir).

Definition specular_reduce (inv argmax_vis : bool) (s : score) : tval :=
  if inv then
    if argmax_vis then argmin2 s else softmax2_0 s
  else
    if argmax_vis then argmax2 s else softmax2_1 s.

(** The flat per-sample tensor [vis] ([n_points, nsamp]) after
    [vis[cos_term] = pred_vis]. *)
Definition specular_vis_flat (cos_term : list bool) (inv argmax_vis : bool)
                             (pred_vis : list score) : list tval :=
  masked_scatter cos_term (Val 0) (map (specular_reduce inv argmax_vis) pred_vis).

(** [weight_vis = exp(sharpness * (sum(sample_dir * light_dirs) - 1))],
    with the clipped sharpness.  With [testing] the source resets rows
    whose weight sum is infinite; no real number is infinite, so that
    block changes nothing here. *)
Definition specular_weight_vis (pts : list specular_point)
                               (sample_dir : list (list vec3)) : list (list R) :=
  zip_with (fun sp dirs =>
              map (fun d => exp (specular_sharpness (sp_lambda sp) * (dot d (sp_lobe sp) - 1)))
                  dirs)
           pts sample_dir.

(** [get_specular_visibility(points, normals, viewdirs, VisModel,
    lgtSGLobes, lgtSGLambdas, nsamp, multi_view=False, testing, inv,
    argmax_vis)]; [batch_size] is the local constant of the source
    (10000000). *)
Definition get_specular_visibility (batch_size : nat)
    (points normals viewdirs lgtSGLobes : list vec3) (lgtSGLambdas : list R)
    (nsamp : nat) (testing inv argmax_vis : bool) : M (list tval) :=
  let pts := specular_points points normals viewdirs lgtSGLobes lgtSGLambdas in
  let sample_dir := specular_sample_dir pts nsamp in
  let input_rows := specular_input_rows pts sample_dir in
  let cos_term := specular_cos_term pts sample_dir in
  do pred_vis <- (if testing
                  then batch_forward batch_size (masked_select cos_term input_rows)
                  else batch_forward batch_size (masked_select cos_term input_rows));
  let vis := specular_vis_flat cos_term inv argmax_vis pred_vis in
  let weight_vis := specular_weight_vis pts sample_dir in
  let vis :=
    imap (fun p w_p =>
            weighted_mean (map (fun j => nth (p * nsamp + j) vis (Val 0)) (seq 0 nsamp)) w_p)
         weight_vis in
  run trap_if (any_nan vis) InSpecularVisibility;
  ret vis.

(** The per-point quantities of every view in multi-view mode, where
    [viewdirs], [lgtSGLobes] and [lgtSGLambdas] carry a leading view
    axis and [points] and [normals] are shared by the views. *)
Definition specular_views (points normals : list vec3)
    (viewdirs lgtSGLobes : list (list vec3)) (lgtSGLambdas : list (list R))
  : list (list specular_point) :=
  zip_with (fun vd ll => specular_points points normals vd (fst ll) (snd ll))
           viewdirs (combine lgtSGLobes lgtSGLambdas).

(** [sample_dir] in multi-view mode, of shape
    [n_views, n_points, nsamp, 3]; the draws are shared by the views. *)
Definition multi_view_sample_dir (views : list (list specular_point)) (nsamp : nat)
  : list (list (list vec3)) :=
  let sharpness :=
    concat (map (map (fun sp => specular_sharpness (sp_lambda sp))) views) in
  let sg_range := specular_sg_range sharpness in
  map (fun pts => specular_sample_dir_at sg_range pts nsamp) views.

(** [get_specular_visibility(..., multi_view=True, ...)]: the scores are
    reduced by [torch.max(pred_vis, dim=-1)] indices whatever [inv] and
    [argmax_vis] say, and the result has shape [n_views, n_points]. *)
Definition get_specular_visibility_multi_view (batch_size : nat)
    (points normals : list vec3)
    (viewdirs lgtSGLobes : list (list vec3)) (lgtSGLambdas : list (list R))
    (nsamp : nat) (testing inv argmax_vis : bool) : M (list (list tval)) :=
  let views := specular_views points normals viewdirs lgtSGLobes lgtSGLambdas in
  let sample_dir := multi_view_sample_dir views nsamp in
  let input_rows := concat (zip_with specular_input_rows views sample_dir) in
  let cos_term := concat (zip_with specular_cos_term views sample_dir) in
  do pred_vis <- batch_forward batch_size (masked_select cos_term input_rows);
  let vis := masked_scatter cos_term (Val 0) (map argmax2 pred_vis) in
  let weight_vis := zip_with specular_weight_vis views sample_dir in
  let n_points := length points in
  let vis :=
    imap (fun v w_v =>
            imap (fun p w_p =>
                    weighted_mean
                      (map (fun j => nth ((v * n_points + p) * nsamp + j) vis (Val 0))
                           (seq 0 nsamp))
                      w_p)
                 w_v)
         weight_vis in
  run trap_if (any_nan (concat vis)) InSpecularVisibility;
  ret vis.

End VisibilitySampler.

(** The values computed by the two samplers, as functions of their inputs. *)

(** The rows the diffuse sampler sends to the predictor:
    [input_p[cos_term]] paired with [input_dir[cos_term]]. *)
Definition diffuse_masked_rows (rand_theta rand_phi : nat -> nat -> R)
    (points normals lgtSGLobes : list vec3) (lgtSGLambdas : list R)
    (nsamp : nat) (thr : R) : list (vec3 * vec3) :=
  let sample_dir_flat :=
    concat (diffuse_sample_dir rand_theta rand_phi lgtSGLobes lgtSGLambdas nsamp thr) in
  masked_select (diffuse_cos_term normals sample_dir_flat)
                (diffuse_input_rows points sample_dir_flat).

(** The per-sample tensor [vis] of the diffuse sampler after the permute,
    of shape [n_lobe, nsamp, n_points], as a function of the inputs. *)
Definition diffuse_per_sample_vis (VisModel : vec3 -> vec3 -> score)
    (rand_theta rand_phi : nat -> nat -> R)
    (points normals lgtSGLobes : list vec3) (lgtSGLambdas : list R)
    (nsamp : nat) (thr : R) (argmax_vis : bool) : list (list (list tval)) :=
  let sample_dir_flat :=
    concat (diffuse_sample_dir rand_theta rand_phi lgtSGLobes lgtSGLambdas nsamp thr) in
  let cos_term := diffuse_cos_term normals sample_dir_flat in
  let pred_vis :=
    map (fun pd => VisModel (fst pd) (snd pd))
        (diffuse_masked_rows rand_theta rand_phi points normals lgtSGLobes lgtSGLambdas
                             nsamp thr) in
  diffuse_vis_permuted (diffuse_vis_flat cos_term argmax_vis pred_vis)
                       (length points) (length lgtSGLobes) nsamp.

(** The aggregated tensor [mean_vis], of shape [n_lobe, n_points]. *)
Definition diffuse_aggregated_vis (VisModel : vec3 -> vec3 -> score)
    (rand_theta rand_phi : nat -> nat -> R)
    (points normals lgtSGLobes : list vec3) (lgtSGLambdas : list R)
    (nsamp : nat) (thr : R) (argmax_vis : bool) : list (list tval) :=
  diffuse_mean_vis
    (diffuse_per_sample_vis VisModel rand_theta rand_phi points normals lgtSGLobes
                            lgtSGLambdas nsamp thr argmax_vis)
    (diffuse_weight_vis lgtSGLobes lgtSGLambdas
       (diffuse_sample_dir rand_theta rand_phi lgtSGLobes lgtSGLambdas nsamp thr))
    (length points).

(** The rows the specular sampler sends to the predictor. *)
Definition specular_masked_rows (rand_theta rand_phi : nat -> nat -> R)
    (points normals viewdirs lgtSGLobes : list vec3) (lgtSGLambdas : list R)
    (nsamp : nat) : list (vec3 * vec3) :=
  let pts := specular_points points normals viewdirs lgtSGLobes lgtSGLambdas in
  let sample_dir := specular_sample_dir rand_theta rand_phi pts nsamp in
  masked_select (specular_cos_term pts sample_dir) (specular_input_rows pts sample_dir).

(** The per-sample tensor [vis] of the specular sampler, flattened
    row-major from shape [n_points, nsamp]. *)
Definition specular_per_sample_vis (VisModel : vec3 -> vec3 -> score)
    (rand_theta rand_phi : nat -> nat -> R)
    (points normals viewdirs lgtSGLobes : list vec3) (lgtSGLambdas : list R)
    (nsamp : nat) (inv argmax_vis : bool) : list tval :=
  let pts := specular_points points normals viewdirs lgtSGLobes lgtSGLambdas in
  let sample_dir := specular_sample_dir rand_theta rand_phi pts nsamp in
  specular_vis_flat (specular_cos_term pts sample_dir) inv argmax_vis
    (map (fun pd => VisModel (fst pd) (snd pd))
         (specular_masked_rows rand_theta rand_phi points normals viewdirs lgtSGLobes
                               lgtSGLambdas nsamp)).

(** The aggregated tensor returned by the specular sampler, one value per
    point. *)
Definition specular_aggregated_vis (VisModel : vec3 -> vec3 -> score)
    (rand_theta rand_phi : nat -> nat -> R)
    (points normals viewdirs lgtSGLobes : list vec3) (lgtSGLambdas : list R)
    (nsamp : nat) (inv argmax_vis : bool) : list tval :=
  let pts := specular_points points normals viewdirs lgtSGLobes lgtSGLambdas in
  let sample_dir := specular_sample_dir rand_theta rand_phi pts nsamp in
  let vis := specular_per_sample_vis VisModel rand_theta rand_phi points normals viewdirs
               lgtSGLobes lgtSGLambdas nsamp inv argmax_vis in
  imap (fun p w_p =>
          weighted_mean (map (fun j => nth (p * nsamp + j) vis (Val 0)) (seq 0 nsamp)) w_p)
       (specular_weight_vis pts sample_dir).

(** The rows the specular sampler sends to the predictor in multi-view
    mode. *)
Definition multi_view_masked_rows (rand_theta rand_phi : nat -> nat -> R)
    (points normals : list vec3)
    (viewdirs lgtSGLobes : list (list vec3)) (lgtSGLambdas : list (list R))
    (nsamp : nat) : list (vec3 * vec3) :=
  let views := specular_views points normals viewdirs lgtSGLobes lgtSGLambdas in
  let sample_dir := multi_view_sample_dir rand_theta rand_phi views nsamp in
  masked_select (concat (zip_with specular_cos_term views sample_dir))
                (concat (zip_with specular_input_rows views sample_dir)).

(** The per-sample tensor [vis] in multi-view mode, flattened row-major
    from shape [n_views, n_points, nsamp]. *)
Definition multi_view_per_sample_vis (VisModel : vec3 -> vec3 -> score)
    (rand_theta rand_phi : nat -> nat -> R) (points normals : list vec3)
    (viewdirs lgtSGLobes : list (list vec3)) (lgtSGLambdas : list (list R))
    (nsamp : nat) : list tval :=
  let views := specular_views points normals viewdirs lgtSGLobes lgtSGLambdas in
  let sample_dir := multi_view_sample_dir rand_theta rand_phi views nsamp in
  masked_scatter (concat (zip_with specular_cos_term views sample_dir)) (Val 0)
    (map argmax2
       (map (fun pd => VisModel (fst pd) (snd pd))
            (multi_view_masked_rows rand_theta rand_phi points normals viewdirs
                                    lgtSGLobes lgtSGLambdas nsamp))).

(** The aggregated tensor returned in multi-view mode, of shape
    [n_views, n_points]. *)
Definition multi_view_aggregated_vis (VisModel : vec3 -> vec3 -> score)
    (rand_theta rand_phi : nat -> nat -> R) (points normals : list vec3)
    (viewdirs lgtSGLobes : list (list vec3)) (lgtSGLambdas : list (list R))
    (nsamp : nat) : list (list tval) :=
  let views := specular_views points normals viewdirs lgtSGLobes lgtSGLambdas in
  let sample_dir := multi_view_sample_dir rand_theta rand_phi views nsamp in
  let vis := multi_view_per_sample_vis VisModel rand_theta rand_phi points normals
               viewdirs lgtSGLobes lgtSGLambdas nsamp in
  imap (fun v w_v =>
          imap (fun p w_p =>
                  weighted_mean
                    (map (fun j => nth ((v * length points + p) * nsamp + j) vis (Val 0))
                         (seq 0 nsamp))
                    w_p)
               w_v)
       (zip_with specular_weight_vis views sample_dir).

(** ** SG shading engine *)

(** One row of [lgtSGs]: the seven columns (axis, sharpness, amplitude). *)
Record lgtSG : Type := LgtSG { sg_axis : vec3; sg_lambda : R; sg_mu : vec3 }.

(** [lgtSGs[..., :3] / (torch.norm(lgtSGs[..., :3], dim=-1, keepdim=True) + TINY_NUMBER)] *)
Definition lgtSGLobes_of (sg : lgtSG) : vec3 :=
  vdiv (sg_axis sg) (norm (sg_axis sg) + TINY_NUMBER).

(** [torch.abs(lgtSGs[..., 3:4])] *)
Definition lgtSGLambdas_of (sg : lgtSG) : R := Rabs (sg_lambda sg).

(** [torch.abs(lgtSGs[..., -3:])] *)
Definition origin_lgtSGMus_of (sg : lgtSG) : vec3 :=
  V3 (Rabs (vx (sg_mu sg))) (Rabs (vy (sg_mu sg))) (Rabs (vz (sg_mu sg))).

Definition mu_cos : R := 32.7080.
Definition lambda_cos : R := 0.0315.
Definition alpha_cos : R := 31.7003.

(** The local constants [batch_size] of the two samplers. *)
Definition diffuse_batch_size : nat := N.to_nat 2000000.
Definition specular_batch_size : nat := N.to_nat 10000000.

(** The value of [prefit]: ["warmup"], ["project"], or anything else. *)
Inductive prefit_mode : Type := PrefitWarmup | PrefitProject | PrefitOther.

(** The product with the clamped-cosine lobe followed by the hemisphere
    integral, for one point, one lobe and one channel (the same four
    statements close the diffuse and the specular term):
    [lambda_trick(normal, lambda_cos, mu_cos, final_lobes, final_lambdas, final_mus)],
    [dot1 = sum(lobe_prime * normal)], [dot2 = sum(final_lobes * normal)],
    [mu_prime * hemisphere_int(lambda_prime, dot1)
       - final_mus * alpha_cos * hemisphere_int(final_lambdas, dot2)].
    A NaN comes in through [final_mus] only: the NaN that the source
    produces by itself for [final_lambdas = 0] (division by zero in the
    lambda trick) or for a sharpness below about 1e-5 (0/0 in
    [hemisphere_int]) is outside this definition, see [sharp_lights]. *)
Definition cosine_lobe_integral (normal final_lobes : vec3) (final_lambdas : R)
                                (final_mus : tval) : tval :=
  let lobe_prime := lambda_trick_lobes normal lambda_cos final_lobes final_lambdas in
  let lambda_prime := lambda_trick_lambdas normal lambda_cos final_lobes final_lambdas in
  let mu_prime :=
    tlift1 (fun m => lambda_trick_mus normal lambda_cos mu_cos final_lobes final_lambdas m)
           final_mus in
  let dot1 := dot lobe_prime normal in
  let dot2 := dot final_lobes normal in
  tsub (tmul mu_prime (Val (hemisphere_int lambda_prime dot1)))
       (tmul (tmul final_mus (Val alpha_cos)) (Val (hemisphere_int final_lambdas dot2))).

(** [torch.clamp(t, min=0.)] on a value that may be NaN *)
Definition tclamp_min0 (v : tval) : tval := tlift1 (fun x => clamp_min x 0) v.

(** The warped BRDF lobe of one point. *)
Record warped_brdf : Type := WarpedBrdf {
  warpBrdfSGLobes : vec3;
  warpBrdfSGLambdas : R;
  warpBrdfSGMus : vec3
}.

(** Schlick's Fresnel term for one channel:
    [spec_col + (1 - spec_col) * pow(2.0, -(5.55473 * v_dot_h + 6.8316) * v_dot_h)] *)
Definition fresnel (spec_col v_dot_h : R) : R :=
  spec_col + (1 - spec_col) * Rpower 2 (- (5.55473 * v_dot_h + 6.8316) * v_dot_h).

(** [specular_reflectance] itself without [metallic], otherwise
    [(1 - metallic) * specular_reflectance + diffuse_albedo * metallic] *)
Definition spec_col_of (specular_reflectance : R) (metallic : option vec3)
                       (diffuse_albedo : vec3) : vec3 :=
  match metallic with
  | None => V3 specular_reflectance specular_reflectance specular_reflectance
  | Some m =>
      V3 ((1 - vx m) * specular_reflectance + vx diffuse_albedo * vx m)
         ((1 - vy m) * specular_reflectance + vy diffuse_albedo * vy m)
         ((1 - vz m) * specular_reflectance + vz diffuse_albedo * vz m)
  end.

(** The first half of [specular_rgb_fn], for one point: NDF lobe,
    spherical warping, Fresnel and geometry terms.  For [roughness = 0]
    the source computes [2 / 0 = inf]; the definition stands for the
    source where [roughness <> 0]. *)
Definition warp_brdf (normal viewdir : vec3) (roughness specular_reflectance : R)
                     (metallic : option vec3) (diffuse_albedo : vec3) : warped_brdf :=
  let brdfSGLobes := normal in
  let inv_roughness_pow4 := 2 / (roughness * roughness * roughness * roughness) in
  let brdfSGLambdas := inv_roughness_pow4 in
  let mu_val := inv_roughness_pow4 / PI in
  let brdfSGMus := mu_val in
  let v_dot_lobe := clamp_min (dot brdfSGLobes viewdir) 0 in
  let warpLobes := vsub (vscale (2 * v_dot_lobe) brdfSGLobes) viewdir in
  let warpLobes := vdiv warpLobes (norm warpLobes + TINY_NUMBER) in
  let warpLambdas := brdfSGLambdas / (4 * v_dot_lobe + TINY_NUMBER) in
  let new_half := vadd warpLobes viewdir in
  let new_half := vdiv new_half (norm new_half + TINY_NUMBER) in
  let v_dot_h := clamp_min (dot viewdir new_half) 0 in
  let spec_col := spec_col_of specular_reflectance metallic diffuse_albedo in
  let dot1 := clamp_min (dot warpLobes normal) 0 in
  let dot2 := clamp_min (dot viewdir normal) 0 in
  let k := (roughness + 1) * (roughness + 1) / 8 in
  let G1 := dot1 / (dot1 * (1 - k) + k + TINY_NUMBER) in
  let G2 := dot2 / (dot2 * (1 - k) + k + TINY_NUMBER) in
  let G := G1 * G2 in
  let Moi := fun c => fresnel c v_dot_h * G / (4 * dot1 * dot2 + TINY_NUMBER) in
  WarpedBrdf warpLobes warpLambdas
             (V3 (brdfSGMus * Moi (vx spec_col))
                 (brdfSGMus * Moi (vy spec_col))
                 (brdfSGMus * Moi (vz spec_col))).


(** The specular contribution of one light lobe at one point, one channel:
    the light SG times the warped BRDF SG, then the cosine lobe and the
    hemisphere integral. *)
Definition specular_lobe_term (normal : vec3) (brdf : warped_brdf) (sg : lgtSG)
                              (lgtSGMus : tval) (warpMus : R) : tval :=
  let final_lobes :=
    lambda_trick_lobes (lgtSGLobes_of sg) (lgtSGLambdas_of sg)
                       (warpBrdfSGLobes brdf) (warpBrdfSGLambdas brdf) in
  let final_lambdas :=
    lambda_trick_lambdas (lgtSGLobes_of sg) (lgtSGLambdas_of sg)
                         (warpBrdfSGLobes brdf) (warpBrdfSGLambdas brdf) in
  let final_mus :=
    tlift1 (fun m => lambda_trick_mus (lgtSGLobes_of sg) (lgtSGLambdas_of sg) m
                                      (warpBrdfSGLobes brdf) (warpBrdfSGLambdas brdf) warpMus)
           lgtSGMus in
  cosine_lobe_integral normal final_lobes final_lambdas final_mus.

(** What the dictionary holds under ['sg_specular_rgb']: the tensor, or in
    deferred mode the function object, which draws fresh samples and
    takes the roughness. *)
Inductive specular_output : Type :=
| SpecularValue (rgb : list tvec3)
| SpecularDeferred (fn : (nat -> nat -> R) -> (nat -> nat -> R) -> list R -> M (list tvec3)).

(** The dictionary returned by [render_with_sg]. *)
Record shading_output : Type := ShadingOutput {
  sg_rgb : list tvec3;
  sg_specular_rgb : specular_output;
  sg_diffuse_rgb : list tvec3;
  vis_shadow : list tvec3;
  supervise : tval
}.

Section ShadingEngine.

Variable VisModel : vec3 -> vec3 -> score.
Variable dbg : trap_site -> dbg_cmd.

(** [utils.utils.kl_divergence], which is not part of the renderer. *)
Variable kl_divergence : list (list tval) -> R -> tval.

(** The fixed arguments of one [render_with_sg] call. *)
Variable points normal viewdirs : list vec3.
Variable lgtSGs : list (list lgtSG).
Variable specular_reflectance : R.
Variable diffuse_albedo : list vec3.
Variable comp_vis lin_diff testing : bool.
Variable metallic : option (list vec3).
Variable argmax_vis : bool.

Definition zero3 : vec3 := V3 0 0 0.

(** [dots_shape[0]] *)
Definition n_dots : nat := length normal.

Definition metallic_at (i : nat) : option vec3 :=
  match metallic with
  | None => None
  | Some m => Some (nth i m zero3)
  end.

(** The warped BRDF lobes of all points. *)
Definition warped_brdfs (roughness : list R) : list warped_brdf :=
  map (fun i => warp_brdf (nth i normal zero3) (nth i viewdirs zero3)
                          (nth i roughness 0) specular_reflectance
                          (metallic_at i) (nth i diffuse_albedo zero3))
      (seq 0 n_dots).

(** The specular term: per point, the sum over the light lobes of the
    products with the warped BRDF lobe, clamped to be non-negative. *)
Definition specular_rgb_sg (brdf : list warped_brdf) (brdf_vis : list tval) : list tvec3 :=
  imap (fun i b =>
          let n := nth i normal zero3 in
          let vis := nth i brdf_vis (Val 0) in
          let term := fun (channel : vec3 -> R) sg =>
            specular_lobe_term n b sg
              (tmul (Val (channel (origin_lgtSGMus_of sg))) vis)
              (channel (warpBrdfSGMus b)) in
          let lights := nth i lgtSGs [] in
          T3 (tclamp_min0 (tsum (map (term vx) lights)))
             (tclamp_min0 (tsum (map (term vy) lights)))
             (tclamp_min0 (tsum (map (term vz) lights))))
       brdf.

(** [specular_rgb_fn(roughness)], the closure defined inside
    [render_with_sg]; [rand_theta] and [rand_phi] are the draws of its
    call to [get_specular_visibility]. *)
Definition specular_rgb_fn (rand_theta rand_phi : nat -> nat -> R)
                           (roughness : list R) : M (list tvec3) :=
  let brdf := warped_brdfs roughness in
  run trap_if dbg (any_nan (map (fun b => Val (warpBrdfSGLambdas b)) brdf))
              InWarpBrdfSGLambdas;
  do brdf_vis <- get_specular_visibility VisModel dbg rand_theta rand_phi
                   specular_batch_size points normal viewdirs
                   (map warpBrdfSGLobes brdf) (map warpBrdfSGLambdas brdf)
                   8 testing (negb comp_vis) argmax_vis;
  let specular_rgb := specular_rgb_sg brdf brdf_vis in
  run trap_if dbg (any_nan (flat_map tvec3_channels specular_rgb)) InSpecularRgb;
  ret specular_rgb.

(** [light_vis_gt] after [permute(1, 0)]: entry [i][k] of the sampler's
    [n_lobe x n_points] result. *)
Definition light_vis_at (mean_vis : list (list tval)) (i k : nat) : tval :=
  nth i (nth k mean_vis []) (Val 0).

(** The diffuse term of one point before the clamp, for one channel. *)
Definition diffuse_lobe_term (n albedo : vec3) (channel : vec3 -> R)
                             (sg : lgtSG) (light_vis : option tval) : tval :=
  let origin_mu := Val (channel (origin_lgtSGMus_of sg)) in
  let lgtSGMus :=
    match light_vis with
    | Some v => tmul origin_mu v
    | None => origin_mu
    end in
  let diffuse := channel albedo / PI in
  let final_mus := if lin_diff then lgtSGMus else tmul lgtSGMus (Val diffuse) in
  cosine_lobe_integral n (lgtSGLobes_of sg) (lgtSGLambdas_of sg) final_mus.

(** The block [if comp_vis: ... else: ...] of [render_with_sg]: the
    light visibility used for shading ([None] without [comp_vis]),
    [vis_shadow] and [supervise]. *)
Definition light_visibility (rand_theta rand_phi : nat -> nat -> R)
    (diffuse_vis : option (list (list R))) (prefit : prefit_mode)
  : M (option (nat -> nat -> tval) * list tvec3 * tval) :=
  let M_lobes := fun i => length (nth i lgtSGs []) in
  let vis_shadow := repeat (T3 (Val 0) (Val 0) (Val 0)) n_dots in
  if comp_vis then
    do light_vis_gt <-
      get_diffuse_visibility VisModel dbg rand_theta rand_phi
        diffuse_batch_size points normal
        (map lgtSGLobes_of (nth 0 lgtSGs []))
        (map lgtSGLambdas_of (nth 0 lgtSGs []))
        (match diffuse_vis with None => 32%nat | Some _ => 8%nat end)
        testing 1 false argmax_vis;
    let light_vis_gt :=
      match light_vis_gt with
      | VisMean v => light_vis_at v
      | VisPerSample _ => fun _ _ => Val 0
      end in
    let abs_diff := fun (light_vis : nat -> nat -> tval) =>
      map (fun i => map (fun k => tlift1 Rabs (tsub (light_vis_gt i k) (light_vis i k)))
                        (seq 0 (M_lobes i)))
          (seq 0 n_dots) in
    let '(light_vis, supervise) :=
      match diffuse_vis with
      | Some dv =>
          let light_vis := fun i k => Val (nth k (nth i dv []) 0) in
          match prefit with
          | PrefitWarmup =>
              (light_vis_gt, tmul (kl_divergence (abs_diff light_vis) 0.01) (Val 0.1))
          | PrefitProject =>
              (light_vis, tmul (kl_divergence (abs_diff light_vis) 0.01) (Val 0.2))
          | PrefitOther =>
              (light_vis, tmul (kl_divergence (abs_diff light_vis) 0.01) (Val 1.0))
          end
      | None => (light_vis_gt, Val 0)
      end in
    let vis_shadow :=
      map (fun i =>
             let lights := nth i lgtSGs [] in
             let shadow := fun (channel : vec3 -> R) =>
               tdiv (tsum (imap (fun k sg =>
                                   tmul (light_vis i k)
                                        (Val (channel (origin_lgtSGMus_of sg))))
                                lights))
                    (Val (clamp_min (Rsum (map (fun sg => channel (origin_lgtSGMus_of sg))
                                               lights))
                                    1e-4)) in
             T3 (shadow vx) (shadow vy) (shadow vz))
          (seq 0 n_dots) in
    ret (Some light_vis, vis_shadow, supervise)
  else
    ret (None, vis_shadow, Val 0).

(** The SG diffuse term: per point, the sum over the light lobes of the
    cosine-lobe integrals, clamped to be non-negative. *)
Definition diffuse_rgb_sg (light_vis : option (nat -> nat -> tval)) : list tvec3 :=
  map (fun i =>
         let n := nth i normal zero3 in
         let albedo := nth i diffuse_albedo zero3 in
         let lights := nth i lgtSGs [] in
         let term := fun (channel : vec3 -> R) =>
           tclamp_min0
             (tsum (imap (fun k sg =>
                            diffuse_lobe_term n albedo channel sg
                              (match light_vis with
                               | Some lv => Some (lv i k)
                               | None => None
                               end))
                         lights)) in
         T3 (term vx) (term vy) (term vz))
      (seq 0 n_dots).

(** [if indir_integral is not None: ...]: the precomputed irradiance
    replaces the SG diffuse term. *)
Definition diffuse_rgb_override (indir_integral : option (list vec3))
                                (diffuse_rgb : list tvec3) : list tvec3 :=
  match indir_integral with
  | Some indir =>
      if lin_diff then map tvec3_of indir
      else
        zip_with (fun ii albedo =>
                    tvec3_of (V3 (vx ii * (vx albedo / PI))
                                 (vy ii * (vy albedo / PI))
                                 (vz ii * (vz albedo / PI))))
                 indir diffuse_albedo
  | None => diffuse_rgb
  end.

(** [render_with_sg(points, normal, viewdirs, lgtSGs,
    specular_reflectance, roughness, diffuse_albedo, comp_vis, VisModel,
    fun_spec, lin_diff, testing, indir_integral, metallic, diffuse_vis,
    prefit, argmax_vis)].  The four [rand_*] arguments are the draws of
    the diffuse sampler and of the direct call of [specular_rgb_fn]. *)
Definition render_with_sg
    (rand_d_theta rand_d_phi rand_s_theta rand_s_phi : nat -> nat -> R)
    (roughness : list R) (fun_spec : bool)
    (indir_integral : option (list vec3))
    (diffuse_vis : option (list (list R))) (prefit : prefit_mode)
  : M shading_output :=
  do vis_state <- light_visibility rand_d_theta rand_d_phi diffuse_vis prefit;
  let light_vis := fst (fst vis_state) in
  let vis_shadow := snd (fst vis_state) in
  let supervise := snd vis_state in
  let diffuse_rgb := diffuse_rgb_sg light_vis in
  let diffuse_rgb := diffuse_rgb_override indir_integral diffuse_rgb in
  run trap_if dbg (any_nan (flat_map tvec3_channels diffuse_rgb)) InDiffuseRgb;
  if fun_spec then
    ret (ShadingOutput diffuse_rgb (SpecularDeferred specular_rgb_fn) diffuse_rgb
                       vis_shadow supervise)
  else
    do specular_rgb <- specular_rgb_fn rand_s_theta rand_s_phi roughness;
    let rgb := zip_with (tvec3_map2 tadd) specular_rgb diffuse_rgb in
    ret (ShadingOutput rgb (SpecularValue specular_rgb) diffuse_rgb vis_shadow supervise).

End ShadingEngine.

(** ** Environment map codec *)

(** [torch.linspace(a, b, n)] *)
Definition linspace (a b : R) (n : nat) : list R :=
  match n with
  | 1%nat => [a]
  | _ => map (fun i => a + INR i * ((b - a) / INR (n - 1))) (seq 0 n)
  end.

(** The denominator of the lobe normalisation of [render_envmap_sg]:
    [torch.norm(lgtSGs[..., :3], dim=-1, keepdim=True)], without epsilon. *)
Definition render_envmap_sg_denom (sg : lgtSG) : R := norm (sg_axis sg).

(** One lobe of the SG basis sum, for one channel:
    [lgtSGMus * exp(lgtSGLambdas * (sum(viewdirs * lgtSGLobes) - 1))] *)
Definition envmap_lobe (channel : vec3 -> R) (viewdir : vec3) (sg : lgtSG) : R :=
  let lgtSGLobes := vdiv (sg_axis sg) (render_envmap_sg_denom sg) in
  let lgtSGLambdas := Rabs (sg_lambda sg) in
  let lgtSGMus := Rabs (channel (sg_mu sg)) in
  lgtSGMus * exp (lgtSGLambdas * (dot viewdir lgtSGLobes - 1)).

(** [render_envmap_sg(lgtSGs, viewdirs)] for one view direction *)
Definition render_envmap_sg (lgtSGs : list lgtSG) (viewdir : vec3) : vec3 :=
  V3 (Rsum (map (envmap_lobe vx viewdir) lgtSGs))
     (Rsum (map (envmap_lobe vy viewdir) lgtSGs))
     (Rsum (map (envmap_lobe vz viewdir) lgtSGs)).

(** The direction of the grid cell with polar angle [phi] and azimuth
    [theta]. *)
Definition grid_direction (phi theta : R) : vec3 :=
  V3 (cos theta * sin phi) (sin theta * sin phi) (cos phi).

(** [compute_envmap(lgtSGs, H, W, upper_hemi)], an [H x W] image *)
Definition compute_envmap (lgtSGs : list lgtSG) (H W : nat) (upper_hemi : bool)
  : list (list vec3) :=
  let phis := if upper_hemi then linspace 0 (PI / 2) H else linspace 0 PI H in
  let thetas := linspace (1 * PI) (-1 * PI) W in
  map (fun phi => map (fun theta => render_envmap_sg lgtSGs (grid_direction phi theta))
                      thetas)
      phis.

(** [torch.atan2(y, x)] on real arguments *)
Definition atan2 (y x : R) : R :=
  match total_order_T x 0 with
  | inleft (left _) =>                       (* x < 0 *)
      if Rle_dec 0 y then atan (y / x) + PI else atan (y / x) - PI
  | inleft (right _) =>                      (* x = 0 *)
      match total_order_T y 0 with
      | inleft (left _) => - (PI / 2)
      | inleft (right _) => 0
      | inright _ => PI / 2
      end
  | inright _ => atan (y / x)                (* x > 0 *)
  end.

(** A pixel of the image, zero outside of it ([padding_mode='zeros']). *)
Definition pixel (envmap : list (list vec3)) (iy ix : Z) : vec3 :=
  if ((0 <=? iy)%Z && (0 <=? ix)%Z)%bool
  then nth (Z.to_nat ix) (nth (Z.to_nat iy) envmap []) (V3 0 0 0)
  else V3 0 0 0.

(** [F.grid_sample(envmap, grid, align_corners=True)] at one grid point
    [(x, y)] of [[-1, 1]^2]: bilinear interpolation between the four
    neighbouring pixels. *)
Definition grid_sample (envmap : list (list vec3)) (x y : R) : vec3 :=
  let H := length envmap in
  let W := length (nth 0 envmap []) in
  let ix := (x + 1) / 2 * (INR W - 1) in
  let iy := (y + 1) / 2 * (INR H - 1) in
  let x0 := Int_part ix in
  let y0 := Int_part iy in
  let tx := ix - IZR x0 in
  let ty := iy - IZR y0 in
  vadd (vadd (vscale ((1 - tx) * (1 - ty)) (pixel envmap y0 x0))
             (vscale (tx * (1 - ty)) (pixel envmap y0 (x0 + 1))))
       (vadd (vscale ((1 - tx) * ty) (pixel envmap (y0 + 1) x0))
             (vscale (tx * ty) (pixel envmap (y0 + 1) (x0 + 1)))).

(** [render_envmap(envmap, viewdirs)] for one view direction *)
Definition render_envmap (envmap : list (list vec3)) (viewdir : vec3) : vec3 :=
  let phi := acos (vz viewdir) - TINY_NUMBER in
  let theta := atan2 (vy viewdir) (vx viewdir) in
  let query_y := (phi / PI) * 2 - 1 in
  let query_x := - theta / PI in
  grid_sample envmap query_x query_y.

(** ** Direct and indirect light: [render_with_all_sg] *)

(** The [lgtSGs] argument of [render_with_all_sg]: of rank 2 ([M, 7],
    one set of lobes for all points) or of rank 3 ([dots_shape, M, 7]). *)
Inductive lgtSGs_arg : Type :=
| LgtSGsShared (sgs : list lgtSG)
| LgtSGsPerPoint (sgs : list (list lgtSG)).

(** [if len(lgtSGs.shape) == 2:
       lgtSGs = lgtSGs.unsqueeze(0).expand(dots_shape + [M, 7])] *)
Definition expand_lgtSGs (dots_shape : nat) (lgtSGs : lgtSGs_arg) : list (list lgtSG) :=
  match lgtSGs with
  | LgtSGsShared sgs => repeat sgs dots_shape
  | LgtSGsPerPoint sgs => sgs
  end.

(** The dictionary returned by [render_with_all_sg]: the keys of the
    direct pass and the three keys added by [ret.update]. *)
Record all_sg_output : Type := AllSgOutput {
  direct : shading_output;
  indir_rgb : list tvec3;
  indir_diffuse_rgb : list tvec3;
  indir_specular_rgb : specular_output
}.

(** [torch.zeros_like(points)] *)
Definition zeros_like (points : list vec3) : list tvec3 :=
  repeat (T3 (Val 0) (Val 0) (Val 0)) (length points).

(** [render_with_all_sg(points, normal, viewdirs, lgtSGs,
    specular_reflectance, roughness, diffuse_albedo, indir_integral,
    indir_lgtSGs, VisModel, fun_spec, lin_diff, testing, metallic,
    diffuse_vis, prefit, argmax_vis)].  The direct pass is shaded with
    [comp_vis=True] and without [indir_integral]; the indirect pass, made
    only when [indir_lgtSGs] is given, with [comp_vis=False], the
    [indir_integral], no [diffuse_vis] and the default [prefit].
    [rand_d_*] and [rand_s_*] are the draws of the two samplers of the
    direct pass, [rand_i_*] those of the indirect pass, which calls the
    specular sampler only. *)
Definition render_with_all_sg
    (VisModel : vec3 -> vec3 -> score) (dbg : trap_site -> dbg_cmd)
    (kl_divergence : list (list tval) -> R -> tval)
    (points normal viewdirs : list vec3) (lgtSGs : lgtSGs_arg)
    (specular_reflectance : R) (roughness : list R) (diffuse_albedo : list vec3)
    (indir_integral : option (list vec3)) (indir_lgtSGs : option (list (list lgtSG)))
    (fun_spec lin_diff testing : bool) (metallic : option (list vec3))
    (diffuse_vis : option (list (list R))) (prefit : prefit_mode) (argmax_vis : bool)
    (rand_d_theta rand_d_phi rand_s_theta rand_s_phi rand_i_theta rand_i_phi
       : nat -> nat -> R)
  : M all_sg_output :=
  let dots_shape := length normal in
  let lgtSGs := expand_lgtSGs dots_shape lgtSGs in
  do ret_direct <-
    render_with_sg VisModel dbg kl_divergence points normal viewdirs lgtSGs
      specular_reflectance diffuse_albedo true lin_diff testing metallic argmax_vis
      rand_d_theta rand_d_phi rand_s_theta rand_s_phi roughness fun_spec None
      diffuse_vis prefit;
  do indir <-
    match indir_lgtSGs with
    | Some indir_lgtSGs =>
        do ret_indir <-
          render_with_sg VisModel dbg kl_divergence points normal viewdirs indir_lgtSGs
            specular_reflectance diffuse_albedo false lin_diff testing metallic argmax_vis
            rand_i_theta rand_i_phi rand_i_theta rand_i_phi roughness fun_spec
            indir_integral None PrefitOther;
        ret (sg_rgb ret_indir, sg_diffuse_rgb ret_indir, sg_specular_rgb ret_indir)
    | None =>
        ret (zeros_like points, zeros_like points, SpecularValue (zeros_like points))
    end;
  ret (AllSgOutput ret_direct (fst (fst indir)) (snd (fst indir)) (snd indir)).

(** ** The training script: training/train_pbr.py *)

(** [mse2psnr = lambda x: -10. * np.log(x + 1e-8) / np.log(10.)] *)
Definition mse2psnr (x : R) : R := -10 * ln (x + 1e-8) / ln 10.

(** [t.var(-1)] on the three channels: the unbiased sample variance. *)
Definition var3 (x : vec3) : R :=
  let mean := (vx x + vy x + vz x) / 3 in
  ((vx x - mean) * (vx x - mean) + (vy x - mean) * (vy x - mean) +
   (vz x - mean) * (vz x - mean)) / (3 - 1).

(** [t.mean()] over all entries; the mean of an empty tensor is NaN. *)
Definition tmean (t : list R) : tval :=
  match t with
  | [] => NaN
  | _ => Val (Rsum t / INR (length t))
  end.

(** [PBRTrainRunner.white_loss(lgtSGs)]:
    [lgt = abs(lgtSGs[..., -3:]); mu = lgt.norm(dim=-1, keepdim=True) + 1e-4;
     return (lgt / mu).var(-1).mean() * 0.01] *)
Definition white_loss (lgtSGs : list lgtSG) : tval :=
  let per_lobe :=
    map (fun sg =>
           let lgt := origin_lgtSGMus_of sg in
           let mu := norm lgt + 1e-4 in
           var3 (vdiv lgt mu))
        lgtSGs in
  tmul (tmean per_lobe) (Val 0.01).

(** What [self.model.envmap_material_network(points, train_spec=...)]
    returns, as far as [get_sg_render] reads it; the three
    [random_xi_*] entries are passed on unread. *)
Record sg_envmap_material (Xi : Type) : Type := SgEnvmapMaterial {
  sg_lgtSGs : lgtSGs_arg;
  sg_specular_reflectance : R;
  sg_diffuse_albedo : list vec3;
  sg_roughness : list R;
  sg_metallic : list vec3;
  sg_normal_map : list vec3;
  random_xi_roughness : Xi;
  random_xi_metallic : Xi;
  random_xi_diffuse_albedo : Xi
}.
Arguments SgEnvmapMaterial {Xi}.
Arguments sg_lgtSGs {Xi}.
Arguments sg_specular_reflectance {Xi}.
Arguments sg_diffuse_albedo {Xi}.
Arguments sg_roughness {Xi}.
Arguments sg_metallic {Xi}.
Arguments sg_normal_map {Xi}.
Arguments random_xi_roughness {Xi}.
Arguments random_xi_metallic {Xi}.
Arguments random_xi_diffuse_albedo {Xi}.

(** The dictionary returned by [get_sg_render]. *)
Record sg_render_output (Xi : Type) : Type := SgRenderOutput {
  out_normals : list vec3;
  out_sg : all_sg_output;
  out_diffuse_albedo : list vec3;
  out_roughness : list R;
  out_metallic : list vec3;
  out_normal_map : list vec3;
  out_random_xi_roughness : Xi;
  out_random_xi_metallic : Xi;
  out_random_xi_diffuse_albedo : Xi
}.
Arguments SgRenderOutput {Xi}.
Arguments out_normals {Xi}.
Arguments out_sg {Xi}.
Arguments out_diffuse_albedo {Xi}.
Arguments out_roughness {Xi}.
Arguments out_metallic {Xi}.
Arguments out_normal_map {Xi}.
Arguments out_random_xi_roughness {Xi}.
Arguments out_random_xi_metallic {Xi}.
Arguments out_random_xi_diffuse_albedo {Xi}.

(** How a call of [get_sg_render] ends before or after it reaches the
    renderer. *)
Inductive py_result (A : Type) : Type :=
| AssertionError                 (* assert train_spec == self.train_spec *)
| TypeError                      (* None * 2 *)
| Ran (m : M A).
Arguments AssertionError {A}.
Arguments TypeError {A}.
Arguments Ran {A} m.

(** [view_dirs / (torch.norm(view_dirs, dim=-1, keepdim=True) + 1e-6)] *)
Definition normalize_view_dirs (view_dirs : list vec3) : list vec3 :=
  map (fun v => vdiv v (norm v + 1e-6)) view_dirs.

(** [normals / torch.clamp(torch.norm(normals, dim=-1, keepdim=True), 1e-4)] *)
Definition normalize_normals (normals : list vec3) : list vec3 :=
  map (fun n => vdiv n (clamp_min (norm n) 1e-4)) normals.

(** [indir_integral * 2 * np.pi] *)
Definition scale_indir_integral (indir_integral : list vec3) : list vec3 :=
  map (fun ii => V3 (vx ii * 2 * PI) (vy ii * 2 * PI) (vz ii * 2 * PI)) indir_integral.

Section GetSgRender.

(** The type of the [random_xi_*] entries. *)
Variable Xi : Type.

(** [self.model.get_idr_render(points, view_dirs, normal_only=True)] and
    [self.model.envmap_material_network(points, train_spec=train_spec)] *)
Variable get_idr_render : list vec3 -> list vec3 -> list vec3.
Variable envmap_material_network : list vec3 -> bool -> sg_envmap_material Xi.

(** [self.model.visibility_network], the operator at the breakpoints of
    the renderer, and [utils.utils.kl_divergence] *)
Variable VisModel : vec3 -> vec3 -> score.
Variable dbg : trap_site -> dbg_cmd.
Variable kl_divergence : list (list tval) -> R -> tval.

(** [self.train_spec], [self.is_training] and [self.no_normal] *)
Variable self_train_spec self_is_training self_no_normal : bool.

(** [PBRTrainRunner.get_sg_render(points, view_dirs, indir_lgtSGs,
    albedo_ratio, fun_spec, lin_diff, train_spec, indir_integral)].
    The arguments [albedo_ratio], [fun_spec] and [lin_diff] are not read:
    the renderer is always called with [fun_spec=False],
    [lin_diff=False] and [metallic=None].  [torch.cat] of the two halves
    of [indir_lgtSGs] gives back [indir_lgtSGs]. *)
Definition get_sg_render (points view_dirs : list vec3)
    (indir_lgtSGs : list (list lgtSG)) (fun_spec lin_diff train_spec : bool)
    (indir_integral : option (list vec3))
    (rand_d_theta rand_d_phi rand_s_theta rand_s_phi rand_i_theta rand_i_phi
       : nat -> nat -> R)
  : py_result (sg_render_output Xi) :=
  let view_dirs := normalize_view_dirs view_dirs in
  let normals := get_idr_render points view_dirs in
  let normals := normalize_normals normals in
  if negb (Bool.eqb train_spec self_train_spec) then AssertionError
  else
    let sg_envmap_material := envmap_material_network points train_spec in
    let lgtSGs := sg_lgtSGs sg_envmap_material in
    match indir_integral with
    | None => TypeError
    | Some indir_integral =>
        let indir_integral := scale_indir_integral indir_integral in
        let diffuse_albedo := sg_diffuse_albedo sg_envmap_material in
        let roughness := sg_roughness sg_envmap_material in
        let metallic := sg_metallic sg_envmap_material in
        let normal_map := sg_normal_map sg_envmap_material in
        Ran (do sg_ret <-
               render_with_all_sg VisModel dbg kl_divergence points
                 (if self_no_normal then normals else normal_map)
                 view_dirs lgtSGs
                 (Rabs (sg_specular_reflectance sg_envmap_material))
                 roughness diffuse_albedo (Some indir_integral) (Some indir_lgtSGs)
                 false false (negb self_is_training) None None PrefitOther false
                 rand_d_theta rand_d_phi rand_s_theta rand_s_phi rand_i_theta rand_i_phi;
             ret (SgRenderOutput normals sg_ret diffuse_albedo roughness metallic normal_map
                    (random_xi_roughness sg_envmap_material)
                    (random_xi_metallic sg_envmap_material)
                    (random_xi_diffuse_albedo sg_envmap_material)))
    end.

End GetSgRender.

(** ** Predicates used in the statements *)

Definition in_unit_interval (v : tval) : Prop :=
  match v with
  | Val x => 0 <= x <= 1
  | NaN => False
  end.

Definition is_binary (v : tval) : Prop := v = Val 0 \/ v = Val 1.

(** A score pair without NaN. *)
Definition numeric_score (s : score) : Prop :=
  isnan (fst s) = false /\ isnan (snd s) = false.




(** The smallest sharpness for which the statements about
    [hemisphere_int] are made.  In float32 [exp(-t)] rounds to 1 for a
    sharpness below about 1e-5, which makes both branches of the mixing
    factor 0/0, and up to a few 1e-4 the cancellation in
    [1 - exp(-lambda)] puts [A_b] above [A_u]; from 1e-2 on the float32
    computation follows the exact one up to rounding. *)
Definition lambda_floor : R := 1e-2.




(** The sum of the amplitudes of the lobes, per channel: the largest
    value of the SG basis sum. *)
Definition amplitude_sum (lgtSGs : list lgtSG) : vec3 :=
  V3 (Rsum (map (fun sg => Rabs (vx (sg_mu sg))) lgtSGs))
     (Rsum (map (fun sg => Rabs (vy (sg_mu sg))) lgtSGs))
     (Rsum (map (fun sg => Rabs (vz (sg_mu sg))) lgtSGs)).

(** Componentwise [0 <= p <= b]. *)
Definition vec3_between (p b : vec3) : Prop :=
  0 <= vx p <= vx b /\ 0 <= vy p <= vy b /\ 0 <= vz p <= vz b.

(** The polar angle of row [i] and the azimuth of column [j] of the grid
    of [compute_envmap] over the full sphere. *)
Definition grid_phi (H i : nat) : R := nth i (linspace 0 PI H) 0.
Definition grid_theta (W j : nat) : R := nth j (linspace (1 * PI) (-1 * PI) W) 0.

(** ** Example inputs *)

(** A predictor that reports every row as visible, one that returns NaN
    scores, an operator who always resumes, and sample draws that are all
    zero (every sample lies on the lobe axis). *)
Definition ex_VisModel : vec3 -> vec3 -> score := fun _ _ => (Val 0, Val 1).
Definition ex_VisModel_nan : vec3 -> vec3 -> score := fun _ _ => (NaN, NaN).
Definition ex_dbg : trap_site -> dbg_cmd := fun _ => DbgContinue.
Definition ex_rand : nat -> nat -> R := fun _ _ => 0.
Definition ex_kl_divergence : list (list tval) -> R -> tval := fun _ _ => Val 0.

(** One surface point at the origin facing up, seen from above, lit by one
    lobe along the normal. *)
Definition ex_lgtSGs : list (list lgtSG) := [[LgtSG z_axis 10 (V3 1 1 1)]].
Definition ex_albedo : list vec3 := [V3 (1 / 2) (1 / 2) (1 / 2)].

(** ** Further definitions used in the statements *)


(** The light SG [sg] written with another parametrisation: its axis
    stretched by [s], its sharpness and its amplitudes negated. *)
Definition reparametrised_sg (s : R) (sg : lgtSG) : lgtSG :=
  LgtSG (vscale s (sg_axis sg)) (- sg_lambda sg) (vneg (sg_mu sg)).

(** The polar angle of row [i] of the grid of [compute_envmap] over the
    upper hemisphere. *)
Definition grid_phi_upper (H i : nat) : R := nth i (linspace 0 (PI / 2) H) 0.

(** The number of rows of every predictor call of a trace, in call order. *)
Fixpoint query_sizes (tr : list event) : list nat :=
  match tr with
  | [] => []
  | EvQuery rows :: tr' => length rows :: query_sizes tr'
  | EvBreakpoint _ :: tr' => query_sizes tr'
  end.

(** A three-channel value with every channel in [[0, 1]]. *)
Definition tvec3_in_unit (c : tvec3) : Prop :=
  in_unit_interval (tr c) /\ in_unit_interval (tg c) /\ in_unit_interval (tb c).

(** A supplied [diffuse_vis] with one row per point and one entry per
    light lobe, the shape that [reshape(-1, M, 1)] and [expand] of
    [render_with_sg] take over as it is. *)
Definition diffuse_vis_shape (lgtSGs : list (list lgtSG)) (dv : list (list R)) : Prop :=
  Forall2 (fun row lights => length row = length lights) dv lgtSGs.

(** A light SG whose three amplitudes agree in absolute value. *)
Definition grey_lobe (sg : lgtSG) : Prop :=
  Rabs (vx (sg_mu sg)) = Rabs (vy (sg_mu sg)) /\
  Rabs (vy (sg_mu sg)) = Rabs (vz (sg_mu sg)).

(** * Properties *)

Lemma TINY_NUMBER_pos : 0 < TINY_NUMBER.
Proof. unfold TINY_NUMBER; lra. Qed.

Lemma TINY_NUMBER_val : TINY_NUMBER = 1 / 1000000.
Proof. unfold TINY_NUMBER; lra. Qed.

Lemma dot_self_nonneg (a : vec3) : 0 <= dot a a.
Proof. unfold dot; nra. Qed.

Lemma norm_nonneg (a : vec3) : 0 <= norm a.
Proof. apply sqrt_pos. Qed.


(** *** The fitted parameter [t] is positive on positive sharpness *)

Lemma hemi_t_pos (l : R) : 0 < l -> 0 < hemi_t l.
Proof.
  intros Hl. unfold hemi_t.
  assert (Hi : 0 < 1 / l) by (apply Rdiv_lt_0_compat; lra).
  set (i := 1 / l) in *.
  apply Rdiv_lt_0_compat.
  - apply Rmult_lt_0_compat; [apply sqrt_lt_R0; exact Hl | lra].
  - nra.
Qed.

Lemma exp_neg_lt_1 (x : R) : 0 < x -> 0 < exp (- x) < 1.
Proof.
  intros Hx; split; [apply exp_pos|].
  rewrite <- exp_0. apply exp_increasing; lra.
Qed.

Lemma exp_nonpos_le_1 (x : R) : x <= 0 -> 0 < exp x <= 1.
Proof.
  intros Hx; split; [apply exp_pos|].
  rewrite <- exp_0.
  destruct (Rle_lt_or_eq_dec _ _ Hx) as [H|H].
  - left; apply exp_increasing; exact H.
  - subst; right; reflexivity.
Qed.

Lemma exp_le_mono (x y : R) : x <= y -> exp x <= exp y.
Proof.
  intros [H|H]; [left; apply exp_increasing; exact H | subst; right; reflexivity].
Qed.

(** *** The mixing factor *)

Lemma hemi_s_nonneg_branch (a b : R) :
  0 < a < 1 -> a <= b <= 1 ->
  0 <= (1 - a * b) / (1 - a + b - a * b) <= 1.
Proof.
  intros Ha Hb.
  assert (Hd : 0 < 1 - a + b - a * b) by nra.
  split.
  - apply Rmult_le_pos; [nra | left; apply Rinv_0_lt_compat; exact Hd].
  - apply (Rmult_le_reg_r (1 - a + b - a * b)); [exact Hd|].
    unfold Rdiv. rewrite Rmult_assoc, Rinv_l by lra. lra.
Qed.

Lemma hemi_s_neg_branch (a b : R) :
  0 < a < 1 -> a <= b <= 1 ->
  0 <= (b - a) / ((1 - a) * (b + 1)) <= 1.
Proof.
  intros Ha Hb.
  assert (Hd : 0 < (1 - a) * (b + 1)) by nra.
  split.
  - apply Rmult_le_pos; [lra | left; apply Rinv_0_lt_compat; exact Hd].
  - apply (Rmult_le_reg_r ((1 - a) * (b + 1))); [exact Hd|].
    unfold Rdiv. rewrite Rmult_assoc, Rinv_l by lra. nra.
Qed.

Lemma hemi_s_bounds (l c : R) :
  0 <= l -> -1 <= c <= 1 -> 0 <= hemi_s l c <= 1.
Proof.
  intros Hl Hc. unfold hemi_s.
  pose proof TINY_NUMBER_pos as He.
  pose proof (hemi_t_pos (l + TINY_NUMBER) ltac:(lra)) as Ht.
  set (t := hemi_t (l + TINY_NUMBER)) in *.
  pose proof (exp_neg_lt_1 t Ht) as Ha.
  unfold hemi_mask, clamp_min, clamp_max.
  destruct (Rle_dec 0 c) as [Hpos|Hneg].
  - rewrite Rmax_left by lra.
    assert (Hb : exp (- t) <= exp (- t * c) <= 1).
    { split; [apply exp_le_mono; nra | apply exp_nonpos_le_1; nra]. }
    pose proof (hemi_s_nonneg_branch _ _ Ha Hb). lra.
  - rewrite Rmin_left by lra.
    assert (Hb : exp (- t) <= exp (t * c) <= 1).
    { split; [apply exp_le_mono; nra | apply exp_nonpos_le_1; nra]. }
    pose proof (hemi_s_neg_branch _ _ Ha Hb). lra.
Qed.

Lemma hemi_A_b_le_A_u (l : R) : 0 < l -> hemi_A_b l <= hemi_A_u l.
Proof.
  intros Hl. unfold hemi_A_b, hemi_A_u.
  apply Rmult_le_compat_l.
  - apply Rmult_le_pos; [pose proof PI_RGT_0; lra | left; apply Rinv_0_lt_compat; exact Hl].
  - replace (- 2 * l) with (- l + - l) by lra. rewrite exp_plus.
    pose proof (exp_neg_lt_1 l Hl). nra.
Qed.

(** *** Boundary values of the hemisphere integral *)

Lemma hemi_s_at_one (l : R) : 0 <= l -> hemi_s l 1 = 1.
Proof.
  intros Hl. unfold hemi_s, hemi_mask, clamp_min, clamp_max.
  pose proof TINY_NUMBER_pos as He.
  pose proof (hemi_t_pos (l + TINY_NUMBER) ltac:(lra)) as Ht.
  set (t := hemi_t (l + TINY_NUMBER)) in *.
  destruct (Rle_dec 0 1) as [_|H]; [|lra].
  rewrite Rmax_left by lra.
  replace (- t * 1) with (- t) by ring.
  pose proof (exp_neg_lt_1 t Ht) as Ha.
  set (a := exp (- t)) in *.
  replace (1 - a + a - a * a) with (1 - a * a) by ring.
  unfold Rdiv at 1. rewrite Rinv_r by nra. ring.
Qed.

Lemma hemi_s_at_minus_one (l : R) : hemi_s l (-1) = 0.
Proof.
  unfold hemi_s, hemi_mask, clamp_min, clamp_max.
  set (t := hemi_t (l + TINY_NUMBER)).
  destruct (Rle_dec 0 (-1)) as [H|_]; [lra|].
  rewrite Rmin_left by lra.
  replace (t * -1) with (- t) by ring.
  unfold Rdiv. ring.
Qed.

Lemma one_minus_exp_neg_le (x : R) : 1 - exp (- x) <= x.
Proof. pose proof (exp_ineq1_le (- x)); lra. Qed.

Lemma one_minus_exp_neg_ge (y : R) : 0 <= y -> y / (1 + y) <= 1 - exp (- y).
Proof.
  intros Hy.
  pose proof (exp_ineq1_le y) as H1.
  pose proof (exp_pos y) as H2.
  assert (H3 : exp (- y) <= / (1 + y)).
  { rewrite exp_Ropp. apply Rinv_le_contravar; lra. }
  assert (H4 : y / (1 + y) = 1 - / (1 + y)) by (field; lra).
  lra.
Qed.

Lemma PI_gt_3 : 3 < PI.
Proof. pose proof PI2_3_2; lra. Qed.

Lemma hemi_A_u_le_2PI (l : R) : 0 < l -> hemi_A_u l <= 2 * PI.
Proof.
  intros Hl. unfold hemi_A_u.
  pose proof (one_minus_exp_neg_le l) as H.
  pose proof PI_RGT_0 as Hp.
  assert (Hq : 0 < 2 * PI / l) by (apply Rdiv_lt_0_compat; lra).
  replace (2 * PI) with (2 * PI / l * l) at 2 by (field; lra).
  apply Rmult_le_compat_l; lra.
Qed.

Lemma hemi_A_b_bounds (l : R) : 0 < l -> 0 < hemi_A_b l < 2 * PI / l.
Proof.
  intros Hl. unfold hemi_A_b.
  pose proof PI_RGT_0 as Hp.
  assert (Hq : 0 < 2 * PI / l) by (apply Rdiv_lt_0_compat; lra).
  assert (He : 0 < exp (- l) - exp (- 2 * l) < 1).
  { pose proof (exp_neg_lt_1 l Hl).
    pose proof (exp_increasing (- 2 * l) (- l) ltac:(lra)).
    pose proof (exp_pos (- 2 * l)). lra. }
  split; nra.
Qed.

(** C1 (as the code has it).  For every sharpness [lambda >= 0.01]
    (below, the float32 evaluation of the mixing factor degenerates, see
    [lambda_floor]):
    at [cos beta = 1] the mixing factor is 1 and the hemisphere integral
    equals the above-horizon term [A_u = 2 pi / l (1 - exp (- l))] at the
    shifted sharpness [l = lambda + 1e-6], the integral over one hemisphere
    and not the full-sphere integral;
    at [cos beta = -1] the mixing factor is 0, the result is the
    below-horizon term [A_b], it is positive, and it is below any given
    [eps > 0] as soon as [lambda > 2 pi / eps], so it tends to 0 as
    [lambda] grows. *)
Theorem hemisphere_int_boundary (lambda_val eps : R) :
  lambda_floor <= lambda_val -> 0 < eps ->
  hemisphere_int lambda_val 1 = hemi_A_u (lambda_val + TINY_NUMBER) /\
  hemisphere_int lambda_val (-1) = hemi_A_b (lambda_val + TINY_NUMBER) /\
  0 < hemisphere_int lambda_val (-1) /\
  (2 * PI / eps < lambda_val -> hemisphere_int lambda_val (-1) < eps).
Proof.
  intros Hl Heps. unfold lambda_floor in Hl.
  pose proof TINY_NUMBER_pos as He.
  assert (H1 : hemisphere_int lambda_val 1 = hemi_A_u (lambda_val + TINY_NUMBER)).
  { unfold hemisphere_int. rewrite hemi_s_at_one by lra. ring. }
  assert (Hm : hemisphere_int lambda_val (-1) = hemi_A_b (lambda_val + TINY_NUMBER)).
  { unfold hemisphere_int. rewrite hemi_s_at_minus_one. ring. }
  pose proof (hemi_A_b_bounds (lambda_val + TINY_NUMBER) ltac:(lra)) as [Hb0 Hb1].
  repeat split; [exact H1 | exact Hm | lra |].
  intros Hbig. rewrite Hm.
  pose proof PI_RGT_0 as Hp.
  apply Rlt_trans with (1 := Hb1).
  apply (Rmult_lt_reg_r (lambda_val + TINY_NUMBER)); [lra|].
  unfold Rdiv at 1. rewrite Rmult_assoc, Rinv_l by lra.
  assert (Hx : 2 * PI < eps * lambda_val).
  { apply (Rmult_lt_reg_r (/ eps)); [apply Rinv_0_lt_compat; lra|].
    replace (eps * lambda_val * / eps) with lambda_val by (field; lra).
    exact Hbig. }
  nra.
Qed.

Lemma hemisphere_int_boundary_witness :
  hemisphere_int 1 1 = hemi_A_u (1 + TINY_NUMBER) /\
  hemisphere_int 1 (-1) = hemi_A_b (1 + TINY_NUMBER) /\
  0 < hemisphere_int 1 (-1) /\
  (2 * PI / 1 < 1 -> hemisphere_int 1 (-1) < 1).
Proof. apply (hemisphere_int_boundary 1 1); unfold lambda_floor; lra. Defined.

(** C1 fails as stated: at sharpness 1/4 the hemisphere integral at
    [cos beta = 1] is more than 2 below the full-sphere integral
    [2 pi / lambda (1 - exp (- 2 lambda))]. *)
Lemma hemisphere_int_not_full_sphere :
  2 < full_sphere_sg_integral (1 / 4) - hemisphere_int (1 / 4) 1.
Proof.
  pose proof TINY_NUMBER_pos as He.
  pose proof PI_gt_3 as Hp.
  assert (H1 : hemisphere_int (1 / 4) 1 <= 2 * PI).
  { unfold hemisphere_int. rewrite hemi_s_at_one by lra.
    pose proof (hemi_A_u_le_2PI (1 / 4 + TINY_NUMBER) ltac:(lra)). lra. }
  assert (H2 : 8 * PI / 3 <= full_sphere_sg_integral (1 / 4)).
  { unfold full_sphere_sg_integral.
    pose proof (one_minus_exp_neg_ge (1 / 2) ltac:(lra)) as H.
    replace (- 2 * (1 / 4)) with (- (1 / 2)) by lra.
    replace (2 * PI / (1 / 4)) with (8 * PI) by lra.
    replace (1 / 2 / (1 + 1 / 2)) with (1 / 3) in H by lra.
    nra. }
  lra.
Qed.

(** *** The lambda trick on two equal lobes *)

Lemma norm_axis_unit (x : vec3) :
  norm x = 1 -> norm_axis x = vdiv x (1 + TINY_NUMBER).
Proof. intros H. unfold norm_axis, norm_axis_denom. rewrite H. reflexivity. Qed.

Lemma dot_norm_axis_unit (x : vec3) :
  norm x = 1 ->
  dot (norm_axis x) (norm_axis x) = 1 / ((1 + TINY_NUMBER) * (1 + TINY_NUMBER)).
Proof.
  intros H. rewrite (norm_axis_unit x H).
  assert (Hd : dot x x = 1).
  { unfold norm in H. rewrite <- (sqrt_sqrt (dot x x)) by apply dot_self_nonneg.
    rewrite H. ring. }
  pose proof TINY_NUMBER_pos as He.
  unfold dot, vdiv in *. simpl in *.
  transitivity ((vx x * vx x + vy x * vy x + vz x * vz x) /
                ((1 + TINY_NUMBER) * (1 + TINY_NUMBER))).
  - field. lra.
  - rewrite Hd. reflexivity.
Qed.

Lemma lambda_trick_equal_tmp_bounds :
  2 - 2 * TINY_NUMBER < lambda_trick_equal_tmp < 2.
Proof.
  unfold lambda_trick_equal_tmp.
  pose proof TINY_NUMBER_pos as He.
  pose proof TINY_NUMBER_val as Hv.
  set (e := TINY_NUMBER) in *.
  set (d := 2 / ((1 + e) * (1 + e))).
  assert (Hd : 2 - 4 * e < d < 2).
  { unfold d. split.
    - apply (Rmult_lt_reg_r ((1 + e) * (1 + e))); [nra|].
      unfold Rdiv. rewrite Rmult_assoc, Rinv_l by nra. nra.
    - apply (Rmult_lt_reg_r ((1 + e) * (1 + e))); [nra|].
      unfold Rdiv. rewrite Rmult_assoc, Rinv_l by nra. nra. }
  split.
  - rewrite <- (sqrt_square (2 - 2 * e)) by lra.
    apply sqrt_lt_1_alt. nra.
  - apply Rlt_le_trans with (sqrt (2 * 2)).
    + apply sqrt_lt_1_alt. lra.
    + rewrite sqrt_square; lra.
Qed.

Lemma lambda_trick_tmp_equal (lobe : vec3) (l : R) :
  norm lobe = 1 -> l <> 0 ->
  lambda_trick_tmp lobe l lobe l = lambda_trick_equal_tmp.
Proof.
  intros Hn Hl. unfold lambda_trick_tmp.
  rewrite (dot_norm_axis_unit lobe Hn).
  replace (l / l) with 1 by (field; exact Hl).
  replace (1 * 1 + 1 + 2 * 1 * (1 / ((1 + TINY_NUMBER) * (1 + TINY_NUMBER))))
    with (2 + 2 / ((1 + TINY_NUMBER) * (1 + TINY_NUMBER))) by (unfold Rdiv; ring).
  fold lambda_trick_equal_tmp.
  pose proof lambda_trick_equal_tmp_bounds.
  apply Rmin_left. lra.
Qed.

Lemma norm_e3 : norm (V3 0 0 1) = 1.
Proof.
  unfold norm, dot; simpl.
  replace (0 * 0 + 0 * 0 + 1 * 1) with 1 by ring. apply sqrt_1.
Qed.

Lemma lambda_trick_equal_lobes_eq (lobe : vec3) (lambda1 mu1 mu2 : R) :
  norm lobe = 1 -> 0 < lambda1 ->
  let t := lambda_trick_equal_tmp in
  snd (fst (lambda_trick lobe lambda1 mu1 lobe lambda1 mu2)) = lambda1 * t /\
  snd (lambda_trick lobe lambda1 mu1 lobe lambda1 mu2) =
    mu1 * mu2 * exp (lambda1 * (t - 2)).
Proof.
  intros Hn Hl t. unfold lambda_trick. simpl.
  unfold lambda_trick_lambdas, lambda_trick_mus.
  rewrite (lambda_trick_tmp_equal lobe lambda1 Hn) by lra.
  fold t.
  replace (lambda1 / lambda1) with 1 by (field; lra).
  replace (t - 1 - 1) with (t - 2) by ring.
  split; reflexivity.
Qed.

(** C2 (as the code has it).  For two SGs with the same unit lobe axis and
    the same sharpness [lambda > 0], the lambda trick returns
    [lambda3 = lambda * t] and [mu3 = mu1 * mu2 * exp (lambda * (t - 2))]
    with [t = sqrt (2 + 2 / (1 + 1e-6)^2)], where [2 - 2e-6 < t < 2]: the
    epsilon in [norm_axis] keeps [t] strictly below 2, so [lambda3] is
    strictly below [2 lambda] (and above [(2 - 2e-6) lambda]) and the
    exponential factor is strictly below 1. *)
Theorem lambda_trick_equal_lobes (lobe : vec3) (lambda1 mu1 mu2 : R) :
  norm lobe = 1 -> 0 < lambda1 ->
  let t := lambda_trick_equal_tmp in
  let lambda3 := snd (fst (lambda_trick lobe lambda1 mu1 lobe lambda1 mu2)) in
  let mu3 := snd (lambda_trick lobe lambda1 mu1 lobe lambda1 mu2) in
  lambda3 = lambda1 * t /\
  mu3 = mu1 * mu2 * exp (lambda1 * (t - 2)) /\
  2 - 2 * TINY_NUMBER < t < 2 /\
  (2 - 2 * TINY_NUMBER) * lambda1 < lambda3 < 2 * lambda1 /\
  exp (lambda1 * (t - 2)) < 1.
Proof.
  intros Hn Hl t lambda3 mu3.
  destruct (lambda_trick_equal_lobes_eq lobe lambda1 mu1 mu2 Hn Hl) as [H3 Hm].
  fold t lambda3 in H3. fold t mu3 in Hm.
  pose proof lambda_trick_equal_tmp_bounds as Ht. fold t in Ht.
  assert (He : exp (lambda1 * (t - 2)) < 1).
  { rewrite <- exp_0. apply exp_increasing. nra. }
  rewrite H3.
  split; [reflexivity|]. split; [exact Hm|]. split; [exact Ht|].
  split; [split; nra | exact He].
Qed.

Lemma lambda_trick_equal_lobes_witness :
  let t := lambda_trick_equal_tmp in
  let lambda3 := snd (fst (lambda_trick (V3 0 0 1) 1 1 (V3 0 0 1) 1 1)) in
  let mu3 := snd (lambda_trick (V3 0 0 1) 1 1 (V3 0 0 1) 1 1) in
  lambda3 = 1 * t /\
  mu3 = 1 * 1 * exp (1 * (t - 2)) /\
  2 - 2 * TINY_NUMBER < t < 2 /\
  (2 - 2 * TINY_NUMBER) * 1 < lambda3 < 2 * 1 /\
  exp (1 * (t - 2)) < 1.
Proof.
  apply (lambda_trick_equal_lobes (V3 0 0 1) 1 1 1); [exact norm_e3 | lra].
Defined.

(** C2 fails as stated: for the unit lobe (0,0,1) with sharpness 1 and
    amplitude 1 on both sides, the lambda trick returns neither
    [lambda3 = 2] nor [mu3 = 1]. *)
Lemma lambda_trick_equal_lobes_not_exact :
  snd (fst (lambda_trick (V3 0 0 1) 1 1 (V3 0 0 1) 1 1)) <> 2 * 1 /\
  snd (lambda_trick (V3 0 0 1) 1 1 (V3 0 0 1) 1 1) <> 1 * 1.
Proof.
  destruct (lambda_trick_equal_lobes_eq (V3 0 0 1) 1 1 1 norm_e3 ltac:(lra))
    as [H3 Hm].
  pose proof lambda_trick_equal_tmp_bounds as Ht.
  rewrite H3, Hm. split.
  - lra.
  - assert (exp (1 * (lambda_trick_equal_tmp - 2)) < 1).
    { apply Rlt_le_trans with (exp 0); [apply exp_increasing; lra|].
      rewrite exp_0; lra. }
    lra.
Qed.

(** *** Index tensors that are ranges *)

Lemma index_select_seq {A : Type} (d : A) (t : list A) (start k : nat) :
  (start + k <= length t)%nat ->
  index_select d t (seq start k) = take k (drop start t).
Proof.
  revert start t. induction k as [|k IH]; intros start t Hlen.
  - reflexivity.
  - unfold index_select in *. simpl.
    destruct (drop start t) as [|x rest] eqn:Hd.
    + apply (f_equal length) in Hd. rewrite length_drop in Hd. simpl in Hd. lia.
    + simpl. f_equal.
      * rewrite nth_lookup.
        assert (Hx : t !! start = Some x).
        { rewrite <- (Nat.add_0_r start), <- lookup_drop, Hd. reflexivity. }
        rewrite Hx. reflexivity.
      * rewrite IH by lia. f_equal.
        replace (S start) with (start + 1)%nat by lia.
        rewrite <- (drop_drop t 1 start), Hd. reflexivity.
Qed.

Lemma index_put_seq {A : Type} (t vals : list A) (start : nat) :
  (start + length vals <= length t)%nat ->
  index_put t (seq start (length vals)) vals =
  take start t ++ vals ++ drop (start + length vals) t.
Proof.
  revert start t. induction vals as [|v vals IH]; intros start t Hlen.
  - simpl. rewrite Nat.add_0_r, take_drop. reflexivity.
  - simpl in Hlen. unfold index_put in *. simpl.
    rewrite IH by (rewrite length_insert; lia).
    rewrite take_insert_lt by lia.
    rewrite drop_insert_lt by lia.
    assert (Hs : (start < length t)%nat) by lia.
    rewrite (take_S_r t start (nth start t v)).
    2:{ destruct (nth_lookup_or_length t start v) as [H|H]; [exact H | lia]. }
    rewrite insert_app_r_alt by (rewrite length_take; lia).
    rewrite length_take, Nat.min_l by lia.
    replace (start - start)%nat with 0%nat by lia. simpl.
    rewrite <- app_assoc. simpl.
    replace (S (start + length vals)) with (start + S (length vals))%nat by lia.
    reflexivity.
Qed.

(** *** The chunks of [torch.split] tile the range *)

Lemma arange_chunks_concat (steps start remaining batch_size : nat) :
  (0 < batch_size)%nat -> (remaining <= steps)%nat ->
  concat (arange_chunks steps start remaining batch_size) = seq start remaining.
Proof.
  intros Hb. revert start remaining.
  induction steps as [|steps IH]; intros start remaining Hr.
  - assert (remaining = 0)%nat by lia. subst. reflexivity.
  - destruct remaining as [|r]; [reflexivity|].
    cbn [arange_chunks concat].
    set (k := Nat.min batch_size (S r)).
    assert (Hk : (0 < k <= S r)%nat) by (unfold k; lia).
    rewrite IH by lia.
    replace (S r) with (k + (S r - k))%nat at 2 by lia.
    rewrite seq_app. reflexivity.
Qed.

(** *** The trace monad *)

Lemma bind_Returned {A B : Type} (tr : list event) (a : A) (k : A -> M B) :
  bind (tr, Returned a) k = (tr ++ trace_of (k a), result_of (k a)).
Proof. unfold bind, trace_of, result_of. destruct (k a); reflexivity. Qed.

Lemma queried_rows_app (t1 t2 : list event) :
  queried_rows (t1 ++ t2) = queried_rows t1 ++ queried_rows t2.
Proof.
  induction t1 as [|[rows|s] t1 IH]; simpl; [reflexivity | | exact IH].
  rewrite IH, app_assoc. reflexivity.
Qed.

Lemma breakpoints_app (t1 t2 : list event) :
  breakpoints (t1 ++ t2) = breakpoints t1 ++ breakpoints t2.
Proof.
  induction t1 as [|[rows|s] t1 IH]; simpl; [reflexivity | exact IH |].
  rewrite IH. reflexivity.
Qed.

(** *** The batch-forward loop computes the predictor row by row *)

Section BatchForward.

Variable VisModel : vec3 -> vec3 -> score.

Let predict (pd : vec3 * vec3) : score := VisModel (fst pd) (snd pd).

Let body (rows : list (vec3 * vec3)) (pred_vis : list score) (indx : list nat)
  : M (list score) :=
  do out <- VisModel_batch VisModel (index_select (V3 0 0 0, V3 0 0 0) rows indx);
  ret (index_put pred_vis indx out).

Lemma batch_forward_chunks (rows : list (vec3 * vec3)) (batch_size : nat) :
  (0 < batch_size)%nat ->
  forall (steps start remaining : nat) (acc : list score),
    (remaining <= steps)%nat ->
    (start + remaining)%nat = length rows ->
    length acc = length rows ->
    exists tr,
      foldM (body rows) (arange_chunks steps start remaining batch_size) acc =
        (tr, Returned (take start acc ++ map predict (drop start rows))) /\
      queried_rows tr = drop start rows /\
      breakpoints tr = [].
Proof.
  intros Hb. induction steps as [|steps IH]; intros start remaining acc Hr Hlen Hacc.
  - assert (remaining = 0)%nat by lia. subst remaining.
    exists []. simpl.
    rewrite Nat.add_0_r in Hlen.
    rewrite drop_ge by lia. rewrite take_ge by lia.
    rewrite app_nil_r. auto.
  - destruct remaining as [|r].
    + exists []. simpl.
      rewrite Nat.add_0_r in Hlen.
      rewrite drop_ge by lia. rewrite take_ge by lia.
      rewrite app_nil_r. auto.
    + cbn [arange_chunks foldM].
      set (k := Nat.min batch_size (S r)).
      assert (Hk : (0 < k <= S r)%nat) by (unfold k; lia).
      unfold body at 1. unfold VisModel_batch.
      rewrite index_select_seq by lia.
      set (sel := take k (drop start rows)).
      assert (Hsel : length sel = k).
      { unfold sel. rewrite length_take, length_drop. lia. }
      rewrite bind_Returned. cbn [ret trace_of result_of fst snd].
      rewrite bind_Returned.
      set (vals := map (fun pd => VisModel (fst pd) (snd pd)) sel).
      assert (Hvals : length vals = k) by (unfold vals; rewrite length_map; exact Hsel).
      replace (seq start k) with (seq start (length vals))
        by (rewrite Hvals; reflexivity).
      rewrite index_put_seq by lia.
      rewrite Hvals.
      set (acc' := take start acc ++ vals ++ drop (start + k) acc).
      assert (Hacc' : length acc' = length rows).
      { unfold acc'. rewrite !length_app, length_take, length_drop. lia. }
      destruct (IH (start + k)%nat (S r - k)%nat acc' ltac:(lia) ltac:(lia) Hacc')
        as (tr & Hrun & Hq & Hbp).
      exists ([EvQuery sel] ++ [] ++ tr).
      fold (body rows). rewrite Hrun. cbn [trace_of result_of fst snd].
      split; [|split].
      * f_equal. f_equal.
        unfold acc'. rewrite app_assoc.
        rewrite take_app_length' by (rewrite length_app, length_take; lia).
        rewrite <- app_assoc. f_equal.
        unfold vals, sel. fold predict.
        rewrite <- map_app. f_equal.
        rewrite <- (drop_drop rows k start).
        apply take_drop.
      * simpl. rewrite Hq. unfold sel.
        rewrite <- (drop_drop rows k start).
        apply take_drop.
      * simpl. exact Hbp.
Qed.

(** The loop returns the row-wise predictions of all rows, whatever the
    chunk size, and its trace holds exactly these rows. *)
Lemma batch_forward_spec (batch_size : nat) (rows : list (vec3 * vec3)) :
  (0 < batch_size)%nat ->
  exists tr,
    batch_forward VisModel batch_size rows = (tr, Returned (map predict rows)) /\
    queried_rows tr = rows /\
    breakpoints tr = [].
Proof.
  intros Hb. unfold batch_forward, split_arange.
  destruct (length rows) as [|n] eqn:Hn.
  - apply nil_length_inv in Hn. subst rows.
    exists [EvQuery []]. simpl. auto.
  - rewrite <- Hn.
    destruct (batch_forward_chunks rows batch_size Hb (length rows) 0 (length rows)
                (repeat (Val 0, Val 0) (length rows)) ltac:(lia) ltac:(lia)
                ltac:(apply repeat_length)) as (tr & Hrun & Hq & Hbp).
    exists tr. unfold body in Hrun. rewrite Hrun.
    rewrite take_0, drop_0 in *. simpl. auto.
Qed.

End BatchForward.

(** *** Masked gather and scatter *)

Lemma masked_scatter_Forall {A : Type} (P : A -> Prop) (mask : list bool) (zero : A)
      (vals : list A) :
  P zero -> Forall P vals -> Forall P (masked_scatter mask zero vals).
Proof.
  intros Hz. revert vals.
  induction mask as [|[|] mask IH]; intros vals Hv; simpl.
  - constructor.
  - destruct vals as [|v vals].
    + constructor; [exact Hz | apply IH; constructor].
    + inversion Hv; subst. constructor; [assumption | apply IH; assumption].
  - constructor; [exact Hz | apply IH; exact Hv].
Qed.

Lemma masked_scatter_length {A : Type} (mask : list bool) (zero : A) (vals : list A) :
  length (masked_scatter mask zero vals) = length mask.
Proof.
  revert vals. induction mask as [|[|] mask IH]; intros vals; simpl.
  - reflexivity.
  - destruct vals; simpl; rewrite IH; reflexivity.
  - rewrite IH; reflexivity.
Qed.

(** An entry whose mask bit is off keeps the zero it was created with. *)
Lemma masked_scatter_off {A : Type} (mask : list bool) (zero : A) (vals : list A) (i : nat) :
  nth i mask false = false -> nth i (masked_scatter mask zero vals) zero = zero.
Proof.
  revert vals i. induction mask as [|m mask IH]; intros vals i Hi.
  - destruct i; reflexivity.
  - destruct i as [|i].
    + simpl in Hi. subst m. reflexivity.
    + simpl in Hi. destruct m; simpl.
      * destruct vals; simpl; apply IH; exact Hi.
      * apply IH; exact Hi.
Qed.

(** *** Row-major indexing of flattened tensors *)

Lemma nth_concat_uniform {A : Type} (d : A) (m : nat) (rows : list (list A)) (i j : nat) :
  Forall (fun row => length row = m) rows ->
  (j < m)%nat ->
  nth (i * m + j) (concat rows) d = nth j (nth i rows []) d.
Proof.
  intros Hrows Hj. revert i.
  induction Hrows as [|row rows Hrow _ IH]; intros i.
  - destruct i; simpl; destruct j; try reflexivity;
      destruct (_ + _)%nat; reflexivity.
  - destruct i as [|i]; simpl.
    + rewrite app_nth1 by lia. reflexivity.
    + rewrite app_nth2 by lia.
      replace (m + i * m + j - length row)%nat with (i * m + j)%nat by lia.
      apply IH.
Qed.

Lemma concat_length_uniform {A : Type} (m : nat) (rows : list (list A)) :
  Forall (fun row => length row = m) rows ->
  length (concat rows) = (length rows * m)%nat.
Proof.
  induction 1 as [|row rows Hrow _ IH]; simpl; [reflexivity|].
  rewrite length_app, IH, Hrow. reflexivity.
Qed.

(** *** Values in the unit interval *)

Lemma is_binary_unit (v : tval) : is_binary v -> in_unit_interval v.
Proof. intros [->| ->]; simpl; lra. Qed.

Lemma argmax2_binary (s : score) : is_binary (argmax2 s).
Proof.
  destruct s as [[a|] [b|]]; simpl; unfold is_binary; auto.
  destruct (Rlt_dec a b); auto.
Qed.

Lemma argmin2_binary (s : score) : is_binary (argmin2 s).
Proof.
  destruct s as [[a|] [b|]]; simpl; unfold is_binary; auto.
  destruct (Rlt_dec b a); auto.
Qed.

Lemma softmax_fraction (a b : R) : 0 <= exp a / (exp a + exp b) <= 1.
Proof.
  pose proof (exp_pos a) as Ha. pose proof (exp_pos b) as Hb.
  assert (Hs : 0 < exp a + exp b) by lra.
  split.
  - apply Rmult_le_pos; [lra | left; apply Rinv_0_lt_compat; exact Hs].
  - apply (Rmult_le_reg_r (exp a + exp b)); [exact Hs|].
    unfold Rdiv. rewrite Rmult_assoc, Rinv_l by lra. lra.
Qed.

Lemma softmax2_unit (s : score) :
  numeric_score s -> in_unit_interval (softmax2_0 s) /\ in_unit_interval (softmax2_1 s).
Proof.
  destruct s as [[a|] [b|]]; intros [H1 H2]; simpl in *; try discriminate.
  split; [apply softmax_fraction|].
  rewrite (Rplus_comm (exp a)). apply softmax_fraction.
Qed.

Lemma diffuse_reduce_unit (argmax_vis : bool) (s : score) :
  numeric_score s -> in_unit_interval (diffuse_reduce argmax_vis s).
Proof.
  intros Hs. unfold diffuse_reduce. destruct argmax_vis.
  - apply is_binary_unit, argmax2_binary.
  - apply softmax2_unit, Hs.
Qed.

Lemma specular_reduce_unit (inv argmax_vis : bool) (s : score) :
  numeric_score s -> in_unit_interval (specular_reduce inv argmax_vis s).
Proof.
  intros Hs. unfold specular_reduce. destruct inv, argmax_vis;
    try (apply is_binary_unit; first [apply argmax2_binary | apply argmin2_binary]);
    apply softmax2_unit, Hs.
Qed.

(** *** The importance-weighted mean *)

Lemma Rsum_nonneg (w : list R) : Forall (fun x => 0 <= x) w -> 0 <= Rsum w.
Proof. induction 1; simpl; lra. Qed.

Lemma weighted_sum_bounds (vis : list tval) (w : list R) :
  Forall in_unit_interval vis -> Forall (fun x => 0 <= x) w ->
  exists x, tsum (zip_with (fun v w => tmul v (Val w)) vis w) = Val x /\
            0 <= x <= Rsum w.
Proof.
  intros Hv. revert w. induction Hv as [|v vis Hv _ IH]; intros w Hw.
  - exists 0. simpl. split; [reflexivity|]. pose proof (Rsum_nonneg w Hw). lra.
  - destruct w as [|w0 w].
    + exists 0. simpl. split; [reflexivity | lra].
    + inversion Hw as [|? ? Hw0 Hw']; subst.
      destruct (IH w Hw') as (x & Hx & Hb).
      destruct v as [r|]; [|contradiction]. simpl in Hv.
      exists (r * w0 + x). simpl. rewrite Hx. simpl.
      split; [reflexivity | nra].
Qed.

Lemma weighted_mean_unit (vis : list tval) (w : list R) :
  Forall in_unit_interval vis -> Forall (fun x => 0 <= x) w ->
  in_unit_interval (weighted_mean vis w).
Proof.
  intros Hv Hw. unfold weighted_mean, weight_sum_of.
  destruct (weighted_sum_bounds vis w Hv Hw) as (x & -> & Hx).
  simpl. pose proof TINY_NUMBER_pos as He.
  pose proof (Rsum_nonneg w Hw) as Hs.
  assert (Hd : 0 < Rsum w + TINY_NUMBER) by lra.
  split.
  - apply Rmult_le_pos; [lra | left; apply Rinv_0_lt_compat; exact Hd].
  - apply (Rmult_le_reg_r (Rsum w + TINY_NUMBER)); [exact Hd|].
    unfold Rdiv. rewrite Rmult_assoc, Rinv_l by lra. lra.
Qed.

Lemma trap_if_false (dbg : trap_site -> dbg_cmd) (site : trap_site) :
  trap_if dbg false site = ret tt.
Proof. reflexivity. Qed.

Lemma trap_if_true (dbg : trap_site -> dbg_cmd) (site : trap_site) :
  trap_if dbg true site = set_trace dbg site.
Proof. reflexivity. Qed.

(** *** What the diffuse sampler returns *)

Lemma get_diffuse_visibility_run (VisModel : vec3 -> vec3 -> score)
    (dbg : trap_site -> dbg_cmd) (rand_theta rand_phi : nat -> nat -> R)
    (batch_size : nat) (points normals lgtSGLobes : list vec3) (lgtSGLambdas : list R)
    (nsamp : nat) (testing : bool) (thr : R) (bounding argmax_vis : bool) :
  (0 < batch_size)%nat ->
  let per_sample := diffuse_per_sample_vis VisModel rand_theta rand_phi points normals
                      lgtSGLobes lgtSGLambdas nsamp thr argmax_vis in
  let mean_vis := diffuse_aggregated_vis VisModel rand_theta rand_phi points normals
                    lgtSGLobes lgtSGLambdas nsamp thr argmax_vis in
  exists tr,
    queried_rows tr = diffuse_masked_rows rand_theta rand_phi points normals lgtSGLobes
                        lgtSGLambdas nsamp thr /\
    breakpoints tr = [] /\
    get_diffuse_visibility VisModel dbg rand_theta rand_phi batch_size points normals
      lgtSGLobes lgtSGLambdas nsamp testing thr bounding argmax_vis =
    if bounding then (tr, Returned (VisPerSample per_sample))
    else if any_nan (concat mean_vis) then
      (tr ++ [EvBreakpoint InDiffuseVisibility],
       match dbg InDiffuseVisibility with
       | DbgContinue => Returned (VisMean mean_vis)
       | DbgQuit => BdbQuit
       end)
    else (tr, Returned (VisMean mean_vis)).
Proof.
  intros Hb per_sample mean_vis.
  destruct (batch_forward_spec VisModel batch_size
              (diffuse_masked_rows rand_theta rand_phi points normals lgtSGLobes
                 lgtSGLambdas nsamp thr) Hb) as (tr & Hrun & Hq & Hbp).
  exists tr. split; [exact Hq|]. split; [exact Hbp|].
  unfold get_diffuse_visibility.
  fold (diffuse_masked_rows rand_theta rand_phi points normals lgtSGLobes
          lgtSGLambdas nsamp thr).
  assert (Hfw : (if testing
                 then batch_forward VisModel batch_size
                        (diffuse_masked_rows rand_theta rand_phi points normals lgtSGLobes
                           lgtSGLambdas nsamp thr)
                 else batch_forward VisModel batch_size
                        (diffuse_masked_rows rand_theta rand_phi points normals lgtSGLobes
                           lgtSGLambdas nsamp thr)) =
                (tr, Returned (map (fun pd => VisModel (fst pd) (snd pd))
                                 (diffuse_masked_rows rand_theta rand_phi points normals
                                    lgtSGLobes lgtSGLambdas nsamp thr)))).
  { destruct testing; exact Hrun. }
  rewrite Hfw. rewrite bind_Returned.
  subst per_sample mean_vis.
  unfold diffuse_aggregated_vis, diffuse_per_sample_vis. cbv zeta.
  destruct bounding.
  - cbn [ret trace_of result_of fst snd]. rewrite app_nil_r. reflexivity.
  - match goal with
    | |- context [any_nan (concat ?m)] => set (mv := m)
    end.
    destruct (any_nan (concat mv)).
    + rewrite trap_if_true. unfold set_trace.
      destruct (dbg InDiffuseVisibility); reflexivity.
    + rewrite trap_if_false. cbn. rewrite app_nil_r. reflexivity.
Qed.

(** *** Bounds on the per-sample and aggregated diffuse visibility *)

Lemma nth_Forall_default {A : Type} (P : A -> Prop) (l : list A) (d : A) (i : nat) :
  Forall P l -> P d -> P (nth i l d).
Proof.
  intros Hl Hd. destruct (nth_in_or_default i l d) as [Hin| ->]; [|exact Hd].
  rewrite Forall_forall in Hl. apply Hl. apply list_elem_of_In. exact Hin.
Qed.

Lemma nth_map_seq {A : Type} (f : nat -> A) (n i : nat) (d : A) :
  (i < n)%nat -> nth i (map f (seq 0 n)) d = f i.
Proof.
  intros Hi. rewrite (nth_indep _ d (f 0%nat)) by (rewrite length_map, length_seq; exact Hi).
  rewrite (map_nth f (seq 0 n) 0%nat i). rewrite seq_nth by exact Hi. reflexivity.
Qed.

Section DiffuseBounds.

Variable VisModel : vec3 -> vec3 -> score.
Variable rand_theta rand_phi : nat -> nat -> R.
Variable points normals lgtSGLobes : list vec3.
Variable lgtSGLambdas : list R.
Variable nsamp : nat.
Variable thr : R.
Variable argmax_vis : bool.

Let sample_dir := diffuse_sample_dir rand_theta rand_phi lgtSGLobes lgtSGLambdas nsamp thr.
Let per_sample := diffuse_per_sample_vis VisModel rand_theta rand_phi points normals
                    lgtSGLobes lgtSGLambdas nsamp thr argmax_vis.

Lemma diffuse_sample_dir_rows :
  Forall (fun row => length row = nsamp) sample_dir.
Proof.
  unfold sample_dir, diffuse_sample_dir.
  apply Forall_forall. intros row Hin.
  apply list_elem_of_lookup in Hin as [k Hk].
  rewrite list_lookup_imap in Hk.
  destruct (combine _ _ !! k) as [ls|]; simpl in Hk; [|discriminate].
  injection Hk as <-. rewrite length_map, length_seq. reflexivity.
Qed.

Lemma diffuse_sample_dir_length :
  length lgtSGLambdas = length lgtSGLobes ->
  length sample_dir = length lgtSGLobes.
Proof.
  intros Hl. unfold sample_dir, diffuse_sample_dir, diffuse_light_dirs.
  rewrite length_imap, length_combine, !length_map. lia.
Qed.

Lemma diffuse_vis_flat_Forall (P : tval -> Prop) (cos_term : list bool)
      (rows : list (vec3 * vec3)) :
  P (Val 0) ->
  (forall p d, P (diffuse_reduce argmax_vis (VisModel p d))) ->
  Forall P (diffuse_vis_flat cos_term argmax_vis
              (map (fun pd => VisModel (fst pd) (snd pd)) rows)).
Proof.
  intros H0 Hr. unfold diffuse_vis_flat.
  apply masked_scatter_Forall; [exact H0|].
  rewrite map_map. apply Forall_forall. intros v Hv.
  apply list_elem_of_fmap in Hv as (pd & -> & _). apply Hr.
Qed.

Lemma diffuse_per_sample_Forall (P : tval -> Prop) :
  P (Val 0) ->
  (forall p d, P (diffuse_reduce argmax_vis (VisModel p d))) ->
  Forall (Forall (Forall P)) per_sample.
Proof.
  intros H0 Hr. unfold per_sample, diffuse_per_sample_vis, diffuse_vis_permuted.
  cbv zeta.
  apply Forall_forall. intros x Hx.
  apply list_elem_of_fmap in Hx as (k & -> & _).
  apply Forall_forall. intros y Hy.
  apply list_elem_of_fmap in Hy as (j & -> & _).
  apply Forall_forall. intros z Hz.
  apply list_elem_of_fmap in Hz as (p & -> & _).
  apply nth_Forall_default; [|exact H0].
  apply diffuse_vis_flat_Forall; assumption.
Qed.

Lemma diffuse_weight_vis_nonneg :
  Forall (Forall (fun x => 0 <= x)) (diffuse_weight_vis lgtSGLobes lgtSGLambdas sample_dir).
Proof.
  unfold diffuse_weight_vis.
  apply Forall_forall. intros row Hrow.
  apply list_elem_of_lookup in Hrow as [k Hk].
  rewrite lookup_zip_with in Hk.
  destruct (combine _ _ !! k) as [ll|]; simpl in Hk; [|discriminate].
  destruct (sample_dir !! k) as [dirs|]; simpl in Hk; [|discriminate].
  injection Hk as <-.
  apply Forall_forall. intros w Hw.
  apply list_elem_of_fmap in Hw as (d & -> & _).
  left. apply exp_pos.
Qed.

Lemma diffuse_aggregated_unit :
  (forall p d, numeric_score (VisModel p d)) ->
  Forall (Forall in_unit_interval)
    (diffuse_aggregated_vis VisModel rand_theta rand_phi points normals lgtSGLobes
       lgtSGLambdas nsamp thr argmax_vis).
Proof.
  intros Hnum. unfold diffuse_aggregated_vis. fold per_sample sample_dir.
  assert (Hps : Forall (Forall (Forall in_unit_interval)) per_sample).
  { apply diffuse_per_sample_Forall; [simpl; lra|].
    intros p d. apply diffuse_reduce_unit, Hnum. }
  pose proof diffuse_weight_vis_nonneg as Hw.
  unfold diffuse_mean_vis.
  apply Forall_forall. intros row Hrow.
  apply list_elem_of_lookup in Hrow as [k Hk].
  rewrite lookup_zip_with in Hk.
  destruct (per_sample !! k) as [vis_k|] eqn:Hvk; simpl in Hk; [|discriminate].
  destruct (diffuse_weight_vis _ _ _ !! k) as [w_k|] eqn:Hwk; simpl in Hk; [|discriminate].
  injection Hk as <-.
  apply Forall_forall. intros v Hv.
  apply list_elem_of_fmap in Hv as (p & -> & _).
  apply weighted_mean_unit.
  - apply Forall_forall. intros u Hu.
    apply list_elem_of_fmap in Hu as (row & -> & Hrow).
    apply nth_Forall_default; [|simpl; lra].
    rewrite Forall_forall in Hps.
    pose proof (Hps vis_k (list_elem_of_lookup_2 _ _ _ Hvk)) as Hk.
    rewrite Forall_forall in Hk. apply Hk, Hrow.
  - rewrite Forall_forall in Hw. apply Hw.
    apply (list_elem_of_lookup_2 _ k). exact Hwk.
Qed.

(** Entry [k][j][p] of the per-sample tensor is the flat entry of point
    [p] and direction [k * nsamp + j]. *)
Lemma diffuse_per_sample_zero (k j p : nat) :
  length normals = length points ->
  length lgtSGLambdas = length lgtSGLobes ->
  (k < length lgtSGLobes)%nat -> (j < nsamp)%nat -> (p < length points)%nat ->
  dot (nth p normals (V3 0 0 0)) (nth j (nth k sample_dir []) (V3 0 0 0)) <= TINY_NUMBER ->
  nth p (nth j (nth k per_sample []) []) (Val 0) = Val 0.
Proof.
  intros Hn Hl Hk Hj Hp Hdot.
  unfold per_sample, diffuse_per_sample_vis, diffuse_vis_permuted. cbv zeta.
  rewrite nth_map_seq by exact Hk.
  rewrite nth_map_seq by exact Hj.
  rewrite nth_map_seq by exact Hp.
  unfold diffuse_vis_flat. apply masked_scatter_off.
  fold sample_dir.
  unfold diffuse_cos_term. rewrite flat_map_concat_map.
  pose proof diffuse_sample_dir_rows as Hrows.
  pose proof (diffuse_sample_dir_length Hl) as Hlen.
  pose proof (concat_length_uniform nsamp sample_dir Hrows) as Hcl.
  assert (Hkj : (k * nsamp + j < length (concat sample_dir))%nat) by nia.
  rewrite Hlen in Hcl.
  rewrite (nth_concat_uniform false (length lgtSGLobes * nsamp)).
  - rewrite (nth_indep _ [] (map (fun d => Rgtb (dot (V3 0 0 0) d) TINY_NUMBER)
                                 (concat sample_dir)))
      by (rewrite length_map; lia).
    rewrite (map_nth (fun n => map (fun d => Rgtb (dot n d) TINY_NUMBER) (concat sample_dir))
               normals (V3 0 0 0) p).
    rewrite (nth_indep _ false (Rgtb (dot (nth p normals (V3 0 0 0)) (V3 0 0 0)) TINY_NUMBER))
      by (rewrite length_map; exact Hkj).
    rewrite (map_nth (fun d => Rgtb (dot (nth p normals (V3 0 0 0)) d) TINY_NUMBER)
               (concat sample_dir) (V3 0 0 0)).
    rewrite (nth_concat_uniform (V3 0 0 0) nsamp sample_dir k j Hrows Hj).
    unfold Rgtb. destruct (Rlt_dec _ _); [lra | reflexivity].
  - apply Forall_forall. intros row Hrow.
    apply list_elem_of_fmap in Hrow as (n & -> & _).
    rewrite length_map. exact Hcl.
  - nia.
Qed.

End DiffuseBounds.

(** *** What the specular sampler returns *)

Lemma get_specular_visibility_run (VisModel : vec3 -> vec3 -> score)
    (dbg : trap_site -> dbg_cmd) (rand_theta rand_phi : nat -> nat -> R)
    (batch_size : nat) (points normals viewdirs lgtSGLobes : list vec3)
    (lgtSGLambdas : list R) (nsamp : nat) (testing inv argmax_vis : bool) :
  (0 < batch_size)%nat ->
  let vis := specular_aggregated_vis VisModel rand_theta rand_phi points normals viewdirs
               lgtSGLobes lgtSGLambdas nsamp inv argmax_vis in
  exists tr,
    queried_rows tr = specular_masked_rows rand_theta rand_phi points normals viewdirs
                        lgtSGLobes lgtSGLambdas nsamp /\
    breakpoints tr = [] /\
    get_specular_visibility VisModel dbg rand_theta rand_phi batch_size points normals
      viewdirs lgtSGLobes lgtSGLambdas nsamp testing inv argmax_vis =
    if any_nan vis then
      (tr ++ [EvBreakpoint InSpecularVisibility],
       match dbg InSpecularVisibility with
       | DbgContinue => Returned vis
       | DbgQuit => BdbQuit
       end)
    else (tr, Returned vis).
Proof.
  intros Hb vis.
  destruct (batch_forward_spec VisModel batch_size
              (specular_masked_rows rand_theta rand_phi points normals viewdirs lgtSGLobes
                 lgtSGLambdas nsamp) Hb) as (tr & Hrun & Hq & Hbp).
  exists tr. split; [exact Hq|]. split; [exact Hbp|].
  unfold get_specular_visibility.
  fold (specular_masked_rows rand_theta rand_phi points normals viewdirs lgtSGLobes
          lgtSGLambdas nsamp).
  assert (Hfw : (if testing
                 then batch_forward VisModel batch_size
                        (specular_masked_rows rand_theta rand_phi points normals viewdirs
                           lgtSGLobes lgtSGLambdas nsamp)
                 else batch_forward VisModel batch_size
                        (specular_masked_rows rand_theta rand_phi points normals viewdirs
                           lgtSGLobes lgtSGLambdas nsamp)) =
                (tr, Returned (map (fun pd => VisModel (fst pd) (snd pd))
                                 (specular_masked_rows rand_theta rand_phi points normals
                                    viewdirs lgtSGLobes lgtSGLambdas nsamp)))).
  { destruct testing; exact Hrun. }
  rewrite Hfw. rewrite bind_Returned.
  subst vis. unfold specular_aggregated_vis, specular_per_sample_vis. cbv zeta.
  match goal with
  | |- context [any_nan ?m] => set (mv := m)
  end.
  destruct (any_nan mv).
  - rewrite trap_if_true. unfold set_trace.
    destruct (dbg InSpecularVisibility); reflexivity.
  - rewrite trap_if_false. cbn. rewrite app_nil_r. reflexivity.
Qed.

Section SpecularBounds.

Variable VisModel : vec3 -> vec3 -> score.
Variable rand_theta rand_phi : nat -> nat -> R.
Variable points normals viewdirs lgtSGLobes : list vec3.
Variable lgtSGLambdas : list R.
Variable nsamp : nat.
Variable inv argmax_vis : bool.

Let pts := specular_points points normals viewdirs lgtSGLobes lgtSGLambdas.
Let sample_dir := specular_sample_dir rand_theta rand_phi pts nsamp.
Let per_sample := specular_per_sample_vis VisModel rand_theta rand_phi points normals
                    viewdirs lgtSGLobes lgtSGLambdas nsamp inv argmax_vis.

Lemma specular_per_sample_Forall (P : tval -> Prop) :
  P (Val 0) ->
  (forall p d, P (specular_reduce inv argmax_vis (VisModel p d))) ->
  Forall P per_sample.
Proof.
  intros H0 Hr. unfold per_sample, specular_per_sample_vis, specular_vis_flat. cbv zeta.
  apply masked_scatter_Forall; [exact H0|].
  rewrite map_map. apply Forall_forall. intros v Hv.
  apply list_elem_of_fmap in Hv as (pd & -> & _). apply Hr.
Qed.

Lemma specular_weight_vis_nonneg :
  Forall (Forall (fun x => 0 <= x)) (specular_weight_vis pts sample_dir).
Proof.
  unfold specular_weight_vis.
  apply Forall_forall. intros row Hrow.
  apply list_elem_of_lookup in Hrow as [k Hk].
  rewrite lookup_zip_with in Hk.
  destruct (pts !! k) as [sp|]; simpl in Hk; [|discriminate].
  destruct (sample_dir !! k) as [dirs|]; simpl in Hk; [|discriminate].
  injection Hk as <-.
  apply Forall_forall. intros w Hw.
  apply list_elem_of_fmap in Hw as (d & -> & _).
  left. apply exp_pos.
Qed.

Lemma specular_aggregated_unit :
  (forall p d, numeric_score (VisModel p d)) ->
  Forall in_unit_interval
    (specular_aggregated_vis VisModel rand_theta rand_phi points normals viewdirs
       lgtSGLobes lgtSGLambdas nsamp inv argmax_vis).
Proof.
  intros Hnum. unfold specular_aggregated_vis. cbv zeta.
  fold pts. fold sample_dir. fold per_sample.
  assert (Hps : Forall in_unit_interval per_sample).
  { apply specular_per_sample_Forall; [simpl; lra|].
    intros p d. apply specular_reduce_unit, Hnum. }
  pose proof specular_weight_vis_nonneg as Hw.
  apply Forall_forall. intros v Hv.
  apply list_elem_of_lookup in Hv as [p Hp].
  rewrite list_lookup_imap in Hp.
  destruct (specular_weight_vis pts sample_dir !! p) as [w_p|] eqn:Hwp;
    simpl in Hp; [|discriminate].
  injection Hp as <-.
  apply weighted_mean_unit.
  - apply Forall_forall. intros u Hu.
    apply list_elem_of_fmap in Hu as (j & -> & _).
    apply nth_Forall_default; [exact Hps | simpl; lra].
  - rewrite Forall_forall in Hw. apply Hw.
    apply (list_elem_of_lookup_2 _ p). exact Hwp.
Qed.

End SpecularBounds.

(** *** One point, one lobe along the normal, one sample on the axis *)

Lemma sample_direction_on_axis (U V axis : vec3) (a b : R) :
  sample_direction U V axis (0 * a) (0 * b) = axis.
Proof.
  unfold sample_direction, vadd, vmul_s. simpl.
  rewrite !Rmult_0_l, sin_0, cos_0. destruct axis as [x y z]. simpl.
  f_equal; ring.
Qed.

Lemma norm_z_axis : norm z_axis = 1.
Proof. exact norm_e3. Qed.

Lemma dot_z_axis_norm_axis : dot z_axis (norm_axis z_axis) = 1 / (1 + TINY_NUMBER).
Proof.
  rewrite (norm_axis_unit z_axis norm_z_axis).
  unfold dot, vdiv, z_axis. simpl. pose proof TINY_NUMBER_pos. field. lra.
Qed.

Lemma z_axis_sample_faces_normal :
  Rgtb (dot z_axis (norm_axis z_axis)) TINY_NUMBER = true.
Proof.
  rewrite dot_z_axis_norm_axis. unfold Rgtb.
  destruct (Rlt_dec _ _) as [_|H]; [reflexivity|]. exfalso. apply H.
  rewrite TINY_NUMBER_val. lra.
Qed.

Lemma diffuse_single_sample_values (VisModel : vec3 -> vec3 -> score) (p : vec3)
      (argmax_vis : bool) :
  let v := diffuse_reduce argmax_vis (VisModel p (norm_axis z_axis)) in
  let w := exp (1 * (dot (norm_axis z_axis) (norm_axis z_axis) - 1)) in
  diffuse_masked_rows ex_rand ex_rand [p] [z_axis] [z_axis] [1] 1 1 =
    [(p, norm_axis z_axis)] /\
  diffuse_per_sample_vis VisModel ex_rand ex_rand [p] [z_axis] [z_axis] [1] 1 1 argmax_vis =
    [[[v]]] /\
  diffuse_aggregated_vis VisModel ex_rand ex_rand [p] [z_axis] [z_axis] [1] 1 1 argmax_vis =
    [[weighted_mean [v] [w]]].
Proof.
  intros v w.
  assert (Hrows : diffuse_masked_rows ex_rand ex_rand [p] [z_axis] [z_axis] [1] 1 1 =
                  [(p, norm_axis z_axis)]).
  { unfold diffuse_masked_rows, diffuse_sample_dir, diffuse_light_dirs,
      diffuse_cos_term, diffuse_input_rows.
    cbn -[norm_axis sample_direction r_phi_range cross dot Rgtb clamp_min clamp_max
          Rmult PI].
    unfold ex_rand. rewrite Rmult_assoc, !sample_direction_on_axis.
    rewrite z_axis_sample_faces_normal. reflexivity. }
  assert (Hps : diffuse_per_sample_vis VisModel ex_rand ex_rand [p] [z_axis] [z_axis] [1]
                  1 1 argmax_vis = [[[v]]]).
  { unfold diffuse_per_sample_vis. rewrite Hrows.
    unfold diffuse_sample_dir, diffuse_light_dirs, diffuse_vis_permuted,
      diffuse_cos_term, diffuse_vis_flat.
    cbn -[norm_axis sample_direction r_phi_range cross dot Rgtb clamp_min clamp_max
          Rmult PI diffuse_reduce].
    unfold ex_rand. rewrite Rmult_assoc, !sample_direction_on_axis.
    rewrite z_axis_sample_faces_normal. reflexivity. }
  split; [exact Hrows|]. split; [exact Hps|].
  unfold diffuse_aggregated_vis. rewrite Hps.
  unfold diffuse_sample_dir, diffuse_light_dirs, diffuse_weight_vis, diffuse_mean_vis.
  cbn -[norm_axis sample_direction r_phi_range cross dot Rgtb clamp_min clamp_max
        Rmult PI weighted_mean exp Rminus].
  unfold ex_rand. rewrite Rmult_assoc, !sample_direction_on_axis.
  reflexivity.
Qed.

Lemma single_weight_fraction (w : R) : 0 < w ->
  0 < (1 * w + 0) / (w + 0 + TINY_NUMBER) < 1.
Proof.
  intros Hw. pose proof TINY_NUMBER_pos as He.
  assert (Hd : 0 < w + 0 + TINY_NUMBER) by lra.
  split.
  - apply Rdiv_lt_0_compat; lra.
  - apply (Rmult_lt_reg_r (w + 0 + TINY_NUMBER)); [exact Hd|].
    unfold Rdiv. rewrite Rmult_assoc, Rinv_l by lra. lra.
Qed.

Section SpecularPerSample.

Variable VisModel : vec3 -> vec3 -> score.
Variable rand_theta rand_phi : nat -> nat -> R.
Variable points normals viewdirs lgtSGLobes : list vec3.
Variable lgtSGLambdas : list R.
Variable nsamp : nat.
Variable inv argmax_vis : bool.

Let pts := specular_points points normals viewdirs lgtSGLobes lgtSGLambdas.
Let sample_dir := specular_sample_dir rand_theta rand_phi pts nsamp.

Lemma specular_sample_dir_lookup (p : nat) (sp : specular_point) :
  pts !! p = Some sp ->
  exists dirs, sample_dir !! p = Some dirs /\ length dirs = nsamp.
Proof.
  intros Hp. unfold sample_dir, specular_sample_dir, specular_sample_dir_at.
  rewrite list_lookup_imap, Hp. simpl.
  eexists. split; [reflexivity|]. rewrite length_map, length_seq. reflexivity.
Qed.

Lemma specular_per_sample_zero (p j : nat) (sp : specular_point) :
  pts !! p = Some sp -> (j < nsamp)%nat ->
  dot (sp_normal sp) (nth j (nth p sample_dir []) (V3 0 0 0)) <= TINY_NUMBER ->
  nth (p * nsamp + j)
      (specular_per_sample_vis VisModel rand_theta rand_phi points normals viewdirs
         lgtSGLobes lgtSGLambdas nsamp inv argmax_vis) (Val 0) = Val 0.
Proof.
  intros Hp Hj Hdot.
  unfold specular_per_sample_vis, specular_vis_flat. cbv zeta.
  apply masked_scatter_off.
  fold pts. fold sample_dir. unfold specular_cos_term.
  destruct (specular_sample_dir_lookup p sp Hp) as (dirs & Hd & Hlen).
  rewrite (nth_concat_uniform false nsamp); [| |exact Hj].
  - assert (Hrow : zip_with
                     (fun sp0 dirs0 =>
                        map (fun d => Rgtb (dot (sp_normal sp0) d) TINY_NUMBER) dirs0)
                     pts sample_dir !! p =
                   Some (map (fun d => Rgtb (dot (sp_normal sp) d) TINY_NUMBER) dirs)).
    { rewrite lookup_zip_with, Hp, Hd. reflexivity. }
    rewrite (nth_lookup_Some _ _ _ _ Hrow).
    rewrite (nth_lookup_Some _ _ _ _ Hd) in Hdot.
    rewrite (nth_indep _ false (Rgtb (dot (sp_normal sp) (V3 0 0 0)) TINY_NUMBER))
      by (rewrite length_map; lia).
    rewrite (map_nth (fun d => Rgtb (dot (sp_normal sp) d) TINY_NUMBER) dirs (V3 0 0 0)).
    unfold Rgtb. destruct (Rlt_dec _ _); [lra | reflexivity].
  - apply Forall_forall. intros row Hrow.
    apply list_elem_of_lookup in Hrow as [i Hi].
    rewrite lookup_zip_with in Hi.
    destruct (pts !! i) as [spi|] eqn:Hpi; simpl in Hi; [|discriminate].
    destruct (specular_sample_dir_lookup i spi Hpi) as (di & Hdi & Hli).
    rewrite Hdi in Hi. simpl in Hi. injection Hi as <-.
    rewrite length_map. exact Hli.
Qed.

End SpecularPerSample.

(** *** The specular sampler in multi-view mode *)

Lemma get_specular_visibility_multi_view_run (VisModel : vec3 -> vec3 -> score)
    (dbg : trap_site -> dbg_cmd) (rand_theta rand_phi : nat -> nat -> R)
    (batch_size : nat) (points normals : list vec3)
    (viewdirs lgtSGLobes : list (list vec3)) (lgtSGLambdas : list (list R))
    (nsamp : nat) (testing inv argmax_vis : bool) :
  (0 < batch_size)%nat ->
  let vis := multi_view_aggregated_vis VisModel rand_theta rand_phi points normals
               viewdirs lgtSGLobes lgtSGLambdas nsamp in
  exists tr,
    queried_rows tr = multi_view_masked_rows rand_theta rand_phi points normals viewdirs
                        lgtSGLobes lgtSGLambdas nsamp /\
    breakpoints tr = [] /\
    get_specular_visibility_multi_view VisModel dbg rand_theta rand_phi batch_size points
      normals viewdirs lgtSGLobes lgtSGLambdas nsamp testing inv argmax_vis =
    if any_nan (concat vis) then
      (tr ++ [EvBreakpoint InSpecularVisibility],
       match dbg InSpecularVisibility with
       | DbgContinue => Returned vis
       | DbgQuit => BdbQuit
       end)
    else (tr, Returned vis).
Proof.
  intros Hb vis.
  destruct (batch_forward_spec VisModel batch_size
              (multi_view_masked_rows rand_theta rand_phi points normals viewdirs
                 lgtSGLobes lgtSGLambdas nsamp) Hb) as (tr & Hrun & Hq & Hbp).
  exists tr. split; [exact Hq|]. split; [exact Hbp|].
  unfold get_specular_visibility_multi_view.
  fold (multi_view_masked_rows rand_theta rand_phi points normals viewdirs lgtSGLobes
          lgtSGLambdas nsamp).
  rewrite Hrun, bind_Returned.
  subst vis. unfold multi_view_aggregated_vis, multi_view_per_sample_vis. cbv zeta.
  match goal with
  | |- context [any_nan (concat ?m)] => set (mv := m)
  end.
  destruct (any_nan (concat mv)).
  - rewrite trap_if_true. unfold set_trace.
    destruct (dbg InSpecularVisibility); reflexivity.
  - rewrite trap_if_false. cbn. rewrite app_nil_r. reflexivity.
Qed.

Section MultiViewBounds.

Variable VisModel : vec3 -> vec3 -> score.
Variable rand_theta rand_phi : nat -> nat -> R.
Variable points normals : list vec3.
Variable viewdirs lgtSGLobes : list (list vec3).
Variable lgtSGLambdas : list (list R).
Variable nsamp : nat.

Let per_sample := multi_view_per_sample_vis VisModel rand_theta rand_phi points normals
                    viewdirs lgtSGLobes lgtSGLambdas nsamp.

(** In multi-view mode every per-sample value is 0 or 1. *)
Lemma multi_view_per_sample_binary : Forall is_binary per_sample.
Proof.
  unfold per_sample, multi_view_per_sample_vis. cbv zeta.
  apply masked_scatter_Forall; [left; reflexivity|].
  rewrite map_map. apply Forall_forall. intros v Hv.
  apply list_elem_of_fmap in Hv as (pd & -> & _). apply argmax2_binary.
Qed.

Lemma multi_view_aggregated_unit :
  Forall (Forall in_unit_interval)
    (multi_view_aggregated_vis VisModel rand_theta rand_phi points normals viewdirs
       lgtSGLobes lgtSGLambdas nsamp).
Proof.
  unfold multi_view_aggregated_vis. cbv zeta. fold per_sample.
  assert (Hps : Forall in_unit_interval per_sample).
  { eapply Forall_impl; [apply multi_view_per_sample_binary|]. apply is_binary_unit. }
  apply Forall_forall. intros row Hrow.
  apply list_elem_of_lookup in Hrow as [v Hv].
  rewrite list_lookup_imap in Hv.
  destruct (zip_with specular_weight_vis _ _ !! v) as [w_v|] eqn:Hwv;
    simpl in Hv; [|discriminate].
  injection Hv as <-.
  rewrite lookup_zip_with in Hwv.
  destruct (specular_views _ _ _ _ _ !! v) as [pts|]; simpl in Hwv; [|discriminate].
  destruct (multi_view_sample_dir _ _ _ _ !! v) as [dirs|]; simpl in Hwv; [|discriminate].
  injection Hwv as <-.
  apply Forall_forall. intros x Hx.
  apply list_elem_of_lookup in Hx as [p Hp].
  rewrite list_lookup_imap in Hp.
  destruct (specular_weight_vis pts dirs !! p) as [w_p|] eqn:Hwp; simpl in Hp; [|discriminate].
  injection Hp as <-.
  apply weighted_mean_unit.
  - apply Forall_forall. intros u Hu.
    apply list_elem_of_fmap in Hu as (j & -> & _).
    apply nth_Forall_default; [exact Hps | simpl; lra].
  - unfold specular_weight_vis in Hwp. rewrite lookup_zip_with in Hwp.
    destruct (pts !! p) as [sp|]; simpl in Hwp; [|discriminate].
    destruct (dirs !! p) as [ds|]; simpl in Hwp; [|discriminate].
    injection Hwp as <-.
    apply Forall_forall. intros w Hw.
    apply list_elem_of_fmap in Hw as (d & -> & _). left. apply exp_pos.
Qed.

End MultiViewBounds.

(** C4 (as the code has it).  For a predictor whose scores are numbers
    and inputs of agreeing shapes:
    - the aggregated visibility returned by the diffuse sampler and by the
      specular sampler lies in [[0, 1]] for every point and lobe, in the
      softmax mode and in the argmax mode alike (a weighted mean of the
      per-sample values, not a value of {0, 1});
    - every per-sample visibility lies in [[0, 1]], is 0 or 1 in argmax
      mode, and is exactly 0 where the dot product of normal and sample
      direction is at most [TINY_NUMBER];
    - the rows sent to the predictor are exactly the rows selected by the
      mask [dot > TINY_NUMBER], so no other sample reaches the predictor;
    - the same holds for the specular sampler in multi-view mode, whose
      per-sample values are always 0 or 1. *)
Theorem visibility_bounds
    (VisModel : vec3 -> vec3 -> score) (dbg : trap_site -> dbg_cmd)
    (rand_theta rand_phi : nat -> nat -> R) (batch_size : nat)
    (points normals viewdirs lgtSGLobes : list vec3) (lgtSGLambdas : list R)
    (viewdirs_mv lgtSGLobes_mv : list (list vec3)) (lgtSGLambdas_mv : list (list R))
    (nsamp : nat) (testing : bool) (thr : R) (inv argmax_vis : bool) :
  (0 < batch_size)%nat ->
  (forall p d, numeric_score (VisModel p d)) ->
  length normals = length points ->
  length lgtSGLambdas = length lgtSGLobes ->
  (exists tr vis,
      get_diffuse_visibility VisModel dbg rand_theta rand_phi batch_size points normals
        lgtSGLobes lgtSGLambdas nsamp testing thr false argmax_vis =
        (tr, Returned (VisMean vis)) /\
      Forall (Forall in_unit_interval) vis /\
      queried_rows tr = diffuse_masked_rows rand_theta rand_phi points normals lgtSGLobes
                          lgtSGLambdas nsamp thr) /\
  (exists tr vis,
      get_diffuse_visibility VisModel dbg rand_theta rand_phi batch_size points normals
        lgtSGLobes lgtSGLambdas nsamp testing thr true argmax_vis =
        (tr, Returned (VisPerSample vis)) /\
      Forall (Forall (Forall in_unit_interval)) vis /\
      (argmax_vis = true -> Forall (Forall (Forall is_binary)) vis) /\
      (forall k j p,
          (k < length lgtSGLobes)%nat -> (j < nsamp)%nat -> (p < length points)%nat ->
          dot (nth p normals (V3 0 0 0))
              (nth j (nth k (diffuse_sample_dir rand_theta rand_phi lgtSGLobes lgtSGLambdas
                               nsamp thr) []) (V3 0 0 0)) <= TINY_NUMBER ->
          nth p (nth j (nth k vis []) []) (Val 0) = Val 0)) /\
  (exists tr vis,
      get_specular_visibility VisModel dbg rand_theta rand_phi batch_size points normals
        viewdirs lgtSGLobes lgtSGLambdas nsamp testing inv argmax_vis =
        (tr, Returned vis) /\
      Forall in_unit_interval vis /\
      queried_rows tr = specular_masked_rows rand_theta rand_phi points normals viewdirs
                          lgtSGLobes lgtSGLambdas nsamp /\
      let pts := specular_points points normals viewdirs lgtSGLobes lgtSGLambdas in
      let per_sample := specular_per_sample_vis VisModel rand_theta rand_phi points normals
                          viewdirs lgtSGLobes lgtSGLambdas nsamp inv argmax_vis in
      Forall in_unit_interval per_sample /\
      (argmax_vis = true -> Forall is_binary per_sample) /\
      (forall p j sp,
          pts !! p = Some sp -> (j < nsamp)%nat ->
          dot (sp_normal sp)
              (nth j (nth p (specular_sample_dir rand_theta rand_phi pts nsamp) [])
                     (V3 0 0 0)) <= TINY_NUMBER ->
          nth (p * nsamp + j) per_sample (Val 0) = Val 0)) /\
  (exists tr vis,
      get_specular_visibility_multi_view VisModel dbg rand_theta rand_phi batch_size
        points normals viewdirs_mv lgtSGLobes_mv lgtSGLambdas_mv nsamp testing inv
        argmax_vis = (tr, Returned vis) /\
      Forall (Forall in_unit_interval) vis /\
      queried_rows tr = multi_view_masked_rows rand_theta rand_phi points normals
                          viewdirs_mv lgtSGLobes_mv lgtSGLambdas_mv nsamp /\
      Forall is_binary
        (multi_view_per_sample_vis VisModel rand_theta rand_phi points normals
           viewdirs_mv lgtSGLobes_mv lgtSGLambdas_mv nsamp)).
Proof.
  intros Hb Hnum Hn Hl.
  split; [|split; [|split]].
  - destruct (get_diffuse_visibility_run VisModel dbg rand_theta rand_phi batch_size
                points normals lgtSGLobes lgtSGLambdas nsamp testing thr false
                argmax_vis Hb) as (tr & Hq & _ & Hrun).
    pose proof (diffuse_aggregated_unit VisModel rand_theta rand_phi points normals
                  lgtSGLobes lgtSGLambdas nsamp thr argmax_vis Hnum) as Hu.
    cbv zeta in Hrun.
    set (mean_vis := diffuse_aggregated_vis _ _ _ _ _ _ _ _ _ _) in *.
    assert (Hnan : any_nan (concat mean_vis) = false).
    { unfold any_nan. apply not_true_is_false. intros Hex.
      apply existsb_exists in Hex as (v & Hv & Hnan).
      apply in_concat in Hv as (row & Hrow & Hv).
      apply list_elem_of_In in Hv. apply list_elem_of_In in Hrow.
      rewrite Forall_forall in Hu. pose proof (Hu row Hrow) as Hr.
      rewrite Forall_forall in Hr. pose proof (Hr v Hv) as Hvv.
      destruct v; [discriminate | exact Hvv]. }
    rewrite Hnan in Hrun.
    exists tr, mean_vis. auto.
  - destruct (get_diffuse_visibility_run VisModel dbg rand_theta rand_phi batch_size
                points normals lgtSGLobes lgtSGLambdas nsamp testing thr true
                argmax_vis Hb) as (tr & Hq & _ & Hrun).
    cbv zeta in Hrun.
    eexists tr, _. split; [exact Hrun|]. split; [|split].
    + apply diffuse_per_sample_Forall; [simpl; lra|].
      intros p d. apply diffuse_reduce_unit, Hnum.
    + intros ->. apply diffuse_per_sample_Forall; [left; reflexivity|].
      intros p d. apply argmax2_binary.
    + intros k j p Hk Hj Hp Hdot.
      apply diffuse_per_sample_zero; assumption.
  - destruct (get_specular_visibility_run VisModel dbg rand_theta rand_phi batch_size
                points normals viewdirs lgtSGLobes lgtSGLambdas nsamp testing inv
                argmax_vis Hb) as (tr & Hq & _ & Hrun).
    pose proof (specular_aggregated_unit VisModel rand_theta rand_phi points normals
                  viewdirs lgtSGLobes lgtSGLambdas nsamp inv argmax_vis Hnum) as Hu.
    cbv zeta in Hrun.
    set (vis := specular_aggregated_vis _ _ _ _ _ _ _ _ _ _ _) in *.
    assert (Hnan : any_nan vis = false).
    { unfold any_nan. apply not_true_is_false. intros Hex.
      apply existsb_exists in Hex as (v & Hv & Hnan).
      apply list_elem_of_In in Hv.
      rewrite Forall_forall in Hu. pose proof (Hu v Hv) as Hvv.
      destruct v; [discriminate | exact Hvv]. }
    rewrite Hnan in Hrun.
    exists tr, vis. split; [exact Hrun|]. split; [exact Hu|]. split; [exact Hq|].
    cbv zeta. split; [|split].
    + apply specular_per_sample_Forall; [simpl; lra|].
      intros p d. apply specular_reduce_unit, Hnum.
    + intros ->. apply specular_per_sample_Forall; [left; reflexivity|].
      intros p d. unfold specular_reduce.
      destruct inv; [apply argmin2_binary | apply argmax2_binary].
    + intros p j sp Hp Hj Hdot.
      apply (specular_per_sample_zero VisModel rand_theta rand_phi points normals viewdirs
               lgtSGLobes lgtSGLambdas nsamp inv argmax_vis p j sp Hp Hj Hdot).
  - destruct (get_specular_visibility_multi_view_run VisModel dbg rand_theta rand_phi
                batch_size points normals viewdirs_mv lgtSGLobes_mv lgtSGLambdas_mv nsamp
                testing inv argmax_vis Hb) as (tr & Hq & _ & Hrun).
    pose proof (multi_view_aggregated_unit VisModel rand_theta rand_phi points normals
                  viewdirs_mv lgtSGLobes_mv lgtSGLambdas_mv nsamp) as Hu.
    cbv zeta in Hrun.
    set (vis := multi_view_aggregated_vis _ _ _ _ _ _ _ _ _) in *.
    assert (Hnan : any_nan (concat vis) = false).
    { unfold any_nan. apply not_true_is_false. intros Hex.
      apply existsb_exists in Hex as (v & Hv & Hnan).
      apply in_concat in Hv as (row & Hrow & Hv).
      apply list_elem_of_In in Hv. apply list_elem_of_In in Hrow.
      rewrite Forall_forall in Hu. pose proof (Hu row Hrow) as Hr.
      rewrite Forall_forall in Hr. pose proof (Hr v Hv) as Hvv.
      destruct v; [discriminate | exact Hvv]. }
    rewrite Hnan in Hrun.
    exists tr, vis. split; [exact Hrun|]. split; [exact Hu|]. split; [exact Hq|].
    apply multi_view_per_sample_binary.
Qed.

Lemma split_arange_single (n : nat) : length (split_arange n (S n)) = 1%nat.
Proof.
  unfold split_arange. destruct n as [|n]; [reflexivity|].
  cbn [arange_chunks]. rewrite Nat.min_r by lia.
  replace (S n - S n)%nat with 0%nat by lia.
  destruct n; reflexivity.
Qed.

(** C8.  For fixed sample draws and a predictor that is a function of one
    (point, direction) row, the chunk size of the batch-forward loop does
    not change what the samplers return: with every chunk size
    [batch_size > 0] the diffuse and the specular sampler return exactly
    what they return when all masked rows go to the predictor in one
    batch (a chunk size above the number of masked rows, for which
    [torch.split] yields a single chunk); so does the specular sampler
    in multi-view mode. *)
Theorem visibility_batching_invariant
    (VisModel : vec3 -> vec3 -> score) (dbg : trap_site -> dbg_cmd)
    (rand_theta rand_phi : nat -> nat -> R) (batch_size : nat)
    (points normals viewdirs lgtSGLobes : list vec3) (lgtSGLambdas : list R)
    (viewdirs_mv lgtSGLobes_mv : list (list vec3)) (lgtSGLambdas_mv : list (list R))
    (nsamp : nat) (testing : bool) (thr : R) (bounding inv argmax_vis : bool) :
  (0 < batch_size)%nat ->
  let n_diffuse := length (diffuse_masked_rows rand_theta rand_phi points normals
                             lgtSGLobes lgtSGLambdas nsamp thr) in
  let n_specular := length (specular_masked_rows rand_theta rand_phi points normals
                              viewdirs lgtSGLobes lgtSGLambdas nsamp) in
  let n_multi_view := length (multi_view_masked_rows rand_theta rand_phi points normals
                                viewdirs_mv lgtSGLobes_mv lgtSGLambdas_mv nsamp) in
  length (split_arange n_diffuse (S n_diffuse)) = 1%nat /\
  result_of (get_diffuse_visibility VisModel dbg rand_theta rand_phi batch_size
               points normals lgtSGLobes lgtSGLambdas nsamp testing thr bounding argmax_vis) =
  result_of (get_diffuse_visibility VisModel dbg rand_theta rand_phi (S n_diffuse)
               points normals lgtSGLobes lgtSGLambdas nsamp testing thr bounding argmax_vis) /\
  length (split_arange n_specular (S n_specular)) = 1%nat /\
  result_of (get_specular_visibility VisModel dbg rand_theta rand_phi batch_size
               points normals viewdirs lgtSGLobes lgtSGLambdas nsamp testing inv argmax_vis) =
  result_of (get_specular_visibility VisModel dbg rand_theta rand_phi (S n_specular)
               points normals viewdirs lgtSGLobes lgtSGLambdas nsamp testing inv argmax_vis) /\
  length (split_arange n_multi_view (S n_multi_view)) = 1%nat /\
  result_of (get_specular_visibility_multi_view VisModel dbg rand_theta rand_phi batch_size
               points normals viewdirs_mv lgtSGLobes_mv lgtSGLambdas_mv nsamp testing inv
               argmax_vis) =
  result_of (get_specular_visibility_multi_view VisModel dbg rand_theta rand_phi
               (S n_multi_view) points normals viewdirs_mv lgtSGLobes_mv lgtSGLambdas_mv
               nsamp testing inv argmax_vis).
Proof.
  intros Hb n_diffuse n_specular n_multi_view.
  split; [apply split_arange_single|].
  split; [|split; [apply split_arange_single|split; [|split; [apply split_arange_single|]]]].
  - destruct (get_diffuse_visibility_run VisModel dbg rand_theta rand_phi batch_size
                points normals lgtSGLobes lgtSGLambdas nsamp testing thr bounding
                argmax_vis Hb) as (tr1 & _ & _ & ->).
    destruct (get_diffuse_visibility_run VisModel dbg rand_theta rand_phi (S n_diffuse)
                points normals lgtSGLobes lgtSGLambdas nsamp testing thr bounding
                argmax_vis ltac:(lia)) as (tr2 & _ & _ & ->).
    destruct bounding; [reflexivity|].
    destruct (any_nan _); reflexivity.
  - destruct (get_specular_visibility_run VisModel dbg rand_theta rand_phi batch_size
                points normals viewdirs lgtSGLobes lgtSGLambdas nsamp testing inv
                argmax_vis Hb) as (tr1 & _ & _ & ->).
    destruct (get_specular_visibility_run VisModel dbg rand_theta rand_phi (S n_specular)
                points normals viewdirs lgtSGLobes lgtSGLambdas nsamp testing inv
                argmax_vis ltac:(lia)) as (tr2 & _ & _ & ->).
    destruct (any_nan _); reflexivity.
  - destruct (get_specular_visibility_multi_view_run VisModel dbg rand_theta rand_phi
                batch_size points normals viewdirs_mv lgtSGLobes_mv lgtSGLambdas_mv nsamp
                testing inv argmax_vis Hb) as (tr1 & _ & _ & ->).
    destruct (get_specular_visibility_multi_view_run VisModel dbg rand_theta rand_phi
                (S n_multi_view) points normals viewdirs_mv lgtSGLobes_mv lgtSGLambdas_mv
                nsamp testing inv argmax_vis ltac:(lia)) as (tr2 & _ & _ & ->).
    destruct (any_nan _); reflexivity.
Qed.

Lemma diffuse_batch_size_pos : (0 < diffuse_batch_size)%nat.
Proof.
  unfold diffuse_batch_size.
  replace 2000000%N with (N.succ 1999999) by reflexivity.
  rewrite N2Nat.inj_succ. lia.
Qed.

Lemma specular_batch_size_pos : (0 < specular_batch_size)%nat.
Proof.
  unfold specular_batch_size.
  replace 10000000%N with (N.succ 9999999) by reflexivity.
  rewrite N2Nat.inj_succ. lia.
Qed.

Lemma ex_VisModel_numeric (p d : vec3) : numeric_score (ex_VisModel p d).
Proof. split; reflexivity. Qed.

Lemma visibility_bounds_witness :
  exists tr vis,
    get_diffuse_visibility ex_VisModel ex_dbg ex_rand ex_rand 2 [V3 0 0 0] [z_axis]
      [z_axis] [1] 1 false 1 false true = (tr, Returned (VisMean vis)) /\
    Forall (Forall in_unit_interval) vis /\
    queried_rows tr = diffuse_masked_rows ex_rand ex_rand [V3 0 0 0] [z_axis] [z_axis] [1] 1 1.
Proof.
  apply (visibility_bounds ex_VisModel ex_dbg ex_rand ex_rand 2 [V3 0 0 0] [z_axis]
           [z_axis] [z_axis] [1] [[z_axis]] [[z_axis]] [[1]] 1 false 1 false true);
    [lia | exact ex_VisModel_numeric | reflexivity | reflexivity].
Defined.

(** C4 fails as stated: in argmax mode, for one point whose single sample
    is visible, the aggregated visibility returned by the diffuse sampler
    is [w / (w + 1e-6)] for the positive sample weight [w], strictly
    between 0 and 1 and so neither 0 nor 1. *)
Lemma aggregated_argmax_not_binary :
  exists tr v,
    get_diffuse_visibility ex_VisModel ex_dbg ex_rand ex_rand diffuse_batch_size
      [V3 0 0 0] [z_axis] [z_axis] [1] 1 false 1 false true =
      (tr, Returned (VisMean [[v]])) /\
    ~ is_binary v.
Proof.
  destruct (get_diffuse_visibility_run ex_VisModel ex_dbg ex_rand ex_rand
              diffuse_batch_size [V3 0 0 0] [z_axis] [z_axis] [1] 1 false 1 false true
              diffuse_batch_size_pos) as (tr & _ & _ & Hrun).
  cbv zeta in Hrun.
  destruct (diffuse_single_sample_values ex_VisModel (V3 0 0 0) true) as (_ & _ & Hagg).
  rewrite Hagg in Hrun.
  set (w := exp (1 * (dot (norm_axis z_axis) (norm_axis z_axis) - 1))) in *.
  assert (Hv : weighted_mean [diffuse_reduce true (ex_VisModel (V3 0 0 0) (norm_axis z_axis))] [w]
               = Val ((1 * w + 0) / (w + 0 + TINY_NUMBER))).
  { unfold weighted_mean, weight_sum_of, diffuse_reduce, ex_VisModel, argmax2. simpl.
    destruct (Rlt_dec 0 1) as [_|H]; [reflexivity | lra]. }
  rewrite Hv in Hrun. simpl in Hrun.
  exists tr, (Val ((1 * w + 0) / (w + 0 + TINY_NUMBER))).
  split; [exact Hrun|].
  pose proof (single_weight_fraction w (exp_pos _)) as Hw.
  intros [H|H]; injection H as H; lra.
Qed.

(** *** NaN-free values *)




Lemma in_unit_interval_num (v : tval) : in_unit_interval v -> isnan v = false.
Proof. destruct v; [reflexivity | contradiction]. Qed.




Lemma any_nan_false (l : list tval) :
  Forall (fun v => isnan v = false) l -> any_nan l = false.
Proof.
  intros H. unfold any_nan. apply not_true_is_false. intros Hex.
  apply existsb_exists in Hex as (v & Hv & Hn).
  rewrite Forall_forall in H. apply list_elem_of_In in Hv.
  rewrite (H v Hv) in Hn. discriminate.
Qed.


Lemma any_nan_Val (l : list R) : any_nan (map Val l) = false.
Proof.
  apply any_nan_false. apply Forall_forall. intros v Hv.
  apply list_elem_of_fmap in Hv as (x & -> & _). reflexivity.
Qed.

Section ShadingFacts.

Variable VisModel : vec3 -> vec3 -> score.
Variable dbg : trap_site -> dbg_cmd.
Variable kl_divergence : list (list tval) -> R -> tval.
Variable points normal viewdirs : list vec3.
Variable lgtSGs : list (list lgtSG).
Variable specular_reflectance : R.
Variable diffuse_albedo : list vec3.
Variable comp_vis lin_diff testing : bool.
Variable metallic : option (list vec3).
Variable argmax_vis : bool.






End ShadingFacts.

(** *** Results and traces of composed computations *)

Lemma result_of_bind {A B : Type} (m : M A) (k : A -> M B) :
  result_of (bind m k) =
  match result_of m with
  | Returned a => result_of (k a)
  | BdbQuit => BdbQuit
  end.
Proof.
  destruct m as [tr [a|]]; [|reflexivity].
  unfold bind, result_of. simpl. destruct (k a); reflexivity.
Qed.

Lemma trace_of_bind {A B : Type} (m : M A) (k : A -> M B) :
  trace_of (bind m k) =
  trace_of m ++ match result_of m with
                | Returned a => trace_of (k a)
                | BdbQuit => []
                end.
Proof.
  destruct m as [tr [a|]].
  - unfold bind, trace_of, result_of. simpl. destruct (k a); reflexivity.
  - unfold bind, trace_of, result_of. simpl. rewrite app_nil_r. reflexivity.
Qed.

Lemma result_of_trap_if (dbg : trap_site -> dbg_cmd) (cond : bool) (site : trap_site) :
  result_of (trap_if dbg cond site) =
  if cond then match dbg site with DbgContinue => Returned tt | DbgQuit => BdbQuit end
  else Returned tt.
Proof. destruct cond; reflexivity. Qed.

Lemma trace_of_trap_if (dbg : trap_site -> dbg_cmd) (cond : bool) (site : trap_site) :
  trace_of (trap_if dbg cond site) = if cond then [EvBreakpoint site] else [].
Proof. destruct cond; reflexivity. Qed.

Lemma trap_if_returns (dbg : trap_site -> dbg_cmd) (cond : bool) (site : trap_site) :
  cond = false \/ dbg site = DbgContinue ->
  result_of (trap_if dbg cond site) = Returned tt.
Proof.
  rewrite result_of_trap_if. intros [->| ->]; [reflexivity|]. destruct cond; reflexivity.
Qed.

(** *** Runs of the samplers that return *)

Lemma get_diffuse_visibility_returns (VisModel : vec3 -> vec3 -> score)
    (dbg : trap_site -> dbg_cmd) (rand_theta rand_phi : nat -> nat -> R)
    (batch_size : nat) (points normals lgtSGLobes : list vec3) (lgtSGLambdas : list R)
    (nsamp : nat) (testing : bool) (thr : R) (argmax_vis : bool) :
  (0 < batch_size)%nat ->
  let mean_vis := diffuse_aggregated_vis VisModel rand_theta rand_phi points normals
                    lgtSGLobes lgtSGLambdas nsamp thr argmax_vis in
  any_nan (concat mean_vis) = false \/ dbg InDiffuseVisibility = DbgContinue ->
  result_of (get_diffuse_visibility VisModel dbg rand_theta rand_phi batch_size points
               normals lgtSGLobes lgtSGLambdas nsamp testing thr false argmax_vis) =
    Returned (VisMean mean_vis) /\
  breakpoints (trace_of (get_diffuse_visibility VisModel dbg rand_theta rand_phi batch_size
                           points normals lgtSGLobes lgtSGLambdas nsamp testing thr false
                           argmax_vis)) =
    if any_nan (concat mean_vis) then [InDiffuseVisibility] else [].
Proof.
  intros Hb mean_vis Hok.
  destruct (get_diffuse_visibility_run VisModel dbg rand_theta rand_phi batch_size
              points normals lgtSGLobes lgtSGLambdas nsamp testing thr false
              argmax_vis Hb) as (tr & _ & Hbp & ->).
  cbv zeta. fold mean_vis.
  destruct (any_nan (concat mean_vis)).
  - destruct Hok as [Hok| ->]; [discriminate|].
    unfold result_of, trace_of. simpl. rewrite breakpoints_app, Hbp. auto.
  - unfold result_of, trace_of. simpl. auto.
Qed.

Lemma get_specular_visibility_returns (VisModel : vec3 -> vec3 -> score)
    (dbg : trap_site -> dbg_cmd) (rand_theta rand_phi : nat -> nat -> R)
    (batch_size : nat) (points normals viewdirs lgtSGLobes : list vec3)
    (lgtSGLambdas : list R) (nsamp : nat) (testing inv argmax_vis : bool) :
  (0 < batch_size)%nat ->
  let vis := specular_aggregated_vis VisModel rand_theta rand_phi points normals viewdirs
               lgtSGLobes lgtSGLambdas nsamp inv argmax_vis in
  any_nan vis = false \/ dbg InSpecularVisibility = DbgContinue ->
  result_of (get_specular_visibility VisModel dbg rand_theta rand_phi batch_size points
               normals viewdirs lgtSGLobes lgtSGLambdas nsamp testing inv argmax_vis) =
    Returned vis /\
  breakpoints (trace_of (get_specular_visibility VisModel dbg rand_theta rand_phi batch_size
                           points normals viewdirs lgtSGLobes lgtSGLambdas nsamp testing
                           inv argmax_vis)) =
    if any_nan vis then [InSpecularVisibility] else [].
Proof.
  intros Hb vis Hok.
  destruct (get_specular_visibility_run VisModel dbg rand_theta rand_phi batch_size
              points normals viewdirs lgtSGLobes lgtSGLambdas nsamp testing inv
              argmax_vis Hb) as (tr & _ & Hbp & ->).
  cbv zeta. fold vis.
  destruct (any_nan vis).
  - destruct Hok as [Hok| ->]; [discriminate|].
    unfold result_of, trace_of. simpl. rewrite breakpoints_app, Hbp. auto.
  - unfold result_of, trace_of. simpl. auto.
Qed.

Lemma unit_rows_no_nan (rows : list (list tval)) :
  Forall (Forall in_unit_interval) rows -> any_nan (concat rows) = false.
Proof.
  intros H. apply any_nan_false. apply Forall_forall. intros v Hv.
  apply list_elem_of_In in Hv. apply in_concat in Hv as (row & Hrow & Hv).
  apply list_elem_of_In in Hv. apply list_elem_of_In in Hrow.
  rewrite Forall_forall in H. pose proof (H row Hrow) as Hr.
  rewrite Forall_forall in Hr. apply in_unit_interval_num, Hr, Hv.
Qed.

Lemma unit_no_nan (l : list tval) :
  Forall in_unit_interval l -> Forall (fun v => isnan v = false) l.
Proof. intros H. eapply Forall_impl; [exact H|]. intros v. apply in_unit_interval_num. Qed.

Lemma in_breakpoints_app_r (site : trap_site) (t1 t2 : list event) :
  In site (breakpoints t2) -> In site (breakpoints (t1 ++ t2)).
Proof. intros H. rewrite breakpoints_app. apply in_or_app. right. exact H. Qed.

Lemma in_breakpoints_app_l (site : trap_site) (t1 t2 : list event) :
  In site (breakpoints t1) -> In site (breakpoints (t1 ++ t2)).
Proof. intros H. rewrite breakpoints_app. apply in_or_app. left. exact H. Qed.

Lemma any_nan_map_Val {A : Type} (f : A -> R) (l : list A) :
  any_nan (map (fun x => Val (f x)) l) = false.
Proof. induction l as [|x l IH]; [reflexivity | exact IH]. Qed.

Section ShadingRuns.

Variable VisModel : vec3 -> vec3 -> score.
Variable dbg : trap_site -> dbg_cmd.
Variable kl_divergence : list (list tval) -> R -> tval.
Variable points normal viewdirs : list vec3.
Variable lgtSGs : list (list lgtSG).
Variable specular_reflectance : R.
Variable diffuse_albedo : list vec3.
Variable comp_vis lin_diff testing : bool.
Variable metallic : option (list vec3).
Variable argmax_vis : bool.

(** The aggregated light visibility computed inside [render_with_sg]. *)
Let light_vis_gt_of (rand_theta rand_phi : nat -> nat -> R)
    (diffuse_vis : option (list (list R))) : list (list tval) :=
  diffuse_aggregated_vis VisModel rand_theta rand_phi points normal
    (map lgtSGLobes_of (nth 0 lgtSGs [])) (map lgtSGLambdas_of (nth 0 lgtSGs []))
    (match diffuse_vis with None => 32%nat | Some _ => 8%nat end) 1 argmax_vis.

Let light_visibility' :=
  light_visibility VisModel dbg kl_divergence points normal lgtSGs comp_vis testing
                   argmax_vis.

Lemma light_vis_at_num (v : list (list tval)) (i k : nat) :
  Forall (Forall in_unit_interval) v -> isnan (light_vis_at v i k) = false.
Proof.
  intros H. unfold light_vis_at. apply in_unit_interval_num.
  apply nth_Forall_default; [|simpl; lra].
  apply (nth_Forall_default (Forall in_unit_interval)); [exact H | constructor].
Qed.

Lemma light_visibility_run (rand_theta rand_phi : nat -> nat -> R)
      (diffuse_vis : option (list (list R))) (prefit : prefit_mode) :
  let agg := light_vis_gt_of rand_theta rand_phi diffuse_vis in
  comp_vis = false \/ any_nan (concat agg) = false \/
    dbg InDiffuseVisibility = DbgContinue ->
  exists st,
    result_of (light_visibility' rand_theta rand_phi diffuse_vis prefit) = Returned st /\
    (Forall (Forall in_unit_interval) agg ->
     match fst (fst st) with
     | Some lv => forall i k, isnan (lv i k) = false
     | None => True
     end).
Proof.
  intros agg Hok. unfold light_visibility', light_visibility.
  destruct comp_vis.
  - assert (Hok' : any_nan (concat agg) = false \/ dbg InDiffuseVisibility = DbgContinue).
    { destruct Hok as [H|H]; [discriminate | exact H]. }
    destruct (get_diffuse_visibility_returns VisModel dbg rand_theta rand_phi
                diffuse_batch_size points normal
                (map lgtSGLobes_of (nth 0 lgtSGs [])) (map lgtSGLambdas_of (nth 0 lgtSGs []))
                (match diffuse_vis with None => 32%nat | Some _ => 8%nat end)
                testing 1 argmax_vis diffuse_batch_size_pos Hok') as [Hres _].
    rewrite result_of_bind, Hres. fold agg.
    destruct diffuse_vis as [dv|]; [destruct prefit|];
      (eexists; split; [reflexivity|]); simpl; intros Hu i k;
      first [apply light_vis_at_num; exact Hu | reflexivity].
  - eexists. split; [reflexivity|]. simpl. auto.
Qed.

Lemma light_visibility_no_vis (rand_theta rand_phi : nat -> nat -> R)
      (diffuse_vis : option (list (list R))) (prefit : prefit_mode) :
  comp_vis = false ->
  light_visibility' rand_theta rand_phi diffuse_vis prefit =
  ret (None, repeat (T3 (Val 0) (Val 0) (Val 0)) (length normal), Val 0).
Proof.
  intros H. unfold light_visibility', light_visibility. rewrite H. reflexivity.
Qed.

Let specular_rgb_fn' :=
  specular_rgb_fn VisModel dbg points normal viewdirs lgtSGs specular_reflectance
                  diffuse_albedo comp_vis testing metallic argmax_vis.

Let brdf_of (roughness : list R) : list warped_brdf :=
  warped_brdfs normal viewdirs specular_reflectance diffuse_albedo metallic roughness.

Let brdf_vis_of (rand_theta rand_phi : nat -> nat -> R) (roughness : list R) : list tval :=
  specular_aggregated_vis VisModel rand_theta rand_phi points normal viewdirs
    (map warpBrdfSGLobes (brdf_of roughness)) (map warpBrdfSGLambdas (brdf_of roughness))
    8 (negb comp_vis) argmax_vis.

Lemma specular_rgb_fn_run (rand_theta rand_phi : nat -> nat -> R) (roughness : list R) :
  let vis := brdf_vis_of rand_theta rand_phi roughness in
  let spec := specular_rgb_sg normal lgtSGs (brdf_of roughness) vis in
  any_nan vis = false \/ dbg InSpecularVisibility = DbgContinue ->
  any_nan (flat_map tvec3_channels spec) = false \/ dbg InSpecularRgb = DbgContinue ->
  result_of (specular_rgb_fn' rand_theta rand_phi roughness) = Returned spec /\
  (any_nan (flat_map tvec3_channels spec) = true ->
   In InSpecularRgb (breakpoints (trace_of (specular_rgb_fn' rand_theta rand_phi roughness)))).
Proof.
  intros vis spec Hv Hs.
  unfold specular_rgb_fn', specular_rgb_fn. cbv zeta.
  fold (brdf_of roughness).
  rewrite any_nan_map_Val, trap_if_false.
  destruct (get_specular_visibility_returns VisModel dbg rand_theta rand_phi
              specular_batch_size points normal viewdirs
              (map warpBrdfSGLobes (brdf_of roughness))
              (map warpBrdfSGLambdas (brdf_of roughness))
              8 testing (negb comp_vis) argmax_vis specular_batch_size_pos Hv)
    as [Hres _].
  fold (brdf_vis_of rand_theta rand_phi roughness) in Hres. fold vis in Hres.
  split.
  - rewrite !result_of_bind. simpl. rewrite Hres. fold spec.
    rewrite result_of_bind, (trap_if_returns _ _ _ Hs). reflexivity.
  - intros Hnan.
    rewrite !trace_of_bind. simpl. rewrite Hres. fold spec.
    rewrite trace_of_bind, trace_of_trap_if, Hnan.
    apply in_breakpoints_app_r. simpl. left. reflexivity.
Qed.

Let render_with_sg' :=
  render_with_sg VisModel dbg kl_divergence points normal viewdirs lgtSGs
                 specular_reflectance diffuse_albedo comp_vis lin_diff testing metallic
                 argmax_vis.

Let diffuse_of (light_vis : option (nat -> nat -> tval))
               (indir_integral : option (list vec3)) : list tvec3 :=
  diffuse_rgb_override diffuse_albedo lin_diff indir_integral
    (diffuse_rgb_sg normal lgtSGs diffuse_albedo lin_diff light_vis).

(** What [render_with_sg] returns once the light-visibility block has
    returned [st] and the diffuse check has let the call go on. *)
Lemma render_with_sg_run
      (rand_d_theta rand_d_phi rand_s_theta rand_s_phi : nat -> nat -> R)
      (roughness : list R) (fun_spec : bool) (indir_integral : option (list vec3))
      (diffuse_vis : option (list (list R))) (prefit : prefit_mode)
      (st : option (nat -> nat -> tval) * list tvec3 * tval) :
  result_of (light_visibility' rand_d_theta rand_d_phi diffuse_vis prefit) = Returned st ->
  let d := diffuse_of (fst (fst st)) indir_integral in
  any_nan (flat_map tvec3_channels d) = false \/ dbg InDiffuseRgb = DbgContinue ->
  result_of (render_with_sg' rand_d_theta rand_d_phi rand_s_theta rand_s_phi roughness
               fun_spec indir_integral diffuse_vis prefit) =
  if fun_spec then
    Returned (ShadingOutput d (SpecularDeferred specular_rgb_fn') d (snd (fst st)) (snd st))
  else
    match result_of (specular_rgb_fn' rand_s_theta rand_s_phi roughness) with
    | Returned spec =>
        Returned (ShadingOutput (zip_with (tvec3_map2 tadd) spec d) (SpecularValue spec) d
                                (snd (fst st)) (snd st))
    | BdbQuit => BdbQuit
    end.
Proof.
  intros Hst d Hd. unfold render_with_sg', render_with_sg.
  fold light_visibility'. rewrite result_of_bind, Hst. cbv zeta.
  fold (diffuse_of (fst (fst st)) indir_integral). fold d.
  rewrite result_of_bind, (trap_if_returns _ _ _ Hd).
  destruct fun_spec; [reflexivity|].
  fold specular_rgb_fn'. rewrite result_of_bind.
  destruct (result_of (specular_rgb_fn' rand_s_theta rand_s_phi roughness)); reflexivity.
Qed.

(** Conversely, whatever [render_with_sg] returns has this shape, and a
    NaN in its diffuse radiance has passed the breakpoint. *)
Lemma render_with_sg_inv
      (rand_d_theta rand_d_phi rand_s_theta rand_s_phi : nat -> nat -> R)
      (roughness : list R) (fun_spec : bool) (indir_integral : option (list vec3))
      (diffuse_vis : option (list (list R))) (prefit : prefit_mode)
      (out : shading_output) :
  result_of (render_with_sg' rand_d_theta rand_d_phi rand_s_theta rand_s_phi roughness
               fun_spec indir_integral diffuse_vis prefit) = Returned out ->
  exists st,
    result_of (light_visibility' rand_d_theta rand_d_phi diffuse_vis prefit) = Returned st /\
    let d := diffuse_of (fst (fst st)) indir_integral in
    sg_diffuse_rgb out = d /\
    (if fun_spec then
       sg_rgb out = d /\ sg_specular_rgb out = SpecularDeferred specular_rgb_fn'
     else
       exists spec,
         result_of (specular_rgb_fn' rand_s_theta rand_s_phi roughness) = Returned spec /\
         sg_specular_rgb out = SpecularValue spec /\
         sg_rgb out = zip_with (tvec3_map2 tadd) spec d) /\
    (any_nan (flat_map tvec3_channels d) = true ->
     dbg InDiffuseRgb = DbgContinue /\
     In InDiffuseRgb
        (breakpoints (trace_of (render_with_sg' rand_d_theta rand_d_phi rand_s_theta
                                  rand_s_phi roughness fun_spec indir_integral
                                  diffuse_vis prefit)))).
Proof.
  unfold render_with_sg', render_with_sg. fold light_visibility'.
  rewrite result_of_bind, trace_of_bind.
  destruct (result_of (light_visibility' rand_d_theta rand_d_phi diffuse_vis prefit))
    as [st|]; [|discriminate].
  cbv zeta. fold (diffuse_of (fst (fst st)) indir_integral).
  set (d := diffuse_of (fst (fst st)) indir_integral).
  rewrite result_of_bind, trace_of_bind, result_of_trap_if, trace_of_trap_if.
  intros Hout. exists st. split; [reflexivity|].
  assert (Hgo : any_nan (flat_map tvec3_channels d) = true ->
                dbg InDiffuseRgb = DbgContinue).
  { intros Hn. rewrite Hn in Hout. destruct (dbg InDiffuseRgb); [reflexivity | discriminate]. }
  assert (Hshape :
            sg_diffuse_rgb out = d /\
            (if fun_spec then
               sg_rgb out = d /\ sg_specular_rgb out = SpecularDeferred specular_rgb_fn'
             else
               exists spec,
                 result_of (specular_rgb_fn' rand_s_theta rand_s_phi roughness) =
                   Returned spec /\
                 sg_specular_rgb out = SpecularValue spec /\
                 sg_rgb out = zip_with (tvec3_map2 tadd) spec d)).
  { assert (Hk : (if fun_spec
                  then result_of (ret (ShadingOutput d (SpecularDeferred specular_rgb_fn') d
                                         (snd (fst st)) (snd st)))
                  else result_of
                         (do specular_rgb <- specular_rgb_fn' rand_s_theta rand_s_phi roughness;
                          ret (ShadingOutput (zip_with (tvec3_map2 tadd) specular_rgb d)
                                 (SpecularValue specular_rgb) d (snd (fst st)) (snd st))))
                 = Returned out).
    { destruct (any_nan (flat_map tvec3_channels d)); [destruct (dbg InDiffuseRgb)|];
        try discriminate; destruct fun_spec; exact Hout. }
    destruct fun_spec.
    - injection Hk as <-. simpl. auto.
    - rewrite result_of_bind in Hk.
      destruct (result_of (specular_rgb_fn' rand_s_theta rand_s_phi roughness))
        as [spec|]; [|discriminate].
      injection Hk as <-. simpl. split; [reflexivity|]. exists spec. auto. }
  destruct Hshape as [H1 H2]. split; [exact H1|]. split; [exact H2|].
  intros Hn. split; [apply Hgo, Hn|].
  apply in_breakpoints_app_r, in_breakpoints_app_l.
  change (any_nan (flat_map tvec3_channels d) = true) in Hn.
  rewrite Hn. simpl. left. reflexivity.
Qed.

End ShadingRuns.


Section ShadingTheorems.

Variable VisModel : vec3 -> vec3 -> score.
Variable dbg : trap_site -> dbg_cmd.
Variable kl_divergence : list (list tval) -> R -> tval.
Variable points normal viewdirs : list vec3.
Variable lgtSGs : list (list lgtSG).
Variable specular_reflectance : R.
Variable diffuse_albedo : list vec3.
Variable comp_vis lin_diff testing : bool.
Variable metallic : option (list vec3).
Variable argmax_vis : bool.

Let render_with_sg' :=
  render_with_sg VisModel dbg kl_divergence points normal viewdirs lgtSGs
                 specular_reflectance diffuse_albedo comp_vis lin_diff testing metallic
                 argmax_vis.

Let specular_rgb_fn' :=
  specular_rgb_fn VisModel dbg points normal viewdirs lgtSGs specular_reflectance
                  diffuse_albedo comp_vis testing metallic argmax_vis.


(** Under an operator who always resumes, the evaluator returns. *)
Lemma specular_rgb_fn_continue (rand_theta rand_phi : nat -> nat -> R) (roughness : list R) :
  (forall site, dbg site = DbgContinue) ->
  exists spec, result_of (specular_rgb_fn' rand_theta rand_phi roughness) = Returned spec.
Proof.
  intros Hc.
  destruct (specular_rgb_fn_run VisModel dbg points normal viewdirs lgtSGs
              specular_reflectance diffuse_albedo comp_vis testing metallic argmax_vis
              rand_theta rand_phi roughness) as [Hres _]; [right; apply Hc .. |].
  eexists. exact Hres.
Qed.


(** Under an operator who always resumes, [render_with_sg] returns. *)
Lemma render_with_sg_continue
    (rand_d_theta rand_d_phi rand_s_theta rand_s_phi : nat -> nat -> R)
    (roughness : list R) (fun_spec : bool) (indir_integral : option (list vec3))
    (diffuse_vis : option (list (list R))) (prefit : prefit_mode) :
  (forall site, dbg site = DbgContinue) ->
  exists out,
    result_of (render_with_sg' rand_d_theta rand_d_phi rand_s_theta rand_s_phi roughness
                 fun_spec indir_integral diffuse_vis prefit) = Returned out.
Proof.
  intros Hc.
  destruct (light_visibility_run VisModel dbg kl_divergence points normal lgtSGs comp_vis
              testing argmax_vis rand_d_theta rand_d_phi diffuse_vis prefit)
    as (st & Hst & _).
  { right; right. apply Hc. }
  pose proof (render_with_sg_run VisModel dbg kl_divergence points normal viewdirs lgtSGs
                specular_reflectance diffuse_albedo comp_vis lin_diff testing metallic
                argmax_vis rand_d_theta rand_d_phi rand_s_theta rand_s_phi roughness
                fun_spec indir_integral diffuse_vis prefit st Hst
                (or_intror (Hc InDiffuseRgb))) as Hrun.
  fold render_with_sg' in Hrun. rewrite Hrun.
  destruct fun_spec; [eexists; reflexivity|].
  destruct (specular_rgb_fn_continue rand_s_theta rand_s_phi roughness Hc) as (spec & Hs).
  fold specular_rgb_fn'. rewrite Hs. eexists; reflexivity.
Qed.

(** A NaN in what the specular evaluator returns has passed its
    breakpoint. *)
Lemma specular_rgb_fn_inv (rand_theta rand_phi : nat -> nat -> R) (roughness : list R)
      (spec : list tvec3) :
  result_of (specular_rgb_fn' rand_theta rand_phi roughness) = Returned spec ->
  any_nan (flat_map tvec3_channels spec) = true ->
  dbg InSpecularRgb = DbgContinue /\
  In InSpecularRgb (breakpoints (trace_of (specular_rgb_fn' rand_theta rand_phi roughness))).
Proof.
  unfold specular_rgb_fn', specular_rgb_fn. cbv zeta.
  rewrite any_nan_map_Val, trap_if_false.
  rewrite !result_of_bind, !trace_of_bind. simpl.
  destruct (result_of (get_specular_visibility _ _ _ _ _ _ _ _ _ _ _ _ _ _))
    as [vis|]; [|discriminate].
  rewrite result_of_bind, trace_of_bind, result_of_trap_if, trace_of_trap_if.
  set (s := specular_rgb_sg _ _ _ _).
  destruct (any_nan (flat_map tvec3_channels s)) eqn:Hs.
  - destruct (dbg InSpecularRgb); [|discriminate].
    intros _ _. split; [reflexivity|].
    apply in_breakpoints_app_r, in_breakpoints_app_l. simpl. left. reflexivity.
  - simpl. intros Heq Hn. injection Heq as <-. rewrite Hs in Hn. discriminate.
Qed.


(** The NaN checks on the diffuse and on the specular radiance of the
    shading engine are debugger breakpoints: a
    radiance that is returned with a NaN in it has passed the breakpoint
    of its check and the operator has resumed; the NaN is returned as it
    is.  With an operator who resumes at every breakpoint the call
    returns, it does not abort. *)
Lemma radiance_nan_checks
    (rand_d_theta rand_d_phi rand_s_theta rand_s_phi : nat -> nat -> R)
    (roughness : list R) (fun_spec : bool) (indir_integral : option (list vec3))
    (diffuse_vis : option (list (list R))) (prefit : prefit_mode) :
  let call := render_with_sg' rand_d_theta rand_d_phi rand_s_theta rand_s_phi roughness
                fun_spec indir_integral diffuse_vis prefit in
  (forall out, result_of call = Returned out ->
     any_nan (flat_map tvec3_channels (sg_diffuse_rgb out)) = true ->
     dbg InDiffuseRgb = DbgContinue /\ In InDiffuseRgb (breakpoints (trace_of call))) /\
  (forall rand_theta rand_phi roughness' spec,
     result_of (specular_rgb_fn' rand_theta rand_phi roughness') = Returned spec ->
     any_nan (flat_map tvec3_channels spec) = true ->
     dbg InSpecularRgb = DbgContinue /\
     In InSpecularRgb
        (breakpoints (trace_of (specular_rgb_fn' rand_theta rand_phi roughness')))) /\
  ((forall site, dbg site = DbgContinue) -> exists out, result_of call = Returned out).
Proof.
  intros call. split; [|split].
  - intros out Hout Hn.
    destruct (render_with_sg_inv VisModel dbg kl_divergence points normal viewdirs lgtSGs
                specular_reflectance diffuse_albedo comp_vis lin_diff testing metallic
                argmax_vis rand_d_theta rand_d_phi rand_s_theta rand_s_phi roughness
                fun_spec indir_integral diffuse_vis prefit out Hout)
      as (st & _ & Hd & _ & Hbp).
    rewrite Hd in Hn. apply Hbp, Hn.
  - intros rand_theta rand_phi roughness' spec. apply specular_rgb_fn_inv.
  - apply render_with_sg_continue.
Qed.

End ShadingTheorems.






(** C6 (as the code has it).  Every NaN check of the renderer is a
    debugger breakpoint ([ipdb.set_trace()]), not an abort:
    - the diffuse sampler on its aggregating return path and the specular
      sampler reach their breakpoint exactly when the aggregated
      visibility contains NaN, and once the operator resumes they return
      that tensor unchanged, NaN included (only leaving the debugger with
      [q] ends the call, by [BdbQuit]);
    - a diffuse or specular radiance that the shading engine returns with
      a NaN in it has passed the breakpoint of its check;
    - with an operator who resumes at every breakpoint the shading call
      returns. *)
Theorem nan_checks_are_breakpoints
    (VisModel : vec3 -> vec3 -> score) (dbg : trap_site -> dbg_cmd)
    (kl_divergence : list (list tval) -> R -> tval)
    (points normal viewdirs : list vec3) (lgtSGs : list (list lgtSG))
    (specular_reflectance : R) (diffuse_albedo : list vec3)
    (comp_vis lin_diff testing : bool) (metallic : option (list vec3))
    (argmax_vis : bool)
    (rand_theta rand_phi rand_s_theta rand_s_phi : nat -> nat -> R)
    (batch_size : nat) (lgtSGLobes : list vec3) (lgtSGLambdas : list R)
    (nsamp : nat) (thr : R) (inv : bool)
    (roughness : list R) (fun_spec : bool) (indir_integral : option (list vec3))
    (diffuse_vis : option (list (list R))) (prefit : prefit_mode) :
  (0 < batch_size)%nat ->
  let mean_vis := diffuse_aggregated_vis VisModel rand_theta rand_phi points normal
                    lgtSGLobes lgtSGLambdas nsamp thr argmax_vis in
  let diffuse_call := get_diffuse_visibility VisModel dbg rand_theta rand_phi batch_size
                        points normal lgtSGLobes lgtSGLambdas nsamp testing thr false
                        argmax_vis in
  let spec_vis := specular_aggregated_vis VisModel rand_theta rand_phi points normal
                    viewdirs lgtSGLobes lgtSGLambdas nsamp inv argmax_vis in
  let specular_call := get_specular_visibility VisModel dbg rand_theta rand_phi batch_size
                         points normal viewdirs lgtSGLobes lgtSGLambdas nsamp testing inv
                         argmax_vis in
  let specular_fn := specular_rgb_fn VisModel dbg points normal viewdirs lgtSGs
                       specular_reflectance diffuse_albedo comp_vis testing metallic
                       argmax_vis in
  let render_call := render_with_sg VisModel dbg kl_divergence points normal viewdirs
                       lgtSGs specular_reflectance diffuse_albedo comp_vis lin_diff
                       testing metallic argmax_vis rand_theta rand_phi rand_s_theta
                       rand_s_phi roughness fun_spec indir_integral diffuse_vis prefit in
  (breakpoints (trace_of diffuse_call) =
     (if any_nan (concat mean_vis) then [InDiffuseVisibility] else []) /\
   result_of diffuse_call =
     (if any_nan (concat mean_vis) then
        match dbg InDiffuseVisibility with
        | DbgContinue => Returned (VisMean mean_vis)
        | DbgQuit => BdbQuit
        end
      else Returned (VisMean mean_vis))) /\
  (breakpoints (trace_of specular_call) =
     (if any_nan spec_vis then [InSpecularVisibility] else []) /\
   result_of specular_call =
     (if any_nan spec_vis then
        match dbg InSpecularVisibility with
        | DbgContinue => Returned spec_vis
        | DbgQuit => BdbQuit
        end
      else Returned spec_vis)) /\
  (forall out, result_of render_call = Returned out ->
     any_nan (flat_map tvec3_channels (sg_diffuse_rgb out)) = true ->
     dbg InDiffuseRgb = DbgContinue /\
     In InDiffuseRgb (breakpoints (trace_of render_call))) /\
  (forall rand_theta' rand_phi' roughness' spec,
     result_of (specular_fn rand_theta' rand_phi' roughness') = Returned spec ->
     any_nan (flat_map tvec3_channels spec) = true ->
     dbg InSpecularRgb = DbgContinue /\
     In InSpecularRgb
        (breakpoints (trace_of (specular_fn rand_theta' rand_phi' roughness')))) /\
  ((forall site, dbg site = DbgContinue) ->
   exists out, result_of render_call = Returned out).
Proof.
  intros Hb mean_vis diffuse_call spec_vis specular_call specular_fn render_call.
  split; [|split].
  - destruct (get_diffuse_visibility_run VisModel dbg rand_theta rand_phi batch_size
                points normal lgtSGLobes lgtSGLambdas nsamp testing thr false
                argmax_vis Hb) as (tr & _ & Hbp & Hrun).
    unfold diffuse_call. rewrite Hrun. cbv zeta. fold mean_vis.
    destruct (any_nan (concat mean_vis)); unfold trace_of, result_of; simpl.
    + rewrite breakpoints_app, Hbp. auto.
    + auto.
  - destruct (get_specular_visibility_run VisModel dbg rand_theta rand_phi batch_size
                points normal viewdirs lgtSGLobes lgtSGLambdas nsamp testing inv
                argmax_vis Hb) as (tr & _ & Hbp & Hrun).
    unfold specular_call. rewrite Hrun. cbv zeta. fold spec_vis.
    destruct (any_nan spec_vis); unfold trace_of, result_of; simpl.
    + rewrite breakpoints_app, Hbp. auto.
    + auto.
  - apply (radiance_nan_checks VisModel dbg kl_divergence points normal viewdirs lgtSGs
             specular_reflectance diffuse_albedo comp_vis lin_diff testing metallic
             argmax_vis rand_theta rand_phi rand_s_theta rand_s_phi roughness fun_spec
             indir_integral diffuse_vis prefit).
Qed.

Lemma nan_checks_are_breakpoints_witness :
  exists out,
    result_of (render_with_sg ex_VisModel_nan ex_dbg ex_kl_divergence [V3 0 0 0] [z_axis]
                 [z_axis] ex_lgtSGs (1 / 25) ex_albedo true false false None false
                 ex_rand ex_rand ex_rand ex_rand [1 / 2] false None None PrefitOther) =
      Returned out.
Proof.
  apply (nan_checks_are_breakpoints ex_VisModel_nan ex_dbg ex_kl_divergence [V3 0 0 0]
           [z_axis] [z_axis] ex_lgtSGs (1 / 25) ex_albedo true false false None false
           ex_rand ex_rand ex_rand ex_rand 2 [z_axis] [1] 1 1 false
           [1 / 2] false None None PrefitOther); [lia|].
  intros site. reflexivity.
Defined.

(** C6 fails as stated: with a predictor that returns NaN scores and an
    operator who resumes, the diffuse sampler returns the aggregated
    visibility NaN for its single point and lobe, and on the bounding
    return path it returns the per-sample NaN without reaching any
    breakpoint. *)
Lemma nan_visibility_is_returned :
  result_of (get_diffuse_visibility ex_VisModel_nan ex_dbg ex_rand ex_rand
               diffuse_batch_size [V3 0 0 0] [z_axis] [z_axis] [1] 1 false 1 false false) =
    Returned (VisMean [[NaN]]) /\
  exists tr,
    get_diffuse_visibility ex_VisModel_nan ex_dbg ex_rand ex_rand
      diffuse_batch_size [V3 0 0 0] [z_axis] [z_axis] [1] 1 false 1 true false =
      (tr, Returned (VisPerSample [[[NaN]]])) /\
    breakpoints tr = [].
Proof.
  destruct (diffuse_single_sample_values ex_VisModel_nan (V3 0 0 0) false)
    as (_ & Hps & Hagg).
  split.
  - destruct (get_diffuse_visibility_run ex_VisModel_nan ex_dbg ex_rand ex_rand
                diffuse_batch_size [V3 0 0 0] [z_axis] [z_axis] [1] 1 false 1 false false
                diffuse_batch_size_pos) as (tr & _ & _ & Hrun).
    cbv zeta in Hrun. rewrite Hagg in Hrun. rewrite Hrun. reflexivity.
  - destruct (get_diffuse_visibility_run ex_VisModel_nan ex_dbg ex_rand ex_rand
                diffuse_batch_size [V3 0 0 0] [z_axis] [z_axis] [1] 1 false 1 true false
                diffuse_batch_size_pos) as (tr & _ & Hbp & Hrun).
    cbv zeta in Hrun. rewrite Hps in Hrun.
    exists tr. split; [exact Hrun | exact Hbp].
Qed.

Lemma visibility_batching_invariant_witness :
  result_of (get_diffuse_visibility ex_VisModel ex_dbg ex_rand ex_rand 2
               [V3 0 0 0; V3 1 0 0; V3 0 1 0] [z_axis; z_axis; z_axis] [z_axis] [1]
               4 false 1 false false) =
  result_of (get_diffuse_visibility ex_VisModel ex_dbg ex_rand ex_rand
               (S (length (diffuse_masked_rows ex_rand ex_rand
                             [V3 0 0 0; V3 1 0 0; V3 0 1 0] [z_axis; z_axis; z_axis]
                             [z_axis] [1] 4 1)))
               [V3 0 0 0; V3 1 0 0; V3 0 1 0] [z_axis; z_axis; z_axis] [z_axis] [1]
               4 false 1 false false).
Proof.
  apply (visibility_batching_invariant ex_VisModel ex_dbg ex_rand ex_rand 2
           [V3 0 0 0; V3 1 0 0; V3 0 1 0] [z_axis; z_axis; z_axis] [z_axis; z_axis; z_axis]
           [z_axis] [1] [[z_axis; z_axis; z_axis]] [[z_axis; z_axis; z_axis]] [[1; 1; 1]]
           4 false 1 false false false).
  lia.
Defined.

(** *** Denominators *)

Lemma dot_cauchy_schwarz (a b : vec3) : dot a b * dot a b <= dot a a * dot b b.
Proof.
  destruct a as [a1 a2 a3], b as [b1 b2 b3]. unfold dot. simpl.
  pose proof (Rle_0_sqr (a1 * b2 - a2 * b1)).
  pose proof (Rle_0_sqr (a1 * b3 - a3 * b1)).
  pose proof (Rle_0_sqr (a2 * b3 - a3 * b2)).
  unfold Rsqr in *. nra.
Qed.

Lemma norm_sqr (a : vec3) : norm a * norm a = dot a a.
Proof. unfold norm. apply sqrt_sqrt, dot_self_nonneg. Qed.

Lemma dot_le_norms (a b : vec3) :
  - (norm a * norm b) <= dot a b <= norm a * norm b.
Proof.
  pose proof (dot_cauchy_schwarz a b) as Hcs.
  rewrite <- (norm_sqr a), <- (norm_sqr b) in Hcs.
  pose proof (norm_nonneg a) as Ha. pose proof (norm_nonneg b) as Hb.
  assert (Hp : 0 <= norm a * norm b) by (apply Rmult_le_pos; assumption).
  set (p := norm a * norm b) in *. set (d := dot a b) in *.
  assert (Hd : d * d <= p * p) by (unfold p; nra).
  split; nra.
Qed.


(** Dividing by the norm plus epsilon leaves a vector shorter than 1. *)
Lemma norm_guarded_lt_1 (x : vec3) : norm (vdiv x (norm x + TINY_NUMBER)) < 1.
Proof.
  pose proof TINY_NUMBER_pos as He. pose proof (norm_nonneg x) as Hn.
  set (d := norm x + TINY_NUMBER). assert (Hd : 0 < d) by (unfold d; lra).
  assert (Hq : dot (vdiv x d) (vdiv x d) = (norm x / d) * (norm x / d)).
  { transitivity (dot x x / (d * d)).
    - unfold dot, vdiv. simpl. field. lra.
    - rewrite <- norm_sqr. field. lra. }
  unfold norm at 1. rewrite Hq.
  rewrite sqrt_square.
  - apply (Rmult_lt_reg_r d); [exact Hd|].
    unfold Rdiv. rewrite Rmult_assoc, Rinv_l by lra. unfold d. lra.
  - apply Rmult_le_pos; [exact Hn | left; apply Rinv_0_lt_compat; exact Hd].
Qed.

Lemma norm_axis_lt_1 (x : vec3) : norm (norm_axis x) < 1.
Proof. apply norm_guarded_lt_1. Qed.

Lemma dot_norm_axis_bounds (a b : vec3) : -1 < dot (norm_axis a) (norm_axis b) < 1.
Proof.
  pose proof (dot_le_norms (norm_axis a) (norm_axis b)) as H.
  pose proof (norm_axis_lt_1 a) as Ha. pose proof (norm_axis_lt_1 b) as Hb.
  pose proof (norm_nonneg (norm_axis a)). pose proof (norm_nonneg (norm_axis b)).
  split; nra.
Qed.


Lemma lambda_trick_tmp_pos (lobe1 : vec3) (lambda1 : R) (lobe2 : vec3) (lambda2 : R) :
  0 <= lambda1 -> 0 < lambda2 -> 0 < lambda_trick_tmp lobe1 lambda1 lobe2 lambda2.
Proof.
  intros H1 H2. unfold lambda_trick_tmp. cbv zeta.
  assert (Hr : 0 <= lambda1 / lambda2).
  { apply Rmult_le_pos; [exact H1 | left; apply Rinv_0_lt_compat; exact H2]. }
  set (r := lambda1 / lambda2) in *.
  pose proof (dot_norm_axis_bounds lobe1 lobe2) as Hd.
  set (d := dot (norm_axis lobe1) (norm_axis lobe2)) in *.
  apply Rmin_glb_lt; [|lra].
  apply sqrt_lt_R0.
  replace (r * r + 1 + 2 * r * d) with ((r - 1) * (r - 1) + 2 * (r * (1 + d))) by ring.
  destruct Hr as [Hr|Hr].
  - assert (0 < r * (1 + d)) by (apply Rmult_lt_0_compat; lra).
    pose proof (Rle_0_sqr (r - 1)) as Hs. unfold Rsqr in Hs. lra.
  - rewrite <- Hr. lra.
Qed.



Lemma clamp_min_ge (x lo : R) : lo <= clamp_min x lo.
Proof. unfold clamp_min. apply Rmax_r. Qed.


Lemma specular_sharpness_pos (l : R) : 0 < specular_sharpness l.
Proof.
  unfold specular_sharpness.
  apply Rmin_glb_lt; [|lra].
  apply Rlt_le_trans with 0.1; [lra | apply Rmax_r].
Qed.




(** *** The grid of the environment map *)

Lemma linspace_length (a b : R) (n : nat) : length (linspace a b n) = n.
Proof.
  unfold linspace. destruct n as [|[|n]]; [reflexivity | reflexivity |].
  rewrite length_map, length_seq. reflexivity.
Qed.

Lemma linspace_nth (a b : R) (n i : nat) (d : R) :
  (i < n)%nat -> (2 <= n)%nat ->
  nth i (linspace a b n) d = a + INR i * ((b - a) / INR (n - 1)).
Proof.
  intros Hi Hn. unfold linspace. destruct n as [|[|n]]; [lia | lia |].
  apply (nth_map_seq (fun i => a + INR i * ((b - a) / INR (S (S n) - 1)))). exact Hi.
Qed.

Lemma linspace_one (a b d : R) : nth 0 (linspace a b 1) d = a.
Proof. reflexivity. Qed.

Lemma grid_direction_unit (phi theta : R) : norm (grid_direction phi theta) = 1.
Proof.
  unfold norm, dot, grid_direction. simpl.
  replace (cos theta * sin phi * (cos theta * sin phi) +
           sin theta * sin phi * (sin theta * sin phi) + cos phi * cos phi)
    with ((sin theta * sin theta + cos theta * cos theta) * (sin phi * sin phi) +
          cos phi * cos phi) by ring.
  pose proof (sin2_cos2 theta) as Ht. pose proof (sin2_cos2 phi) as Hp.
  unfold Rsqr in *. rewrite Ht, Rmult_1_l, Hp. apply sqrt_1.
Qed.

(** *** Bounds on the SG basis sum *)

Lemma envmap_lobe_bounds (channel : vec3 -> R) (viewdir : vec3) (sg : lgtSG) :
  norm viewdir = 1 -> norm (sg_axis sg) <> 0 ->
  0 <= envmap_lobe channel viewdir sg <= Rabs (channel (sg_mu sg)).
Proof.
  intros Hv Hs. unfold envmap_lobe, render_envmap_sg_denom. cbv zeta.
  pose proof (norm_nonneg (sg_axis sg)) as Hn.
  set (lobe := vdiv (sg_axis sg) (norm (sg_axis sg))).
  assert (Hl : norm lobe = 1).
  { assert (Hq : dot lobe lobe = 1).
    { unfold lobe. transitivity (dot (sg_axis sg) (sg_axis sg) /
                                 (norm (sg_axis sg) * norm (sg_axis sg))).
      - unfold dot, vdiv. simpl. field. exact Hs.
      - rewrite norm_sqr. field. rewrite <- norm_sqr. nra. }
    unfold norm. rewrite Hq. apply sqrt_1. }
  pose proof (dot_le_norms viewdir lobe) as Hd. rewrite Hv, Hl in Hd.
  pose proof (Rabs_pos (sg_lambda sg)) as Hlam.
  pose proof (Rabs_pos (channel (sg_mu sg))) as Hmu.
  pose proof (exp_nonpos_le_1 (Rabs (sg_lambda sg) * (dot viewdir lobe - 1))
                ltac:(nra)) as He.
  split; nra.
Qed.

(** The sum of the amplitudes of one channel, the largest value a pixel
    of the environment map can take. *)
Lemma render_envmap_sg_bounds (channel : vec3 -> R) (lgtSGs : list lgtSG) (viewdir : vec3) :
  norm viewdir = 1 ->
  Forall (fun sg => norm (sg_axis sg) <> 0) lgtSGs ->
  0 <= Rsum (map (envmap_lobe channel viewdir) lgtSGs)
    <= Rsum (map (fun sg => Rabs (channel (sg_mu sg))) lgtSGs).
Proof.
  intros Hv. induction 1 as [|sg l Hsg _ IH]; simpl; [lra|].
  pose proof (envmap_lobe_bounds channel viewdir sg Hv Hsg). lra.
Qed.

(** *** [atan2] of a point given in polar coordinates *)

Lemma tan_shift_PI (x : R) : cos x <> 0 -> tan (x + PI) = tan x.
Proof.
  intros Hc. unfold tan. rewrite neg_sin, neg_cos. field. exact Hc.
Qed.

Lemma atan2_polar (r theta : R) :
  0 < r -> - PI < theta <= PI ->
  atan2 (sin theta * r) (cos theta * r) = theta.
Proof.
  intros Hr Ht. unfold atan2.
  pose proof PI_RGT_0 as Hp.
  assert (Hq : cos theta <> 0 -> sin theta * r / (cos theta * r) = tan theta).
  { intros Hc. unfold tan. field. split; lra. }
  destruct (total_order_T (cos theta * r) 0) as [[Hneg|Hz]|Hpos].
  - assert (Hc : cos theta < 0) by nra.
    rewrite Hq by lra.
    destruct (Rle_dec 0 (sin theta * r)) as [Hs|Hs].
    + assert (Hs' : 0 <= sin theta) by nra.
      assert (Hrange : PI / 2 < theta).
      { destruct (Rlt_dec (PI / 2) theta) as [H|H]; [exact H|]. exfalso.
        destruct (Rle_dec 0 theta) as [H0|H0].
        - pose proof (cos_ge_0 theta ltac:(lra) ltac:(lra)). lra.
        - destruct (Rle_dec (- (PI / 2)) theta) as [H1|H1].
          + pose proof (cos_ge_0 theta ltac:(lra) ltac:(lra)). lra.
          + pose proof (sin_lt_0_var theta ltac:(lra) ltac:(lra)). lra. }
      replace theta with ((theta - PI) + PI) at 1 by ring.
      rewrite tan_shift_PI.
      * rewrite atan_tan; [ring|]. split; lra.
      * replace (theta - PI) with (theta + - PI) by ring.
        rewrite cos_plus, cos_neg, sin_neg, cos_PI, sin_PI. lra.
    + assert (Hs' : sin theta < 0) by nra.
      assert (Hrange : theta < - (PI / 2)).
      { destruct (Rlt_dec theta (- (PI / 2))) as [H|H]; [exact H|]. exfalso.
        destruct (Rle_dec theta (PI / 2)) as [H0|H0].
        - pose proof (cos_ge_0 theta ltac:(lra) ltac:(lra)). lra.
        - pose proof (sin_ge_0 theta ltac:(lra) ltac:(lra)). lra. }
      rewrite <- (tan_shift_PI theta) by lra.
      rewrite atan_tan; [ring|]. split; lra.
  - assert (Hc : cos theta = 0) by nra.
    pose proof (sin2_cos2 theta) as H2. unfold Rsqr in H2. rewrite Hc in H2.
    destruct (total_order_T (sin theta * r) 0) as [[Hsn|Hsz]|Hsp].
    + assert (Hs : sin theta < 0) by nra.
      destruct (Req_dec theta (- (PI / 2))) as [->|Hne]; [reflexivity|]. exfalso.
      destruct (Rlt_dec theta (- (PI / 2))) as [H|H].
      * pose proof (cos_lt_0 (theta + 2 * PI) ltac:(lra) ltac:(lra)) as Hx.
        rewrite cos_plus, cos_2PI, sin_2PI in Hx. lra.
      * destruct (Rlt_dec theta (PI / 2)) as [H'|H'].
        -- pose proof (cos_gt_0 theta ltac:(lra) ltac:(lra)). lra.
        -- pose proof (sin_ge_0 theta ltac:(lra) ltac:(lra)). lra.
    + assert (Hs : sin theta = 0) by nra. rewrite Hs in H2. lra.
    + assert (Hs : 0 < sin theta) by nra.
      destruct (Req_dec theta (PI / 2)) as [->|Hne]; [reflexivity|]. exfalso.
      destruct (Rlt_dec (PI / 2) theta) as [H|H].
      * pose proof (Rle_lt_or_eq_dec _ _ (proj2 Ht)) as [Hlt|Heq].
        -- pose proof (cos_lt_0 theta ltac:(lra) ltac:(lra)). lra.
        -- rewrite Heq, sin_PI in Hs. lra.
      * destruct (Rlt_dec (- (PI / 2)) theta) as [H'|H'].
        -- pose proof (cos_gt_0 theta ltac:(lra) ltac:(lra)). lra.
        -- pose proof (sin_lt_0_var theta ltac:(lra) ltac:(lra)). lra.
  - assert (Hc : 0 < cos theta) by nra.
    rewrite Hq by lra.
    assert (Hrange : - (PI / 2) < theta < PI / 2).
    { split.
      - destruct (Rlt_dec (- (PI / 2)) theta) as [H|H]; [exact H|]. exfalso.
        pose proof (cos_le_0 (theta + 2 * PI) ltac:(lra) ltac:(lra)) as Hx.
        rewrite cos_plus, cos_2PI, sin_2PI in Hx. lra.
      - destruct (Rlt_dec theta (PI / 2)) as [H|H]; [exact H|]. exfalso.
        pose proof (cos_le_0 theta ltac:(lra) ltac:(lra)). lra. }
    apply atan_tan. exact Hrange.
Qed.

Lemma atan2_origin : atan2 0 0 = 0.
Proof.
  unfold atan2.
  destruct (total_order_T 0 0) as [[H|H]|H]; lra.
Qed.

(** *** Pixels of the rasterised map *)

Lemma nth_map_lt {A B : Type} (f : A -> B) (l : list A) (i : nat) (da : A) (db : B) :
  (i < length l)%nat -> nth i (map f l) db = f (nth i l da).
Proof.
  intros Hi. rewrite (nth_indep _ db (f da)) by (rewrite length_map; exact Hi).
  apply map_nth.
Qed.

Lemma render_envmap_sg_between (lgtSGs : list lgtSG) (viewdir : vec3) :
  norm viewdir = 1 ->
  Forall (fun sg => norm (sg_axis sg) <> 0) lgtSGs ->
  vec3_between (render_envmap_sg lgtSGs viewdir) (amplitude_sum lgtSGs).
Proof.
  intros Hv Hs. unfold vec3_between, render_envmap_sg, amplitude_sum. simpl.
  repeat split; apply render_envmap_sg_bounds; assumption.
Qed.

Lemma amplitude_sum_nonneg (lgtSGs : list lgtSG) :
  vec3_between (V3 0 0 0) (amplitude_sum lgtSGs).
Proof.
  unfold vec3_between, amplitude_sum. simpl.
  repeat split; try lra; apply Rsum_nonneg; apply Forall_forall; intros x Hx;
    apply list_elem_of_fmap in Hx as (sg & -> & _); apply Rabs_pos.
Qed.

Section EnvmapGrid.

Variable lgtSGs : list lgtSG.
Variable H W : nat.
Hypothesis lobes_nonzero : Forall (fun sg => norm (sg_axis sg) <> 0) lgtSGs.

Let envmap := compute_envmap lgtSGs H W false.

Lemma compute_envmap_shape :
  length envmap = H /\ Forall (fun row => length row = W) envmap.
Proof.
  unfold envmap, compute_envmap. cbv zeta. split.
  - rewrite length_map. apply linspace_length.
  - apply Forall_forall. intros row Hrow.
    apply list_elem_of_fmap in Hrow as (phi & -> & _).
    rewrite length_map. apply linspace_length.
Qed.

Lemma compute_envmap_nth (i j : nat) :
  (i < H)%nat -> (j < W)%nat ->
  nth j (nth i envmap []) (V3 0 0 0) =
  render_envmap_sg lgtSGs (grid_direction (grid_phi H i) (grid_theta W j)).
Proof.
  intros Hi Hj. unfold envmap, compute_envmap, grid_phi, grid_theta. cbv zeta.
  rewrite (nth_map_lt _ _ i 0) by (rewrite linspace_length; exact Hi).
  rewrite (nth_map_lt _ _ j 0) by (rewrite linspace_length; exact Hj).
  reflexivity.
Qed.

Lemma pixel_in_range (i j : nat) :
  (i < H)%nat -> (j < W)%nat ->
  pixel envmap (Z.of_nat i) (Z.of_nat j) =
  render_envmap_sg lgtSGs (grid_direction (grid_phi H i) (grid_theta W j)).
Proof.
  intros Hi Hj. unfold pixel.
  destruct (Z.leb_spec 0 (Z.of_nat i)); [|lia].
  destruct (Z.leb_spec 0 (Z.of_nat j)); [|lia].
  simpl. rewrite !Nat2Z.id. apply compute_envmap_nth; assumption.
Qed.

(** Every pixel, also the zero padding, lies between 0 and the sum of
    the amplitudes. *)
Lemma pixel_between (iy ix : Z) :
  vec3_between (pixel envmap iy ix) (amplitude_sum lgtSGs).
Proof.
  unfold pixel.
  destruct ((0 <=? iy)%Z && (0 <=? ix)%Z)%bool; [|apply amplitude_sum_nonneg].
  destruct (nth_in_or_default (Z.to_nat iy) envmap []) as [Hrow|Hrow].
  - destruct (nth_in_or_default (Z.to_nat ix) (nth (Z.to_nat iy) envmap []) (V3 0 0 0))
      as [Hp|Hp].
    + revert Hp. generalize (nth (Z.to_nat ix) (nth (Z.to_nat iy) envmap []) (V3 0 0 0)).
      revert Hrow. generalize (nth (Z.to_nat iy) envmap []).
      unfold envmap, compute_envmap. cbv zeta.
      intros row Hrow p Hp.
      apply in_map_iff in Hrow as (phi & <- & _).
      apply in_map_iff in Hp as (theta & <- & _).
      apply render_envmap_sg_between; [apply grid_direction_unit | exact lobes_nonzero].
    + rewrite Hp. apply amplitude_sum_nonneg.
  - rewrite Hrow. simpl. destruct (Z.to_nat ix); apply amplitude_sum_nonneg.
Qed.

End EnvmapGrid.

(** *** The angles of the grid *)

Lemma INR_pred (n : nat) : (1 <= n)%nat -> INR (n - 1) = INR n - 1.
Proof. intros Hn. rewrite minus_INR by exact Hn. reflexivity. Qed.

Lemma grid_phi_val (H i : nat) :
  (2 <= H)%nat -> (i < H)%nat -> grid_phi H i = INR i * (PI / INR (H - 1)).
Proof.
  intros HH Hi. unfold grid_phi. rewrite linspace_nth by assumption.
  unfold Rdiv. ring.
Qed.

Lemma grid_phi_one : grid_phi 1 0 = 0.
Proof. reflexivity. Qed.

Lemma INR_pred_pos (n : nat) : (2 <= n)%nat -> 0 < INR (n - 1).
Proof. intros Hn. apply lt_0_INR. lia. Qed.

Lemma grid_phi_range (H i : nat) : (i < H)%nat -> 0 <= grid_phi H i <= PI.
Proof.
  intros Hi. pose proof PI_RGT_0 as Hp.
  destruct (le_lt_dec 2 H) as [HH|HH].
  - rewrite grid_phi_val by assumption.
    pose proof (INR_pred_pos H HH) as Hd.
    assert (Hi' : 0 <= INR i <= INR (H - 1)).
    { split; [apply pos_INR | apply le_INR; lia]. }
    assert (Hq : 0 < PI / INR (H - 1)) by (apply Rdiv_lt_0_compat; lra).
    split; [nra|].
    replace PI with (INR (H - 1) * (PI / INR (H - 1))) at 2 by (field; lra).
    nra.
  - assert (H = 1)%nat by lia. subst H. assert (i = 0)%nat by lia. subst i.
    rewrite grid_phi_one. lra.
Qed.

Lemma grid_theta_val (W j : nat) :
  (2 <= W)%nat -> (j < W)%nat -> grid_theta W j = PI - INR j * (2 * PI / INR (W - 1)).
Proof.
  intros HW Hj. unfold grid_theta. rewrite linspace_nth by assumption.
  pose proof (INR_pred_pos W HW). field. lra.
Qed.

Lemma grid_theta_one : grid_theta 1 0 = PI.
Proof. unfold grid_theta. simpl. ring. Qed.

(** Columns 0 and [W - 1] are the same meridian. *)
Lemma grid_theta_last (W : nat) : (2 <= W)%nat -> grid_theta W (W - 1) = - PI.
Proof.
  intros HW. rewrite grid_theta_val by lia.
  pose proof (INR_pred_pos W HW). field. lra.
Qed.

Lemma grid_theta_first (W : nat) : (1 <= W)%nat -> grid_theta W 0 = PI.
Proof.
  intros HW. destruct (le_lt_dec 2 W) as [H2|H2].
  - rewrite grid_theta_val by lia. simpl. ring.
  - assert (W = 1)%nat by lia. subst W. apply grid_theta_one.
Qed.

Lemma grid_theta_interior (W j : nat) :
  (2 <= W)%nat -> (j < W - 1)%nat -> - PI < grid_theta W j <= PI.
Proof.
  intros HW Hj. rewrite grid_theta_val by lia.
  pose proof PI_RGT_0 as Hp. pose proof (INR_pred_pos W HW) as Hd.
  assert (Hj' : 0 <= INR j < INR (W - 1)).
  { split; [apply pos_INR | apply lt_INR; lia]. }
  assert (Hq : 0 < 2 * PI / INR (W - 1)) by (apply Rdiv_lt_0_compat; lra).
  split; [|nra].
  assert (INR j * (2 * PI / INR (W - 1)) < INR (W - 1) * (2 * PI / INR (W - 1))) by nra.
  replace (INR (W - 1) * (2 * PI / INR (W - 1))) with (2 * PI) in * by (field; lra).
  lra.
Qed.

Lemma grid_direction_seam (phi : R) : grid_direction phi (- PI) = grid_direction phi PI.
Proof.
  unfold grid_direction. rewrite cos_neg, sin_neg, sin_PI. f_equal; ring.
Qed.

Lemma grid_direction_pole (phi theta theta' : R) :
  sin phi = 0 -> grid_direction phi theta = grid_direction phi theta'.
Proof. intros Hs. unfold grid_direction. rewrite Hs. f_equal; ring. Qed.

(** Rows 0 and [H - 1] are the poles; on every other row the sine of the
    polar angle is positive. *)
Lemma grid_phi_sin (H i : nat) :
  (i < H)%nat -> sin (grid_phi H i) = 0 \/ 0 < sin (grid_phi H i).
Proof.
  intros Hi. pose proof PI_RGT_0 as Hp.
  destruct (le_lt_dec 2 H) as [HH|HH].
  - destruct (Nat.eq_dec i 0%nat) as [->|H0].
    + left. rewrite grid_phi_val by lia. simpl. rewrite Rmult_0_l. apply sin_0.
    + destruct (Nat.eq_dec i (H - 1)%nat) as [->|H1].
      * left. rewrite grid_phi_val by lia.
        pose proof (INR_pred_pos H HH).
        replace (INR (H - 1) * (PI / INR (H - 1))) with PI by (field; lra).
        apply sin_PI.
      * right. rewrite grid_phi_val by lia.
        pose proof (INR_pred_pos H HH) as Hd.
        assert (Hi' : 0 < INR i < INR (H - 1)).
        { split; [apply lt_0_INR; lia | apply lt_INR; lia]. }
        assert (Hq : 0 < PI / INR (H - 1)) by (apply Rdiv_lt_0_compat; lra).
        apply sin_gt_0; [nra|].
        replace PI with (INR (H - 1) * (PI / INR (H - 1))) at 2 by (field; lra).
        nra.
  - left. assert (H = 1)%nat by lia. subst H. assert (i = 0)%nat by lia. subst i.
    rewrite grid_phi_one. apply sin_0.
Qed.

(** *** The row coordinate of a grid direction *)

Lemma frac_bounds (r : R) : 0 <= r - IZR (Int_part r) < 1.
Proof. pose proof (base_Int_part r). lra. Qed.

Lemma envmap_row_coordinate (H i : nat) :
  (i < H)%nat -> INR (H - 1) * TINY_NUMBER < PI ->
  let phi := acos (cos (grid_phi H i)) - TINY_NUMBER in
  let query_y := (phi / PI) * 2 - 1 in
  let iy := (query_y + 1) / 2 * (INR H - 1) in
  let delta := TINY_NUMBER * INR (H - 1) / PI in
  0 <= delta < 1 /\
  ((H = 1%nat /\ Int_part iy = 0%Z /\ iy - IZR (Int_part iy) = 0 /\ delta = 0) \/
   ((2 <= H)%nat /\ Int_part iy = (Z.of_nat i - 1)%Z /\
    iy - IZR (Int_part iy) = 1 - delta)).
Proof.
  intros Hi Hsmall phi query_y iy delta.
  pose proof PI_RGT_0 as Hp. pose proof TINY_NUMBER_pos as He.
  assert (Hacos : acos (cos (grid_phi H i)) = grid_phi H i).
  { apply acos_cos. apply grid_phi_range. exact Hi. }
  assert (Hd : 0 <= delta < 1).
  { unfold delta. pose proof (pos_INR (H - 1)) as Hn. split.
    - apply Rmult_le_pos; [nra | left; apply Rinv_0_lt_compat; lra].
    - apply (Rmult_lt_reg_r PI); [lra|].
      unfold Rdiv. rewrite Rmult_assoc, Rinv_l by lra. lra. }
  split; [exact Hd|].
  destruct (le_lt_dec 2 H) as [HH|HH].
  - right. split; [exact HH|].
    assert (Hiy : iy = INR i - delta).
    { unfold iy, query_y, phi, delta. rewrite Hacos, grid_phi_val by assumption.
      rewrite <- INR_pred by lia.
      pose proof (INR_pred_pos H HH). field. split; lra. }
    assert (Hip : (Z.of_nat i - 1)%Z = Int_part iy).
    { apply Int_part_spec. rewrite Hiy, minus_IZR, <- INR_IZR_INZ.
      assert (0 < delta).
      { unfold delta. pose proof (INR_pred_pos H HH).
        apply Rdiv_lt_0_compat; [nra | lra]. }
      lra. }
    split; [symmetry; exact Hip|].
    rewrite <- Hip, Hiy, minus_IZR, <- INR_IZR_INZ. ring.
  - left. assert (H = 1)%nat by lia. subst H.
    assert (Hiy : iy = 0).
    { unfold iy. simpl. ring. }
    split; [reflexivity|]. rewrite Hiy.
    assert (Hip : Int_part 0 = 0%Z).
    { symmetry. apply Int_part_spec. simpl. lra. }
    rewrite Hip. simpl. split; [reflexivity|]. split; [ring|].
    unfold delta. simpl. unfold Rdiv. ring.
Qed.

Lemma Int_part_0 : Int_part 0 = 0%Z.
Proof. symmetry. apply Int_part_spec. simpl. lra. Qed.

Lemma vmix_same (t : R) (p : vec3) : vadd (vscale (1 - t) p) (vscale t p) = p.
Proof. destruct p. unfold vadd, vscale. simpl. f_equal; ring. Qed.

Lemma vmix_left (p q : vec3) : vadd (vscale (1 - 0) p) (vscale 0 q) = p.
Proof. destruct p, q. unfold vadd, vscale. simpl. f_equal; ring. Qed.

Section EnvmapRoundTrip.

Variable lgtSGs : list lgtSG.
Variable H W : nat.

Let envmap := compute_envmap lgtSGs H W false.

(** *** The column coordinate of a grid direction *)

(** On the row of the direction itself, the two pixels that the
    bilinear lookup mixes along the columns give back the SG basis sum
    at the direction: off the poles the column coordinate is an integer
    (column [j], or column 0 for the last column, the same meridian); at
    the poles every pixel of the row holds the same value. *)
Lemma envmap_column_mix (i j : nat) :
  (i < H)%nat -> (j < W)%nat ->
  let d := grid_direction (grid_phi H i) (grid_theta W j) in
  let theta := atan2 (vy d) (vx d) in
  let query_x := - theta / PI in
  let ix := (query_x + 1) / 2 * (INR W - 1) in
  let x0 := Int_part ix in
  let tx := ix - IZR x0 in
  vadd (vscale (1 - tx) (pixel envmap (Z.of_nat i) x0))
       (vscale tx (pixel envmap (Z.of_nat i) (x0 + 1))) =
  render_envmap_sg lgtSGs d.
Proof.
  intros Hi Hj d theta query_x ix x0 tx.
  pose proof PI_RGT_0 as Hp.
  destruct (grid_phi_sin H i Hi) as [Hpole|Hsin].
  - (* a pole *)
    assert (Htheta : theta = 0).
    { unfold theta, d, grid_direction. simpl. rewrite Hpole, !Rmult_0_r.
      apply atan2_origin. }
    assert (Hix : ix = (INR W - 1) / 2).
    { unfold ix, query_x. rewrite Htheta. field. lra. }
    assert (HW : 1 <= INR W) by (apply (le_INR 1); lia).
    pose proof (base_Int_part ix) as Hb. fold x0 in Hb.
    assert (Hx0 : (0 <= x0)%Z).
    { apply le_IZR. apply Rnot_lt_le. intros Hn.
      assert (IZR x0 <= -1).
      { apply (IZR_le x0 (-1)). apply lt_IZR in Hn. lia. }
      lra. }
    assert (Hx0W : (Z.to_nat x0 < W)%nat).
    { apply INR_lt. rewrite INR_IZR_INZ, Z2Nat.id by exact Hx0. lra. }
    assert (Hp0 : pixel envmap (Z.of_nat i) x0 = render_envmap_sg lgtSGs d).
    { rewrite <- (Z2Nat.id x0 Hx0).
      unfold envmap. rewrite pixel_in_range by assumption.
      f_equal. apply grid_direction_pole. exact Hpole. }
    rewrite Hp0.
    destruct (le_lt_dec W (Z.to_nat x0 + 1)) as [Hout|Hin].
    + (* the next column is outside: the width is 1 and the weight is 0 *)
      assert (Hge : INR W <= IZR x0 + 1).
      { rewrite <- (Z2Nat.id x0 Hx0), <- INR_IZR_INZ.
        replace (INR (Z.to_nat x0) + 1) with (INR (Z.to_nat x0 + 1))
          by (rewrite plus_INR; reflexivity).
        apply le_INR. exact Hout. }
      assert (Htx : tx = 0) by (unfold tx; lra).
      rewrite Htx. apply vmix_left.
    + assert (Hp1 : pixel envmap (Z.of_nat i) (x0 + 1) = render_envmap_sg lgtSGs d).
      { replace (x0 + 1)%Z with (Z.of_nat (Z.to_nat x0 + 1)) by lia.
        unfold envmap. rewrite pixel_in_range by assumption.
        f_equal. apply grid_direction_pole. exact Hpole. }
      rewrite Hp1. apply vmix_same.
  - (* off the poles the coordinate is an integer *)
    assert (Hcol : exists j' : nat,
               (j' < W)%nat /\ ix = INR j' /\
               grid_direction (grid_phi H i) (grid_theta W j') = d).
    { destruct (le_lt_dec 2 W) as [HW|HW].
      - destruct (Nat.eq_dec j (W - 1)%nat) as [Hlast|Hnot].
        + exists 0%nat. split; [lia|].
          assert (Hd : d = grid_direction (grid_phi H i) PI).
          { unfold d. rewrite Hlast, grid_theta_last by exact HW.
            apply grid_direction_seam. }
          split.
          * unfold ix, query_x, theta. rewrite Hd. unfold grid_direction. simpl.
            rewrite atan2_polar by (try exact Hsin; lra).
            simpl. field. lra.
          * rewrite grid_theta_first by lia. symmetry. exact Hd.
        + exists j. split; [exact Hj|]. split; [|reflexivity].
          pose proof (grid_theta_interior W j HW ltac:(lia)) as Hrange.
          unfold ix, query_x, theta, d, grid_direction. simpl.
          rewrite atan2_polar by assumption.
          rewrite grid_theta_val by assumption.
          rewrite <- INR_pred by lia.
          pose proof (INR_pred_pos W HW). field. split; lra.
      - assert (W = 1)%nat by lia. subst W. assert (j = 0)%nat by lia. subst j.
        exists 0%nat. split; [lia|]. split; [|reflexivity].
        unfold ix. simpl. ring. }
    destruct Hcol as (j' & Hj' & Hix & Hdir).
    assert (Hx0 : x0 = Z.of_nat j').
    { unfold x0. rewrite Hix. apply Int_part_INR. }
    assert (Htx : tx = 0).
    { unfold tx. rewrite Hx0, Hix, <- INR_IZR_INZ. ring. }
    rewrite Htx, Hx0. rewrite vmix_left.
    unfold envmap. rewrite pixel_in_range by assumption.
    rewrite Hdir. reflexivity.
Qed.

End EnvmapRoundTrip.

(** *** The interpolation error *)

Lemma bilinear_row_error (tx ty delta c00 c01 c10 c11 D B : R) :
  0 <= tx < 1 -> 0 <= delta < 1 ->
  0 <= c00 <= B -> 0 <= c01 <= B -> 0 <= D <= B ->
  ty = 1 - delta ->
  (1 - tx) * c10 + tx * c11 = D ->
  Rabs ((1 - tx) * (1 - ty) * c00 + tx * (1 - ty) * c01 +
        ((1 - tx) * ty * c10 + tx * ty * c11) - D) <= delta * B.
Proof.
  intros Htx Hd H00 H01 HD Hty Hmix.
  set (m0 := (1 - tx) * c00 + tx * c01).
  assert (Hm0 : 0 <= m0 <= B) by (unfold m0; nra).
  replace ((1 - tx) * (1 - ty) * c00 + tx * (1 - ty) * c01 +
           ((1 - tx) * ty * c10 + tx * ty * c11) - D)
    with (delta * (m0 - D)).
  - apply Rabs_le. split; nra.
  - unfold m0. rewrite <- Hmix, Hty. ring.
Qed.

Lemma bilinear_row_exact (tx ty c00 c01 c10 c11 D : R) :
  ty = 0 ->
  (1 - tx) * c00 + tx * c01 = D ->
  (1 - tx) * (1 - ty) * c00 + tx * (1 - ty) * c01 +
  ((1 - tx) * ty * c10 + tx * ty * c11) - D = 0.
Proof. intros -> <-. ring. Qed.

(** C5.  For light SGs with non-zero lobe axes, an [H x W] grid with
    [(H - 1) * 1e-6 < pi], and the direction of any grid cell [(i, j)],
    the bilinear lookup in the rasterised environment map returns the SG
    basis sum at that direction up to the interpolation error: in every
    channel the two differ by at most [delta] times the sum of the lobe
    amplitudes, where [delta = 1e-6 (H - 1) / pi] is the shift of the
    row coordinate caused by [phi = arccos(z) - 1e-6]. *)
Theorem envmap_round_trip (lgtSGs : list lgtSG) (H W i j : nat) :
  (i < H)%nat -> (j < W)%nat ->
  INR (H - 1) * TINY_NUMBER < PI ->
  Forall (fun sg => norm (sg_axis sg) <> 0) lgtSGs ->
  let d := grid_direction (grid_phi H i) (grid_theta W j) in
  let sampled := render_envmap (compute_envmap lgtSGs H W false) d in
  let direct := render_envmap_sg lgtSGs d in
  let delta := TINY_NUMBER * INR (H - 1) / PI in
  Rabs (vx sampled - vx direct) <= delta * vx (amplitude_sum lgtSGs) /\
  Rabs (vy sampled - vy direct) <= delta * vy (amplitude_sum lgtSGs) /\
  Rabs (vz sampled - vz direct) <= delta * vz (amplitude_sum lgtSGs).
Proof.
  intros Hi Hj Hsmall Hlobes d sampled direct delta.
  set (envmap := compute_envmap lgtSGs H W false).
  destruct (compute_envmap_shape lgtSGs H W) as [HlenH HlenW]. fold envmap in HlenH, HlenW.
  assert (HW : length (nth 0 envmap []) = W).
  { rewrite Forall_forall in HlenW. apply HlenW.
    apply list_elem_of_In. apply nth_In. lia. }
  pose proof (envmap_row_coordinate H i Hi Hsmall) as Hrow. cbv zeta in Hrow.
  pose proof (envmap_column_mix lgtSGs H W i j Hi Hj) as Hcol. cbv zeta in Hcol.
  fold d envmap direct in Hcol.
  assert (Hdir : vec3_between direct (amplitude_sum lgtSGs)).
  { apply render_envmap_sg_between; [apply grid_direction_unit | exact Hlobes]. }
  unfold sampled, render_envmap, grid_sample. cbv zeta. fold envmap.
  rewrite HlenH, HW.
  replace (vz d) with (cos (grid_phi H i)) by reflexivity.
  set (iy := ((acos (cos (grid_phi H i)) - TINY_NUMBER) / PI * 2 - 1 + 1) / 2 * (INR H - 1))
    in *.
  set (ix := (- atan2 (vy d) (vx d) / PI + 1) / 2 * (INR W - 1)) in *.
  set (x0 := Int_part ix) in *. set (y0 := Int_part iy) in *.
  set (tx := ix - IZR x0) in *. set (ty := iy - IZR y0) in *.
  fold delta in Hrow.
  pose proof (frac_bounds ix) as Htx. fold x0 tx in Htx.
  pose proof (pixel_between lgtSGs H W Hlobes y0 x0) as (Bx00 & By00 & Bz00).
  pose proof (pixel_between lgtSGs H W Hlobes y0 (x0 + 1)) as (Bx01 & By01 & Bz01).
  fold envmap in Bx00, By00, Bz00, Bx01, By01, Bz01.
  destruct Hdir as (Dx & Dy & Dz).
  destruct Hrow as [Hdelta [(H1 & Hy0 & Hty & Hd0) | (H2 & Hy0 & Hty)]].
  - (* a single row: the lookup is exact *)
    assert (Hi0 : i = 0%nat) by lia. subst i.
    rewrite Hy0 in *. simpl Z.of_nat in Hcol.
    rewrite Hd0, !Rmult_0_l.
    assert (Hx := f_equal vx Hcol). assert (Hy := f_equal vy Hcol).
    assert (Hz := f_equal vz Hcol). simpl in Hx, Hy, Hz.
    simpl.
    rewrite (bilinear_row_exact tx ty _ _ _ _ (vx direct) Hty Hx).
    rewrite (bilinear_row_exact tx ty _ _ _ _ (vy direct) Hty Hy).
    rewrite (bilinear_row_exact tx ty _ _ _ _ (vz direct) Hty Hz).
    rewrite Rabs_R0. lra.
  - replace (y0 + 1)%Z with (Z.of_nat i) by lia.
    assert (Hx := f_equal vx Hcol). assert (Hy := f_equal vy Hcol).
    assert (Hz := f_equal vz Hcol). simpl in Hx, Hy, Hz.
    simpl.
    split; [|split];
      apply (bilinear_row_error tx ty delta); assumption.
Qed.

Lemma envmap_round_trip_witness :
  let d := grid_direction (grid_phi 3 1) (grid_theta 4 2) in
  let sampled := render_envmap (compute_envmap (nth 0 ex_lgtSGs []) 3 4 false) d in
  let direct := render_envmap_sg (nth 0 ex_lgtSGs []) d in
  let delta := TINY_NUMBER * INR (3 - 1) / PI in
  Rabs (vx sampled - vx direct) <= delta * vx (amplitude_sum (nth 0 ex_lgtSGs [])) /\
  Rabs (vy sampled - vy direct) <= delta * vy (amplitude_sum (nth 0 ex_lgtSGs [])) /\
  Rabs (vz sampled - vz direct) <= delta * vz (amplitude_sum (nth 0 ex_lgtSGs [])).
Proof.
  apply (envmap_round_trip (nth 0 ex_lgtSGs []) 3 4 1 2); [lia | lia | |].
  - pose proof PI_gt_3. rewrite TINY_NUMBER_val. simpl. lra.
  - repeat constructor. simpl. rewrite norm_z_axis. lra.
Defined.

(** * Further properties of the SG algebra *)

(** ** [norm_axis] *)

Lemma norm_vdiv (x : vec3) (d : R) : 0 < d -> norm (vdiv x d) = norm x / d.
Proof.
  intros Hd. pose proof (norm_nonneg x) as Hn.
  assert (Hq : dot (vdiv x d) (vdiv x d) = (norm x / d) * (norm x / d)).
  { transitivity (dot x x / (d * d)).
    - unfold dot, vdiv. simpl. field. lra.
    - rewrite <- norm_sqr. field. lra. }
  unfold norm at 1. rewrite Hq. apply sqrt_square.
  apply Rmult_le_pos; [exact Hn | left; apply Rinv_0_lt_compat; exact Hd].
Qed.

Lemma norm_zero3 : norm (V3 0 0 0) = 0.
Proof.
  unfold norm, dot. simpl.
  replace (0 * 0 + 0 * 0 + 0 * 0) with 0 by ring. apply sqrt_0.
Qed.

(** X1.  [norm_axis] maps the zero vector to the zero vector (the
    epsilon keeps the division defined), and any other vector to one of
    length [norm x / (norm x + 1e-6)], which is below 1: the result is
    never exactly a unit vector. *)
Theorem norm_axis_length (x : vec3) :
  norm_axis (V3 0 0 0) = V3 0 0 0 /\
  norm (norm_axis x) = norm x / (norm x + TINY_NUMBER) /\
  norm (norm_axis x) < 1.
Proof.
  split; [|split].
  - unfold norm_axis, norm_axis_denom, vdiv. rewrite norm_zero3. simpl.
    replace (0 / (0 + TINY_NUMBER)) with 0 by (unfold Rdiv; ring). reflexivity.
  - unfold norm_axis, norm_axis_denom. apply norm_vdiv.
    pose proof (norm_nonneg x). pose proof TINY_NUMBER_pos. lra.
  - apply norm_axis_lt_1.
Qed.

(** ** [lambda_trick] *)

(** For non-negative sharpness ratio the [torch.min] of [lambda_trick]
    never takes its second argument. *)
Lemma lambda_trick_tmp_sqrt (lobe1 : vec3) (lambda1 : R) (lobe2 : vec3) (lambda2 : R) :
  0 <= lambda1 -> 0 < lambda2 ->
  let ratio := lambda1 / lambda2 in
  let d := dot (norm_axis lobe1) (norm_axis lobe2) in
  lambda_trick_tmp lobe1 lambda1 lobe2 lambda2 = sqrt (ratio * ratio + 1 + 2 * ratio * d) /\
  0 <= ratio * ratio + 1 + 2 * ratio * d.
Proof.
  intros H1 H2 ratio d. unfold lambda_trick_tmp. cbv zeta. fold ratio d.
  assert (Hr : 0 <= ratio).
  { apply Rmult_le_pos; [exact H1 | left; apply Rinv_0_lt_compat; exact H2]. }
  pose proof (dot_norm_axis_bounds lobe1 lobe2) as Hd. fold d in Hd.
  assert (Hx : 0 <= ratio * ratio + 1 + 2 * ratio * d).
  { replace (ratio * ratio + 1 + 2 * ratio * d)
      with ((ratio - 1) * (ratio - 1) + 2 * (ratio * (1 + d))) by ring.
    assert (0 <= ratio * (1 + d)) by (apply Rmult_le_pos; lra).
    pose proof (Rle_0_sqr (ratio - 1)) as Hs. unfold Rsqr in Hs. lra. }
  split; [|exact Hx].
  apply Rmin_left.
  rewrite <- (sqrt_square (ratio + 1)) by lra.
  apply sqrt_le_1_alt.
  assert (ratio * d <= ratio) by (clear - Hr Hd; nra).
  lra.
Qed.



Lemma lambda_trick_lambda3 (lobe1 : vec3) (lambda1 : R) (lobe2 : vec3) (lambda2 : R) :
  0 <= lambda1 -> 0 < lambda2 ->
  lambda_trick_lambdas lobe1 lambda1 lobe2 lambda2 =
  sqrt (lambda1 * lambda1 + lambda2 * lambda2 +
        2 * lambda1 * lambda2 * dot (norm_axis lobe1) (norm_axis lobe2)).
Proof.
  intros H1 H2. unfold lambda_trick_lambdas. cbv zeta.
  destruct (lambda_trick_tmp_sqrt lobe1 lambda1 lobe2 lambda2 H1 H2) as [-> Hx].
  cbv zeta in Hx.
  rewrite <- (sqrt_square lambda2) at 1 by lra.
  rewrite <- sqrt_mult by (try exact Hx; nra).
  f_equal. field. lra.
Qed.



Lemma dot_combination (a b : R) (x y : vec3) :
  dot (vadd (vscale a x) (vscale b y)) (vadd (vscale a x) (vscale b y)) =
  a * a * dot x x + b * b * dot y y + 2 * a * b * dot x y.
Proof. unfold dot, vadd, vscale. simpl. ring. Qed.

(** X4.  For sharpness [lambda1 >= 0] and [lambda2 > 0] the product
    lobe is no sharper than [lambda1 + lambda2] and no flatter than
    [|lambda2 - lambda1|], its amplitude is at most the product of the
    two amplitudes in absolute value, and its axis is shorter than 1. *)
Theorem lambda_trick_bounds (lobe1 : vec3) (lambda1 mu1 : R)
    (lobe2 : vec3) (lambda2 mu2 : R) :
  0 <= lambda1 -> 0 < lambda2 ->
  Rabs (lambda2 - lambda1) <= lambda_trick_lambdas lobe1 lambda1 lobe2 lambda2
                           <= lambda1 + lambda2 /\
  Rabs (lambda_trick_mus lobe1 lambda1 mu1 lobe2 lambda2 mu2) <= Rabs (mu1 * mu2) /\
  norm (lambda_trick_lobes lobe1 lambda1 lobe2 lambda2) < 1.
Proof.
  intros H1 H2.
  pose proof (lambda_trick_lambda3 lobe1 lambda1 lobe2 lambda2 H1 H2) as Hl3.
  pose proof (dot_norm_axis_bounds lobe1 lobe2) as Hd.
  set (d := dot (norm_axis lobe1) (norm_axis lobe2)) in *.
  assert (Hp : 0 <= lambda1 * lambda2) by (apply Rmult_le_pos; lra).
  assert (Hup : lambda_trick_lambdas lobe1 lambda1 lobe2 lambda2 <= lambda1 + lambda2).
  { rewrite Hl3. rewrite <- (sqrt_square (lambda1 + lambda2)) by lra.
    apply sqrt_le_1_alt. nra. }
  assert (Hlo : Rabs (lambda2 - lambda1) <= lambda_trick_lambdas lobe1 lambda1 lobe2 lambda2).
  { rewrite Hl3. rewrite <- sqrt_Rsqr_abs. apply sqrt_le_1_alt. unfold Rsqr. nra. }
  split; [split; assumption|]. split.
  - unfold lambda_trick_mus. cbv zeta.
    unfold lambda_trick_lambdas in Hup. cbv zeta in Hup.
    set (t := lambda_trick_tmp lobe1 lambda1 lobe2 lambda2) in *.
    rewrite Rabs_mult.
    rewrite <- (Rmult_1_r (Rabs (mu1 * mu2))) at 2.
    apply Rmult_le_compat_l; [apply Rabs_pos|].
    rewrite Rabs_right by (left; apply exp_pos).
    apply exp_nonpos_le_1.
    replace (lambda2 * (t - lambda1 / lambda2 - 1))
      with (lambda2 * t - (lambda1 + lambda2)) by (field; lra).
    lra.
  - pose proof (lambda_trick_tmp_pos lobe1 lambda1 lobe2 lambda2 H1 H2) as Ht.
    destruct (lambda_trick_tmp_sqrt lobe1 lambda1 lobe2 lambda2 H1 H2) as [Hts Hx].
    cbv zeta in Hts, Hx. fold d in Hts, Hx.
    unfold lambda_trick_lobes. cbv zeta.
    set (t := lambda_trick_tmp lobe1 lambda1 lobe2 lambda2) in *.
    set (r := lambda1 / lambda2) in *.
    assert (Hr : 0 <= r).
    { apply Rmult_le_pos; [exact H1 | left; apply Rinv_0_lt_compat; exact H2]. }
    set (l1 := norm_axis lobe1) in *. set (l2 := norm_axis lobe2) in *.
    assert (Htt : t * t = r * r + 1 + 2 * r * d).
    { rewrite Hts. apply sqrt_sqrt. exact Hx. }
    pose proof (norm_axis_lt_1 lobe1) as N1. pose proof (norm_axis_lt_1 lobe2) as N2.
    fold l1 in N1. fold l2 in N2.
    pose proof (norm_nonneg l1) as P1. pose proof (norm_nonneg l2) as P2.
    pose proof (norm_sqr l1) as S1. pose proof (norm_sqr l2) as S2.
    assert (D1 : dot l1 l1 <= 1) by nra.
    assert (D2 : dot l2 l2 < 1) by nra.
    set (w := vadd (vscale (r / t) l1) (vscale (1 / t) l2)).
    assert (Hw : dot w w = (r * r * dot l1 l1 + dot l2 l2 + 2 * r * d) / (t * t)).
    { unfold w. rewrite dot_combination. fold d. field. lra. }
    assert (Hlt : dot w w < 1).
    { rewrite Hw. apply (Rmult_lt_reg_r (t * t)); [nra|].
      unfold Rdiv. rewrite Rmult_assoc, Rinv_l by nra.
      assert (0 <= r * r) by nra. nra. }
    unfold norm. rewrite <- sqrt_1. apply sqrt_lt_1_alt.
    split; [apply dot_self_nonneg | exact Hlt].
Qed.

Lemma lambda_trick_bounds_witness :
  Rabs (2 - 1) <= lambda_trick_lambdas z_axis 1 (V3 1 0 0) 2 <= 1 + 2 /\
  Rabs (lambda_trick_mus z_axis 1 3 (V3 1 0 0) 2 5) <= Rabs (3 * 5) /\
  norm (lambda_trick_lobes z_axis 1 (V3 1 0 0) 2) < 1.
Proof. apply (lambda_trick_bounds z_axis 1 3 (V3 1 0 0) 2 5); lra. Defined.

(** ** [hemisphere_int] *)

(** Both branches of the mixing factor compute the same function of
    [cos_beta]; the case split is only there for numeric stability. *)
Lemma hemi_s_closed (l c : R) :
  0 <= l ->
  let t := hemi_t (l + TINY_NUMBER) in
  hemi_s l c = (1 - exp (- t) * exp (- t * c)) / ((1 - exp (- t)) * (1 + exp (- t * c))).
Proof.
  intros Hl t. unfold hemi_s. cbv zeta. fold t.
  pose proof TINY_NUMBER_pos as He.
  pose proof (hemi_t_pos (l + TINY_NUMBER) ltac:(lra)) as Ht. fold t in Ht.
  pose proof (exp_neg_lt_1 t Ht) as Ha.
  unfold hemi_mask, clamp_min, clamp_max.
  destruct (Rle_dec 0 c) as [Hpos|Hneg].
  - rewrite Rmax_left by lra.
    replace (1 - 1) with 0 by ring. rewrite Rmult_0_l, Rplus_0_r, Rmult_1_l.
    pose proof (exp_pos (- t * c)) as Hb.
    set (a := exp (- t)) in *. set (b := exp (- t * c)) in *.
    replace (1 - a + b - a * b) with ((1 - a) * (1 + b)) by ring.
    reflexivity.
  - rewrite Rmin_left by lra.
    rewrite Rmult_0_l, Rplus_0_l, Rminus_0_r, Rmult_1_l.
    replace (- t * c) with (- (t * c)) by ring.
    rewrite (exp_Ropp (t * c)).
    pose proof (exp_pos (t * c)) as Hb.
    set (a := exp (- t)) in *. set (b := exp (t * c)) in *.
    field. repeat split; lra.
Qed.

(** X5.  The integrals over the two complementary hemispheres add up to
    the integral over the whole sphere: for sharpness [lambda >= 0.01]
    and any [cos_beta], [hemisphere_int] at [cos_beta] plus
    [hemisphere_int] at [- cos_beta] is [2 pi / l (1 - exp (- 2 l))] at
    the shifted sharpness [l = lambda + 1e-6]. *)
Theorem hemisphere_int_complement (lambda_val cos_beta : R) :
  lambda_floor <= lambda_val ->
  hemisphere_int lambda_val cos_beta + hemisphere_int lambda_val (- cos_beta) =
  full_sphere_sg_integral (lambda_val + TINY_NUMBER).
Proof.
  intros Hf. assert (Hl : 0 <= lambda_val) by (unfold lambda_floor in Hf; lra).
  unfold hemisphere_int. cbv zeta.
  rewrite !(hemi_s_closed lambda_val _ Hl). cbv zeta.
  pose proof TINY_NUMBER_pos as He.
  set (l := lambda_val + TINY_NUMBER). assert (Hlp : 0 < l) by (unfold l; lra).
  pose proof (hemi_t_pos l Hlp) as Ht.
  set (t := hemi_t l) in *.
  pose proof (exp_neg_lt_1 t Ht) as Ha.
  replace (- t * - cos_beta) with (- (- t * cos_beta)) by ring.
  rewrite (exp_Ropp (- t * cos_beta)).
  pose proof (exp_pos (- t * cos_beta)) as Hb.
  set (a := exp (- t)) in *. set (b := exp (- t * cos_beta)) in *.
  unfold hemi_A_b, hemi_A_u, full_sphere_sg_integral.
  field. repeat split; lra.
Qed.

Lemma hemisphere_int_complement_witness :
  hemisphere_int 10 (1 / 2) + hemisphere_int 10 (- (1 / 2)) =
  full_sphere_sg_integral (10 + TINY_NUMBER).
Proof. apply (hemisphere_int_complement 10 (1 / 2)); unfold lambda_floor; lra. Defined.

Lemma hemi_s_mono (l c1 c2 : R) :
  0 <= l -> c1 <= c2 -> hemi_s l c1 <= hemi_s l c2.
Proof.
  intros Hl Hc. rewrite !(hemi_s_closed l _ Hl). cbv zeta.
  pose proof TINY_NUMBER_pos as He.
  pose proof (hemi_t_pos (l + TINY_NUMBER) ltac:(lra)) as Ht.
  set (t := hemi_t (l + TINY_NUMBER)) in *.
  pose proof (exp_neg_lt_1 t Ht) as Ha.
  assert (Hb : exp (- t * c2) <= exp (- t * c1)) by (apply exp_le_mono; nra).
  pose proof (exp_pos (- t * c1)) as Hb1. pose proof (exp_pos (- t * c2)) as Hb2.
  set (a := exp (- t)) in *.
  set (b1 := exp (- t * c1)) in *. set (b2 := exp (- t * c2)) in *.
  assert (D1 : 0 < (1 - a) * (1 + b1)) by (apply Rmult_lt_0_compat; lra).
  assert (D2 : 0 < (1 - a) * (1 + b2)) by (apply Rmult_lt_0_compat; lra).
  apply (Rmult_le_reg_r ((1 - a) * (1 + b1))); [exact D1|].
  apply (Rmult_le_reg_r ((1 - a) * (1 + b2))); [exact D2|].
  replace ((1 - a * b1) / ((1 - a) * (1 + b1)) * ((1 - a) * (1 + b1)) * ((1 - a) * (1 + b2)))
    with ((1 - a * b1) * ((1 - a) * (1 + b2))) by (field; lra).
  replace ((1 - a * b2) / ((1 - a) * (1 + b2)) * ((1 - a) * (1 + b1)) * ((1 - a) * (1 + b2)))
    with ((1 - a * b2) * ((1 - a) * (1 + b1))) by (field; lra).
  assert (0 <= (1 - a) * ((b1 - b2) * (1 + a))).
  { apply Rmult_le_pos; [lra|]. apply Rmult_le_pos; lra. }
  nra.
Qed.

(** X6.  The hemisphere integral grows with [cos_beta]: the further the
    lobe axis points into the hemisphere, the larger the integral, for
    every sharpness [lambda >= 0.01]. *)
Theorem hemisphere_int_monotone (lambda_val c1 c2 : R) :
  lambda_floor <= lambda_val -> c1 <= c2 ->
  hemisphere_int lambda_val c1 <= hemisphere_int lambda_val c2.
Proof.
  intros Hf Hc. assert (Hl : 0 <= lambda_val) by (unfold lambda_floor in Hf; lra).
  unfold hemisphere_int. cbv zeta.
  pose proof (hemi_s_mono lambda_val c1 c2 Hl Hc) as Hs.
  pose proof TINY_NUMBER_pos as He.
  pose proof (hemi_A_b_le_A_u (lambda_val + TINY_NUMBER) ltac:(lra)) as HA.
  set (s1 := hemi_s lambda_val c1) in *. set (s2 := hemi_s lambda_val c2) in *.
  set (Ab := hemi_A_b _) in *. set (Au := hemi_A_u _) in *.
  nra.
Qed.

Lemma hemisphere_int_monotone_witness :
  hemisphere_int 10 (- (1 / 2)) <= hemisphere_int 10 (1 / 2).
Proof.
  apply (hemisphere_int_monotone 10 (- (1 / 2)) (1 / 2)); unfold lambda_floor; lra.
Defined.

(** X7.  For sharpness [lambda >= 0.01] and [cos_beta] in [[-1, 1]] the
    mixing factor [s] lies in [[0, 1]], so the hemisphere integral of a
    unit-amplitude lobe is a convex blend of the below-horizon term
    [A_b] and the above-horizon term [A_u] and lies between them; it is
    positive, at most the solid angle [2 pi] of the hemisphere, and at
    most [2 pi / l] at the shifted sharpness [l = lambda + 1e-6]. *)
Theorem hemisphere_int_bounds (lambda_val cos_beta : R) :
  lambda_floor <= lambda_val -> -1 <= cos_beta <= 1 ->
  0 <= hemi_s lambda_val cos_beta <= 1 /\
  hemi_A_b (lambda_val + TINY_NUMBER) <= hemisphere_int lambda_val cos_beta
    <= hemi_A_u (lambda_val + TINY_NUMBER) /\
  0 < hemisphere_int lambda_val cos_beta <= 2 * PI /\
  hemisphere_int lambda_val cos_beta <= 2 * PI / (lambda_val + TINY_NUMBER).
Proof.
  intros Hf Hc. assert (Hl : 0 <= lambda_val) by (unfold lambda_floor in Hf; lra).
  unfold hemisphere_int. cbv zeta.
  pose proof (hemi_s_bounds lambda_val cos_beta Hl Hc) as Hs.
  pose proof TINY_NUMBER_pos as He.
  set (l := lambda_val + TINY_NUMBER). assert (Hlp : 0 < l) by (unfold l; lra).
  pose proof (hemi_A_b_le_A_u l Hlp) as HA.
  pose proof (hemi_A_b_bounds l Hlp) as HB.
  pose proof (hemi_A_u_le_2PI l Hlp) as HU.
  assert (HV : hemi_A_u l <= 2 * PI / l).
  { unfold hemi_A_u. pose proof PI_RGT_0 as Hp.
    assert (Hq : 0 < 2 * PI / l) by (apply Rdiv_lt_0_compat; lra).
    pose proof (exp_pos (- l)).
    rewrite <- (Rmult_1_r (2 * PI / l)) at 2.
    apply Rmult_le_compat_l; lra. }
  set (s := hemi_s lambda_val cos_beta) in *.
  set (Ab := hemi_A_b l) in *. set (Au := hemi_A_u l) in *.
  assert (Hlo : Ab <= Ab * (1 - s) + Au * s) by nra.
  assert (Hhi : Ab * (1 - s) + Au * s <= Au) by nra.
  split; [exact Hs|]. split; [split; assumption|]. split; [split|]; lra.
Qed.

Lemma hemisphere_int_bounds_witness :
  0 <= hemi_s 10 (1 / 2) <= 1 /\
  hemi_A_b (10 + TINY_NUMBER) <= hemisphere_int 10 (1 / 2) <= hemi_A_u (10 + TINY_NUMBER) /\
  0 < hemisphere_int 10 (1 / 2) <= 2 * PI /\
  hemisphere_int 10 (1 / 2) <= 2 * PI / (10 + TINY_NUMBER).
Proof. apply (hemisphere_int_bounds 10 (1 / 2)); unfold lambda_floor; lra. Defined.

(** * Further properties of the environment map codec *)

Lemma norm_vdiv_self (x : vec3) : norm x <> 0 -> norm (vdiv x (norm x)) = 1.
Proof.
  intros Hx. pose proof (norm_nonneg x).
  rewrite norm_vdiv by lra. field. exact Hx.
Qed.

Lemma vdiv_norm_vscale (s : R) (x : vec3) :
  0 < s -> norm x <> 0 ->
  vdiv (vscale s x) (norm (vscale s x)) = vdiv x (norm x).
Proof.
  intros Hs Hx.
  assert (Hn : norm (vscale s x) = s * norm x).
  { unfold norm at 1.
    replace (dot (vscale s x) (vscale s x)) with ((s * norm x) * (s * norm x)).
    - apply sqrt_square. pose proof (norm_nonneg x). nra.
    - transitivity (s * s * (norm x * norm x)); [ring|].
      rewrite norm_sqr. unfold dot, vscale. simpl. ring. }
  rewrite Hn. unfold vdiv, vscale. simpl. f_equal; field; split; lra.
Qed.

(** X8.  For a unit view direction and light SGs with non-zero axes,
    every channel of the SG basis sum lies between 0 and the sum of the
    absolute amplitudes; a single lobe seen along its own axis yields
    exactly its absolute amplitude. *)
Theorem render_envmap_sg_range (lgtSGs : list lgtSG) (viewdir : vec3) (sg : lgtSG) :
  norm viewdir = 1 ->
  Forall (fun sg => norm (sg_axis sg) <> 0) lgtSGs ->
  norm (sg_axis sg) <> 0 ->
  vec3_between (render_envmap_sg lgtSGs viewdir) (amplitude_sum lgtSGs) /\
  render_envmap_sg [sg] (vdiv (sg_axis sg) (norm (sg_axis sg))) = origin_lgtSGMus_of sg.
Proof.
  intros Hv Hs Hsg. split.
  - apply render_envmap_sg_between; assumption.
  - unfold render_envmap_sg, envmap_lobe, render_envmap_sg_denom, origin_lgtSGMus_of.
    cbv zeta. simpl.
    set (u := vdiv (sg_axis sg) (norm (sg_axis sg))).
    assert (Hu : dot u u = 1).
    { rewrite <- norm_sqr. unfold u. rewrite norm_vdiv_self by exact Hsg. ring. }
    rewrite Hu. replace (1 - 1) with 0 by ring.
    rewrite Rmult_0_r, exp_0. f_equal; ring.
Qed.

Lemma render_envmap_sg_range_witness :
  vec3_between (render_envmap_sg (nth 0 ex_lgtSGs []) z_axis)
               (amplitude_sum (nth 0 ex_lgtSGs [])) /\
  render_envmap_sg [LgtSG z_axis 10 (V3 1 1 1)] (vdiv z_axis (norm z_axis)) =
  origin_lgtSGMus_of (LgtSG z_axis 10 (V3 1 1 1)).
Proof.
  apply (render_envmap_sg_range (nth 0 ex_lgtSGs []) z_axis (LgtSG z_axis 10 (V3 1 1 1))).
  - apply norm_z_axis.
  - repeat constructor. simpl. rewrite norm_z_axis. lra.
  - simpl. rewrite norm_z_axis. lra.
Defined.

(** X9.  The SG basis sum depends only on the direction of each lobe
    axis and on the absolute values of sharpness and amplitude:
    stretching every (non-zero) axis by [s > 0] and negating sharpness
    and amplitudes leaves it unchanged. *)
Theorem render_envmap_sg_reparametrised (s : R) (lgtSGs : list lgtSG) (viewdir : vec3) :
  0 < s ->
  Forall (fun sg => norm (sg_axis sg) <> 0) lgtSGs ->
  render_envmap_sg (map (reparametrised_sg s) lgtSGs) viewdir =
  render_envmap_sg lgtSGs viewdir.
Proof.
  intros Hs Hax.
  assert (Hlobe : forall (channel : vec3 -> R),
             (forall v, Rabs (channel (vneg v)) = Rabs (channel v)) ->
             map (envmap_lobe channel viewdir) (map (reparametrised_sg s) lgtSGs) =
             map (envmap_lobe channel viewdir) lgtSGs).
  { intros channel Hch. rewrite map_map. apply map_ext_Forall.
    eapply Forall_impl; [exact Hax|]. intros sg Hsg. simpl in Hsg.
    unfold envmap_lobe, render_envmap_sg_denom, reparametrised_sg. cbv zeta. simpl.
    rewrite (vdiv_norm_vscale s (sg_axis sg) Hs Hsg), Rabs_Ropp, Hch. reflexivity. }
  unfold render_envmap_sg.
  rewrite !Hlobe by (intros v; simpl; apply Rabs_Ropp). reflexivity.
Qed.

Lemma render_envmap_sg_reparametrised_witness :
  render_envmap_sg (map (reparametrised_sg 2) (nth 0 ex_lgtSGs [])) z_axis =
  render_envmap_sg (nth 0 ex_lgtSGs []) z_axis.
Proof.
  apply (render_envmap_sg_reparametrised 2 (nth 0 ex_lgtSGs []) z_axis); [lra|].
  repeat constructor. simpl. rewrite norm_z_axis. lra.
Defined.

(** ** The grid of [compute_envmap] in both modes *)

Lemma compute_envmap_shape_any (lgtSGs : list lgtSG) (H W : nat) (upper_hemi : bool) :
  length (compute_envmap lgtSGs H W upper_hemi) = H /\
  Forall (fun row => length row = W) (compute_envmap lgtSGs H W upper_hemi).
Proof.
  unfold compute_envmap. cbv zeta. split.
  - rewrite length_map. destruct upper_hemi; apply linspace_length.
  - apply Forall_forall. intros row Hrow.
    apply list_elem_of_fmap in Hrow as (phi & -> & _).
    rewrite length_map. apply linspace_length.
Qed.

Lemma compute_envmap_nth_any (lgtSGs : list lgtSG) (H W : nat) (upper_hemi : bool)
      (i j : nat) :
  (i < H)%nat -> (j < W)%nat ->
  nth j (nth i (compute_envmap lgtSGs H W upper_hemi) []) (V3 0 0 0) =
  render_envmap_sg lgtSGs
    (grid_direction (if upper_hemi then grid_phi_upper H i else grid_phi H i)
                    (grid_theta W j)).
Proof.
  intros Hi Hj. unfold compute_envmap, grid_phi_upper, grid_phi, grid_theta. cbv zeta.
  rewrite (nth_map_lt _ _ i 0) by (destruct upper_hemi; rewrite linspace_length; exact Hi).
  rewrite (nth_map_lt _ _ j 0) by (rewrite linspace_length; exact Hj).
  destruct upper_hemi; reflexivity.
Qed.

Lemma linspace_first (a b : R) (n : nat) (d : R) :
  (1 <= n)%nat -> nth 0 (linspace a b n) d = a.
Proof.
  intros Hn. destruct (le_lt_dec 2 n) as [H2|H2].
  - rewrite linspace_nth by lia. simpl. ring.
  - assert (n = 1)%nat by lia. subst n. reflexivity.
Qed.

(** X10.  The rasterised environment map has [H] rows of [W] pixels in
    both modes; its first and last column hold the same values (they are
    the same meridian, azimuth [pi] and [- pi]); and all pixels of the
    first row are equal (the row is the pole [phi = 0]). *)
Theorem compute_envmap_layout (lgtSGs : list lgtSG) (H W : nat) (upper_hemi : bool) :
  let envmap := compute_envmap lgtSGs H W upper_hemi in
  length envmap = H /\
  Forall (fun row => length row = W) envmap /\
  (forall i, (i < H)%nat -> (2 <= W)%nat ->
     nth 0 (nth i envmap []) (V3 0 0 0) = nth (W - 1) (nth i envmap []) (V3 0 0 0)) /\
  (forall j j', (j < W)%nat -> (j' < W)%nat -> (1 <= H)%nat ->
     nth j (nth 0 envmap []) (V3 0 0 0) = nth j' (nth 0 envmap []) (V3 0 0 0)).
Proof.
  intros envmap. unfold envmap.
  destruct (compute_envmap_shape_any lgtSGs H W upper_hemi) as [HH HW].
  split; [exact HH|]. split; [exact HW|]. split.
  - intros i Hi HW2.
    rewrite !compute_envmap_nth_any by lia.
    rewrite grid_theta_first by lia. rewrite grid_theta_last by lia.
    rewrite grid_direction_seam. reflexivity.
  - intros j j' Hj Hj' H1.
    rewrite !compute_envmap_nth_any by lia.
    f_equal. apply grid_direction_pole.
    assert (Hphi : (if upper_hemi then grid_phi_upper H 0 else grid_phi H 0) = 0).
    { destruct upper_hemi; unfold grid_phi_upper, grid_phi; apply linspace_first; exact H1. }
    rewrite Hphi. apply sin_0.
Qed.

Lemma grid_phi_upper_range (H i : nat) :
  (i < H)%nat -> 0 <= grid_phi_upper H i <= PI / 2.
Proof.
  intros Hi. pose proof PI_RGT_0 as Hp. unfold grid_phi_upper.
  destruct (le_lt_dec 2 H) as [HH|HH].
  - rewrite linspace_nth by assumption.
    pose proof (INR_pred_pos H HH) as Hd.
    assert (Hi' : 0 <= INR i <= INR (H - 1)).
    { split; [apply pos_INR | apply le_INR; lia]. }
    replace (PI / 2 - 0) with (PI / 2) by ring.
    assert (Hq : 0 < PI / 2 / INR (H - 1)) by (apply Rdiv_lt_0_compat; lra).
    split; [nra|].
    replace (PI / 2) with (INR (H - 1) * (PI / 2 / INR (H - 1))) at 2 by (field; lra).
    nra.
  - assert (H = 1)%nat by lia. subst H. assert (i = 0)%nat by lia. subst i.
    simpl. lra.
Qed.

(** X11.  With [upper_hemi] every pixel of the environment map is the
    SG basis sum at a unit direction of the upper hemisphere ([z >= 0]):
    row [i] has polar angle [i * (pi / 2) / (H - 1)], and the last row
    lies on the horizon ([z = 0]). *)
Theorem compute_envmap_upper_hemi (lgtSGs : list lgtSG) (H W i j : nat) :
  (i < H)%nat -> (j < W)%nat ->
  let d := grid_direction (grid_phi_upper H i) (grid_theta W j) in
  nth j (nth i (compute_envmap lgtSGs H W true) []) (V3 0 0 0) = render_envmap_sg lgtSGs d /\
  norm d = 1 /\ 0 <= vz d /\
  ((2 <= H)%nat -> grid_phi_upper H i = INR i * (PI / 2 / INR (H - 1))) /\
  ((2 <= H)%nat -> i = (H - 1)%nat -> vz d = 0).
Proof.
  intros Hi Hj d. split; [|split; [|split; [|split]]].
  - apply (compute_envmap_nth_any lgtSGs H W true i j Hi Hj).
  - apply grid_direction_unit.
  - unfold d, grid_direction. simpl.
    pose proof (grid_phi_upper_range H i Hi) as Hr. pose proof PI_RGT_0.
    apply cos_ge_0; lra.
  - intros HH. unfold grid_phi_upper. rewrite linspace_nth by assumption.
    unfold Rdiv. ring.
  - intros HH ->. unfold d, grid_direction, grid_phi_upper. simpl.
    rewrite linspace_nth by lia.
    pose proof (INR_pred_pos H HH).
    replace (0 + INR (H - 1) * ((PI / 2 - 0) / INR (H - 1))) with (PI / 2) by (field; lra).
    apply cos_PI2.
Qed.

Lemma compute_envmap_upper_hemi_witness :
  let d := grid_direction (grid_phi_upper 3 2) (grid_theta 4 1) in
  nth 1 (nth 2 (compute_envmap (nth 0 ex_lgtSGs []) 3 4 true) []) (V3 0 0 0) =
    render_envmap_sg (nth 0 ex_lgtSGs []) d /\
  norm d = 1 /\ 0 <= vz d /\
  grid_phi_upper 3 2 = INR 2 * (PI / 2 / INR (3 - 1)) /\
  vz d = 0.
Proof.
  intros d.
  destruct (compute_envmap_upper_hemi (nth 0 ex_lgtSGs []) 3 4 2 1 ltac:(lia) ltac:(lia))
    as (Hpix & Hn & Hz & Hphi & Hlast).
  split; [exact Hpix|]. split; [exact Hn|]. split; [exact Hz|].
  split; [apply Hphi | apply Hlast]; lia.
Defined.

(** ** The bilinear lookup stays within the range of the image *)

Lemma pixel_between_any (envmap : list (list vec3)) (B : vec3) (iy ix : Z) :
  vec3_between (V3 0 0 0) B ->
  Forall (Forall (fun p => vec3_between p B)) envmap ->
  vec3_between (pixel envmap iy ix) B.
Proof.
  intros HB Hall. unfold pixel.
  destruct ((0 <=? iy)%Z && (0 <=? ix)%Z)%bool; [|exact HB].
  apply nth_Forall_default; [|exact HB].
  apply (nth_Forall_default (Forall (fun p => vec3_between p B))); [exact Hall | constructor].
Qed.

Lemma bilinear_between (tx ty c00 c01 c10 c11 b : R) :
  0 <= tx < 1 -> 0 <= ty < 1 ->
  0 <= c00 <= b -> 0 <= c01 <= b -> 0 <= c10 <= b -> 0 <= c11 <= b ->
  0 <= (1 - tx) * (1 - ty) * c00 + tx * (1 - ty) * c01 +
       ((1 - tx) * ty * c10 + tx * ty * c11) <= b.
Proof.
  intros Hx Hy H00 H01 H10 H11.
  assert (W00 : 0 <= (1 - tx) * (1 - ty)) by (apply Rmult_le_pos; lra).
  assert (W01 : 0 <= tx * (1 - ty)) by (apply Rmult_le_pos; lra).
  assert (W10 : 0 <= (1 - tx) * ty) by (apply Rmult_le_pos; lra).
  assert (W11 : 0 <= tx * ty) by (apply Rmult_le_pos; lra).
  set (w00 := (1 - tx) * (1 - ty)) in *. set (w01 := tx * (1 - ty)) in *.
  set (w10 := (1 - tx) * ty) in *. set (w11 := tx * ty) in *.
  assert (Hsum : w00 + w01 + w10 + w11 = 1) by (unfold w00, w01, w10, w11; ring).
  clearbody w00 w01 w10 w11. split.
  - assert (0 <= w00 * c00) by (apply Rmult_le_pos; lra).
    assert (0 <= w01 * c01) by (apply Rmult_le_pos; lra).
    assert (0 <= w10 * c10) by (apply Rmult_le_pos; lra).
    assert (0 <= w11 * c11) by (apply Rmult_le_pos; lra).
    lra.
  - assert (w00 * c00 <= w00 * b) by (apply Rmult_le_compat_l; lra).
    assert (w01 * c01 <= w01 * b) by (apply Rmult_le_compat_l; lra).
    assert (w10 * c10 <= w10 * b) by (apply Rmult_le_compat_l; lra).
    assert (w11 * c11 <= w11 * b) by (apply Rmult_le_compat_l; lra).
    assert (Hb : w00 * b + w01 * b + w10 * b + w11 * b = b).
    { transitivity ((w00 + w01 + w10 + w11) * b); [ring | rewrite Hsum; ring]. }
    lra.
Qed.

(** X12.  The lookup [render_envmap] is a convex mix of four pixels or
    of the zero padding: if every channel of every pixel of the image
    lies in [[0, b]], so does every channel of the value returned for
    any direction with [z] in [[-1, 1]]. *)
Theorem render_envmap_between (envmap : list (list vec3)) (B viewdir : vec3) :
  -1 <= vz viewdir <= 1 ->
  vec3_between (V3 0 0 0) B ->
  Forall (Forall (fun p => vec3_between p B)) envmap ->
  vec3_between (render_envmap envmap viewdir) B.
Proof.
  intros _ HB Hall. unfold render_envmap, grid_sample. cbv zeta.
  set (ix := (- atan2 (vy viewdir) (vx viewdir) / PI + 1) / 2 *
             (INR (length (nth 0 envmap [])) - 1)).
  set (iy := ((acos (vz viewdir) - TINY_NUMBER) / PI * 2 - 1 + 1) / 2 *
             (INR (length envmap) - 1)).
  pose proof (frac_bounds ix) as Htx. pose proof (frac_bounds iy) as Hty.
  set (x0 := Int_part ix) in *. set (y0 := Int_part iy) in *.
  destruct (pixel_between_any envmap B y0 x0 HB Hall) as (X00 & Y00 & Z00).
  destruct (pixel_between_any envmap B y0 (x0 + 1) HB Hall) as (X01 & Y01 & Z01).
  destruct (pixel_between_any envmap B (y0 + 1) x0 HB Hall) as (X10 & Y10 & Z10).
  destruct (pixel_between_any envmap B (y0 + 1) (x0 + 1) HB Hall) as (X11 & Y11 & Z11).
  unfold vec3_between. simpl.
  split; [|split]; apply bilinear_between; assumption.
Qed.

Lemma render_envmap_between_witness :
  vec3_between (render_envmap [[V3 1 1 1]] z_axis) (V3 1 1 1).
Proof.
  apply (render_envmap_between [[V3 1 1 1]] (V3 1 1 1) z_axis).
  - unfold z_axis. simpl. lra.
  - unfold vec3_between. simpl. lra.
  - repeat constructor; simpl; lra.
Defined.

(** * Further properties of the visibility samplers *)

(** ** The sampling cone *)

Lemma fold_left_Rmin_init (l : list R) (a : R) : fold_left Rmin l a <= a.
Proof.
  revert a. induction l as [|y l IH]; intros a; simpl; [lra|].
  apply Rle_trans with (Rmin a y); [apply IH | apply Rmin_l].
Qed.

Lemma fold_left_Rmin_In (l : list R) (a x : R) : In x l -> fold_left Rmin l a <= x.
Proof.
  revert a. induction l as [|y l IH]; intros a Hx; simpl; [destruct Hx|].
  destruct Hx as [->|Hx]; [|apply IH; exact Hx].
  apply Rle_trans with (Rmin a x); [apply fold_left_Rmin_init | apply Rmin_r].
Qed.

Lemma fold_left_Rmin_pos (l : list R) (a : R) :
  0 < a -> Forall (fun x => 0 < x) l -> 0 < fold_left Rmin l a.
Proof.
  intros Ha Hl. revert a Ha. induction Hl as [|y l Hy _ IH]; intros a Ha; simpl.
  - exact Ha.
  - apply IH. apply Rmin_glb_lt; assumption.
Qed.

Lemma Rlist_min_le (l : list R) (x : R) : In x l -> Rlist_min l <= x.
Proof.
  destruct l as [|a l]; [intros []|]. intros Hx. simpl.
  destruct Hx as [->|Hx]; [apply fold_left_Rmin_init | apply fold_left_Rmin_In; exact Hx].
Qed.

Lemma Rlist_min_pos (l : list R) (x : R) :
  In x l -> Forall (fun x => 0 < x) l -> 0 < Rlist_min l.
Proof.
  destruct l as [|a l]; [intros []|]. intros _ Hl. simpl.
  inversion Hl; subst. apply fold_left_Rmin_pos; assumption.
Qed.

Lemma r_phi_range_bounds (sg_range sharpness : R) :
  0 < sg_range <= sharpness ->
  0.05 <= (-0.95 * sg_range) / sharpness + 1 < 1 /\
  0 < r_phi_range sg_range sharpness < PI / 2.
Proof.
  intros [Hs Hle].
  assert (Hq : 0 < sg_range / sharpness <= 1).
  { split; [apply Rdiv_lt_0_compat; lra|].
    apply (Rmult_le_reg_r sharpness); [lra|].
    unfold Rdiv. rewrite Rmult_assoc, Rinv_l by lra. lra. }
  assert (Harg : 0.05 <= (-0.95 * sg_range) / sharpness + 1 < 1).
  { replace ((-0.95 * sg_range) / sharpness) with (-0.95 * (sg_range / sharpness))
      by (unfold Rdiv; ring).
    lra. }
  split; [exact Harg|].
  unfold r_phi_range. set (x := (-0.95 * sg_range) / sharpness + 1) in *.
  pose proof (acos_bound_lt x ltac:(lra)) as [Hlo Hhi].
  split; [exact Hlo|].
  apply Rnot_le_lt. intros Hge.
  pose proof (cos_acos x ltac:(lra)) as Hc.
  pose proof (cos_le_0 (acos x) Hge ltac:(pose proof PI_RGT_0; lra)) as Hn.
  lra.
Qed.

(** X13.  The sampling cones are well defined and stay inside a
    hemisphere: with [thr > 0] in the diffuse sampler, and always in the
    specular sampler, the argument of [arccos] lies in [[0.05, 1)] for
    every lobe, so the half-angle [r_phi_range] of every cone is positive
    and below [pi / 2]. *)
Theorem sampling_cone_range (lgtSGLambdas : list R) (thr : R)
    (pts : list specular_point) (s s' : R) :
  0 < thr ->
  let sharpness := map (fun l => clamp_min l 1e-4) lgtSGLambdas in
  let sg_range := clamp_max (Rlist_min sharpness) thr in
  let sharpness' := map (fun sp => specular_sharpness (sp_lambda sp)) pts in
  let sg_range' := specular_sg_range sharpness' in
  (In s sharpness ->
   0.05 <= (-0.95 * sg_range) / s + 1 < 1 /\ 0 < r_phi_range sg_range s < PI / 2) /\
  (In s' sharpness' ->
   0.05 <= (-0.95 * sg_range') / s' + 1 < 1 /\ 0 < r_phi_range sg_range' s' < PI / 2).
Proof.
  intros Hthr sharpness sg_range sharpness' sg_range'. split.
  - intros Hs. apply r_phi_range_bounds.
    assert (Hall : Forall (fun x => 0 < x) sharpness).
    { apply Forall_forall. intros x Hx.
      apply list_elem_of_fmap in Hx as (l & -> & _).
      apply Rlt_le_trans with 1e-4; [lra | apply clamp_min_ge]. }
    pose proof (Rlist_min_pos sharpness s Hs Hall) as Hpos.
    pose proof (Rlist_min_le sharpness s Hs) as Hle.
    unfold sg_range, clamp_max. split.
    + apply Rmin_glb_lt; assumption.
    + apply Rle_trans with (Rlist_min sharpness); [apply Rmin_l | exact Hle].
  - intros Hs. apply r_phi_range_bounds.
    assert (Hall : Forall (fun x => 0 < x) sharpness').
    { apply Forall_forall. intros x Hx.
      apply list_elem_of_fmap in Hx as (sp & -> & _).
      apply specular_sharpness_pos. }
    pose proof (Rlist_min_pos sharpness' s' Hs Hall) as Hpos.
    pose proof (Rlist_min_le sharpness' s' Hs) as Hle.
    unfold sg_range', specular_sg_range, clamp_max. split.
    + apply Rmin_glb_lt; [assumption | lra].
    + apply Rle_trans with (Rlist_min sharpness'); [apply Rmin_l | exact Hle].
Qed.

Lemma sampling_cone_range_witness :
  let sharpness := map (fun l => clamp_min l 1e-4) [10; 20] in
  let sg_range := clamp_max (Rlist_min sharpness) 1 in
  let sharpness' :=
    map (fun sp => specular_sharpness (sp_lambda sp))
        [SpecPoint z_axis z_axis z_axis z_axis 10] in
  let sg_range' := specular_sg_range sharpness' in
  (0.05 <= (-0.95 * sg_range) / clamp_min 20 1e-4 + 1 < 1 /\
   0 < r_phi_range sg_range (clamp_min 20 1e-4) < PI / 2) /\
  (0.05 <= (-0.95 * sg_range') / specular_sharpness 10 + 1 < 1 /\
   0 < r_phi_range sg_range' (specular_sharpness 10) < PI / 2).
Proof.
  intros sharpness sg_range sharpness' sg_range'.
  destruct (sampling_cone_range [10; 20] 1 [SpecPoint z_axis z_axis z_axis z_axis 10]
              (clamp_min 20 1e-4) (specular_sharpness 10) ltac:(lra)) as [Hd Hs].
  split.
  - apply Hd. right; left; reflexivity.
  - apply Hs. left; reflexivity.
Defined.

(** ** The tangent frame of a lobe along the z axis *)

Lemma vdiv_zero3 (d : R) : vdiv (V3 0 0 0) d = V3 0 0 0.
Proof. unfold vdiv. simpl. f_equal; unfold Rdiv; ring. Qed.

Lemma norm_axis_zero3 : norm_axis (V3 0 0 0) = V3 0 0 0.
Proof. unfold norm_axis. apply vdiv_zero3. Qed.

Lemma degenerate_frame (a : vec3) (r_theta r_phi : R) :
  vx a = 0 -> vy a = 0 ->
  let U := norm_axis (cross z_axis a) in
  let V := norm_axis (cross a U) in
  U = V3 0 0 0 /\ V = V3 0 0 0 /\
  sample_direction U V a r_theta r_phi = vmul_s a (cos r_phi).
Proof.
  intros Hx Hy U V.
  assert (HU : U = V3 0 0 0).
  { unfold U. replace (cross z_axis a) with (V3 0 0 0); [apply norm_axis_zero3|].
    unfold cross, z_axis. simpl. rewrite Hx, Hy. f_equal; ring. }
  assert (HV : V = V3 0 0 0).
  { unfold V. rewrite HU. replace (cross a (V3 0 0 0)) with (V3 0 0 0);
      [apply norm_axis_zero3|].
    unfold cross. simpl. f_equal; ring. }
  split; [exact HU|]. split; [exact HV|].
  rewrite HU, HV. unfold sample_direction, vadd, vmul_s. simpl. f_equal; ring.
Qed.

Lemma combine_lookup {A B : Type} (l1 : list A) (l2 : list B) (k : nat) (a : A) (b : B) :
  l1 !! k = Some a -> l2 !! k = Some b -> combine l1 l2 !! k = Some (a, b).
Proof.
  revert l2 k. induction l1 as [|x l1 IH]; intros l2 k H1 H2; [discriminate|].
  destruct l2 as [|y l2]; [discriminate|].
  destruct k as [|k]; simpl in *.
  - injection H1 as ->. injection H2 as ->. reflexivity.
  - apply IH; assumption.
Qed.

(** X14.  The tangent frame degenerates for a lobe along the z axis:
    [cross(z_axis, light_dirs)] is zero, so [U] and [V] are zero and every
    sample of that lobe is the normalised axis scaled by [cos(r_phi)];
    the azimuth draw [r_theta] has no effect and no sample leaves the
    axis.  (The epsilon of [norm_axis] keeps the zero cross product from
    producing NaN.)  Stated for any number of lobes other than 3: with
    exactly three lobes [torch.cross] takes the product along the lobe
    axis instead (see [cross]). *)
Theorem diffuse_samples_on_z_axis (rand_theta rand_phi : nat -> nat -> R)
    (lgtSGLobes : list vec3) (lgtSGLambdas : list R) (nsamp : nat) (thr : R)
    (k j : nat) (c lam : R) :
  length lgtSGLobes <> 3%nat ->
  lgtSGLobes !! k = Some (V3 0 0 c) ->
  lgtSGLambdas !! k = Some lam ->
  (j < nsamp)%nat ->
  let sharpness := map (fun l => clamp_min l 1e-4) lgtSGLambdas in
  let sg_range := clamp_max (Rlist_min sharpness) thr in
  let r_phi := rand_phi k j * r_phi_range sg_range (clamp_min lam 1e-4) in
  nth j (nth k (diffuse_sample_dir rand_theta rand_phi lgtSGLobes lgtSGLambdas nsamp thr) [])
      (V3 0 0 0) =
  vmul_s (norm_axis (V3 0 0 c)) (cos r_phi).
Proof.
  intros _ Hk Hl Hj sharpness sg_range r_phi.
  assert (Hc : combine (diffuse_light_dirs lgtSGLobes) sharpness !! k =
               Some (norm_axis (V3 0 0 c), clamp_min lam 1e-4)).
  { apply combine_lookup.
    - unfold diffuse_light_dirs.
      change (map norm_axis lgtSGLobes) with (norm_axis <$> lgtSGLobes).
      rewrite list_lookup_fmap, Hk. reflexivity.
    - unfold sharpness.
      change (map (fun l => clamp_min l 1e-4) lgtSGLambdas)
        with ((fun l => clamp_min l 1e-4) <$> lgtSGLambdas).
      rewrite list_lookup_fmap, Hl. reflexivity. }
  unfold diffuse_sample_dir. cbv zeta. fold sharpness. fold sg_range.
  match goal with
  | |- context [nth k (imap ?f ?l) []] =>
      assert (Hrow : imap f l !! k = Some (f k (norm_axis (V3 0 0 c), clamp_min lam 1e-4)))
        by (rewrite list_lookup_imap, Hc; reflexivity);
      rewrite (nth_lookup_Some _ k [] _ Hrow)
  end.
  cbn [fst snd].
  rewrite nth_map_seq by exact Hj.
  assert (Hax : vx (norm_axis (V3 0 0 c)) = 0 /\ vy (norm_axis (V3 0 0 c)) = 0).
  { unfold norm_axis, vdiv. simpl. split; unfold Rdiv; ring. }
  destruct (degenerate_frame (norm_axis (V3 0 0 c)) (rand_theta k j * 2 * PI) r_phi
              (proj1 Hax) (proj2 Hax)) as (_ & _ & Hs).
  exact Hs.
Qed.

Lemma diffuse_samples_on_z_axis_witness :
  let sharpness := map (fun l => clamp_min l 1e-4) [1] in
  let sg_range := clamp_max (Rlist_min sharpness) 1 in
  let r_phi := ex_rand 0 0 * r_phi_range sg_range (clamp_min 1 1e-4) in
  nth 0 (nth 0 (diffuse_sample_dir ex_rand ex_rand [V3 0 0 1] [1] 1 1) []) (V3 0 0 0) =
  vmul_s (norm_axis (V3 0 0 1)) (cos r_phi).
Proof.
  apply (diffuse_samples_on_z_axis ex_rand ex_rand [V3 0 0 1] [1] 1 1 0 0 1 1);
    [simpl; lia | reflexivity | reflexivity | lia].
Defined.

(** ** The calls of the batch-forward loop *)

Lemma query_sizes_app (t1 t2 : list event) :
  query_sizes (t1 ++ t2) = query_sizes t1 ++ query_sizes t2.
Proof.
  induction t1 as [|[rows|s] t1 IH]; simpl; [reflexivity | | exact IH].
  rewrite IH. reflexivity.
Qed.

Lemma batch_forward_trace (VisModel : vec3 -> vec3 -> score) (rows : list (vec3 * vec3))
      (chunks : list (list nat)) (acc : list score) :
  query_sizes
    (trace_of
       (foldM (fun pred_vis indx =>
                 do out <- VisModel_batch VisModel
                             (index_select (V3 0 0 0, V3 0 0 0) rows indx);
                 ret (index_put pred_vis indx out))
              chunks acc)) =
  map (@length nat) chunks.
Proof.
  revert acc. induction chunks as [|c chunks IH]; intros acc; [reflexivity|].
  cbn [foldM]. unfold VisModel_batch at 1.
  rewrite bind_Returned. cbn [ret trace_of result_of fst snd].
  rewrite bind_Returned. unfold trace_of at 1. cbn [fst].
  rewrite !query_sizes_app. simpl. rewrite IH.
  unfold index_select. rewrite length_map. reflexivity.
Qed.

Lemma arange_chunks_sizes (steps start remaining batch_size : nat) :
  (0 < batch_size)%nat -> (remaining <= steps)%nat ->
  Forall (fun c => (0 < length c <= batch_size)%nat)
         (arange_chunks steps start remaining batch_size) /\
  length (arange_chunks steps start remaining batch_size) =
    ((remaining + batch_size - 1) / batch_size)%nat.
Proof.
  intros Hb. revert start remaining.
  induction steps as [|steps IH]; intros start remaining Hr.
  - assert (remaining = 0)%nat by lia. subst. simpl. split; [constructor|].
    symmetry. apply Nat.div_small. lia.
  - destruct remaining as [|r].
    + simpl. split; [constructor|]. symmetry. apply Nat.div_small. lia.
    + cbn [arange_chunks].
      set (k := Nat.min batch_size (S r)).
      assert (Hk : (0 < k <= S r)%nat) by (unfold k; lia).
      destruct (IH (start + k)%nat (S r - k)%nat ltac:(lia)) as [Hall Hlen].
      split.
      * constructor; [rewrite length_seq; unfold k; lia | exact Hall].
      * cbn [length]. rewrite Hlen.
        destruct (le_lt_dec (S r) batch_size) as [Hsmall|Hbig].
        -- replace (S r - k)%nat with 0%nat by (unfold k; lia).
           rewrite (Nat.div_small (0 + batch_size - 1)) by lia.
           apply (Nat.div_unique _ _ 1 r); lia.
        -- replace k with batch_size by (unfold k; lia).
           replace (S r + batch_size - 1)%nat
             with ((S r - batch_size + batch_size - 1) + 1 * batch_size)%nat by lia.
           rewrite Nat.div_add by lia. lia.
Qed.

(** X15.  The batch-forward loop of both samplers calls the predictor
    [ceil(n / batch_size)] times for [n > 0] selected rows, and once (with
    no rows) when the mask selects nothing; no call receives more than
    [batch_size] rows, and together the calls cover the [n] rows. *)
Theorem batch_forward_calls (VisModel : vec3 -> vec3 -> score) (batch_size : nat)
    (rows : list (vec3 * vec3)) :
  (0 < batch_size)%nat ->
  let tr := trace_of (batch_forward VisModel batch_size rows) in
  Forall (fun k => (k <= batch_size)%nat) (query_sizes tr) /\
  length (query_sizes tr) =
    (if Nat.eqb (length rows) 0 then 1
     else (length rows + batch_size - 1) / batch_size)%nat /\
  queried_rows tr = rows /\
  breakpoints tr = [].
Proof.
  intros Hb tr.
  destruct (batch_forward_spec VisModel batch_size rows Hb) as (tr' & Hrun & Hq & Hbp).
  assert (Htr : tr = tr') by (unfold tr; rewrite Hrun; reflexivity).
  split; [|split; [|split; [rewrite Htr; exact Hq | rewrite Htr; exact Hbp]]].
  - unfold tr, batch_forward. rewrite batch_forward_trace.
    unfold split_arange. destruct (length rows) as [|n] eqn:Hn.
    + repeat constructor. simpl. lia.
    + destruct (arange_chunks_sizes (S n) 0 (S n) batch_size Hb ltac:(lia)) as [Hall _].
      apply Forall_forall. intros k Hk.
      apply list_elem_of_fmap in Hk as (c & -> & Hc).
      rewrite Forall_forall in Hall. apply Hall in Hc. lia.
  - unfold tr, batch_forward. rewrite batch_forward_trace, length_map.
    unfold split_arange. destruct (length rows) as [|n] eqn:Hn; [reflexivity|].
    destruct (arange_chunks_sizes (S n) 0 (S n) batch_size Hb ltac:(lia)) as [_ Hlen].
    exact Hlen.
Qed.

Lemma batch_forward_calls_witness :
  let tr := trace_of (batch_forward ex_VisModel 2
                        [(z_axis, z_axis); (z_axis, z_axis); (z_axis, z_axis)]) in
  Forall (fun k => (k <= 2)%nat) (query_sizes tr) /\
  length (query_sizes tr) =
    (if Nat.eqb (length [(z_axis, z_axis); (z_axis, z_axis); (z_axis, z_axis)]) 0 then 1
     else (length [(z_axis, z_axis); (z_axis, z_axis); (z_axis, z_axis)] + 2 - 1) / 2)%nat /\
  queried_rows tr = [(z_axis, z_axis); (z_axis, z_axis); (z_axis, z_axis)] /\
  breakpoints tr = [].
Proof.
  apply (batch_forward_calls ex_VisModel 2
           [(z_axis, z_axis); (z_axis, z_axis); (z_axis, z_axis)]).
  lia.
Defined.

(** ** The [bounding] path of the diffuse sampler *)

(** X16.  With [bounding] the diffuse sampler returns the per-sample
    tensor, of shape [n_lobe x nsamp x n_points], straight after the
    scatter: it never reaches the NaN check, whatever the predictor
    returns, and the operator is never asked. *)
Theorem bounding_skips_nan_check (VisModel : vec3 -> vec3 -> score)
    (dbg : trap_site -> dbg_cmd) (rand_theta rand_phi : nat -> nat -> R)
    (batch_size : nat) (points normals lgtSGLobes : list vec3) (lgtSGLambdas : list R)
    (nsamp : nat) (testing : bool) (thr : R) (argmax_vis : bool) :
  (0 < batch_size)%nat ->
  exists tr vis,
    get_diffuse_visibility VisModel dbg rand_theta rand_phi batch_size points normals
      lgtSGLobes lgtSGLambdas nsamp testing thr true argmax_vis =
      (tr, Returned (VisPerSample vis)) /\
    breakpoints tr = [] /\
    length vis = length lgtSGLobes /\
    Forall (fun per_lobe =>
              length per_lobe = nsamp /\
              Forall (fun per_sample => length per_sample = length points) per_lobe)
           vis.
Proof.
  intros Hb.
  destruct (get_diffuse_visibility_run VisModel dbg rand_theta rand_phi batch_size
              points normals lgtSGLobes lgtSGLambdas nsamp testing thr true
              argmax_vis Hb) as (tr & _ & Hbp & Hrun).
  cbv zeta in Hrun.
  eexists tr, _. split; [exact Hrun|]. split; [exact Hbp|].
  unfold diffuse_per_sample_vis, diffuse_vis_permuted. cbv zeta.
  split; [rewrite length_map, length_seq; reflexivity|].
  apply Forall_forall. intros x Hx.
  apply list_elem_of_fmap in Hx as (k & -> & _).
  split; [rewrite length_map, length_seq; reflexivity|].
  apply Forall_forall. intros y Hy.
  apply list_elem_of_fmap in Hy as (j & -> & _).
  rewrite length_map, length_seq. reflexivity.
Qed.

Lemma bounding_skips_nan_check_witness :
  exists tr vis,
    get_diffuse_visibility ex_VisModel_nan ex_dbg ex_rand ex_rand 2 [V3 0 0 0] [z_axis]
      [z_axis] [1] 1 false 1 true false = (tr, Returned (VisPerSample vis)) /\
    breakpoints tr = [] /\
    length vis = length [z_axis] /\
    Forall (fun per_lobe =>
              length per_lobe = 1%nat /\
              Forall (fun per_sample => length per_sample = length [V3 0 0 0]) per_lobe)
           vis.
Proof.
  apply (bounding_skips_nan_check ex_VisModel_nan ex_dbg ex_rand ex_rand 2 [V3 0 0 0]
           [z_axis] [z_axis] [1] 1 false 1 false).
  lia.
Defined.

(** ** Aggregation of values in the unit interval *)

Lemma diffuse_aggregated_unit_of (VisModel : vec3 -> vec3 -> score)
      (rand_theta rand_phi : nat -> nat -> R) (points normals lgtSGLobes : list vec3)
      (lgtSGLambdas : list R) (nsamp : nat) (thr : R) (argmax_vis : bool) :
  (forall p d, in_unit_interval (diffuse_reduce argmax_vis (VisModel p d))) ->
  Forall (Forall in_unit_interval)
    (diffuse_aggregated_vis VisModel rand_theta rand_phi points normals lgtSGLobes
       lgtSGLambdas nsamp thr argmax_vis).
Proof.
  intros Hred. unfold diffuse_aggregated_vis.
  pose proof (diffuse_per_sample_Forall VisModel rand_theta rand_phi points normals
                lgtSGLobes lgtSGLambdas nsamp thr argmax_vis in_unit_interval
                ltac:(simpl; lra) Hred) as Hps.
  pose proof (diffuse_weight_vis_nonneg rand_theta rand_phi lgtSGLobes lgtSGLambdas
                nsamp thr) as Hw.
  set (per_sample := diffuse_per_sample_vis _ _ _ _ _ _ _ _ _ _) in *.
  set (weight_vis := diffuse_weight_vis _ _ _) in *.
  unfold diffuse_mean_vis.
  apply Forall_forall. intros row Hrow.
  apply list_elem_of_lookup in Hrow as [k Hk].
  rewrite lookup_zip_with in Hk.
  destruct (per_sample !! k) as [vis_k|] eqn:Hvk; simpl in Hk; [|discriminate].
  destruct (weight_vis !! k) as [w_k|] eqn:Hwk; simpl in Hk; [|discriminate].
  injection Hk as <-.
  apply Forall_forall. intros v Hv.
  apply list_elem_of_fmap in Hv as (p & -> & _).
  apply weighted_mean_unit.
  - apply Forall_forall. intros u Hu.
    apply list_elem_of_fmap in Hu as (row & -> & Hrow).
    apply nth_Forall_default; [|simpl; lra].
    rewrite Forall_forall in Hps.
    pose proof (Hps vis_k (list_elem_of_lookup_2 _ _ _ Hvk)) as Hk.
    rewrite Forall_forall in Hk. apply Hk, Hrow.
  - rewrite Forall_forall in Hw. apply Hw.
    apply (list_elem_of_lookup_2 _ k). exact Hwk.
Qed.

Lemma specular_aggregated_unit_of (VisModel : vec3 -> vec3 -> score)
      (rand_theta rand_phi : nat -> nat -> R)
      (points normals viewdirs lgtSGLobes : list vec3) (lgtSGLambdas : list R)
      (nsamp : nat) (inv argmax_vis : bool) :
  (forall p d, in_unit_interval (specular_reduce inv argmax_vis (VisModel p d))) ->
  Forall in_unit_interval
    (specular_aggregated_vis VisModel rand_theta rand_phi points normals viewdirs
       lgtSGLobes lgtSGLambdas nsamp inv argmax_vis).
Proof.
  intros Hred. unfold specular_aggregated_vis. cbv zeta.
  pose proof (specular_per_sample_Forall VisModel rand_theta rand_phi points normals
                viewdirs lgtSGLobes lgtSGLambdas nsamp inv argmax_vis in_unit_interval
                ltac:(simpl; lra) Hred) as Hps.
  pose proof (specular_weight_vis_nonneg rand_theta rand_phi points normals viewdirs
                lgtSGLobes lgtSGLambdas nsamp) as Hw.
  set (per_sample := specular_per_sample_vis _ _ _ _ _ _ _ _ _ _ _) in *.
  set (weight_vis := specular_weight_vis _ _) in *.
  apply Forall_forall. intros v Hv.
  apply list_elem_of_lookup in Hv as [p Hp].
  rewrite list_lookup_imap in Hp.
  destruct (weight_vis !! p) as [w_p|] eqn:Hwp; simpl in Hp; [|discriminate].
  injection Hp as <-.
  apply weighted_mean_unit.
  - apply Forall_forall. intros u Hu.
    apply list_elem_of_fmap in Hu as (j & -> & _).
    apply nth_Forall_default; [exact Hps | simpl; lra].
  - rewrite Forall_forall in Hw. apply Hw.
    apply (list_elem_of_lookup_2 _ p). exact Hwp.
Qed.

(** X17.  In argmax mode the samplers are immune to NaN scores:
    [torch.argmax] and [torch.argmin] return an index even on NaN, so for
    every predictor, also one that returns NaN, the aggregated visibility
    of both samplers lies in [[0, 1]], the NaN check does not fire and
    the call returns. *)
Theorem argmax_mode_never_traps (VisModel : vec3 -> vec3 -> score)
    (dbg : trap_site -> dbg_cmd) (rand_theta rand_phi : nat -> nat -> R)
    (batch_size : nat) (points normals viewdirs lgtSGLobes : list vec3)
    (lgtSGLambdas : list R) (nsamp : nat) (testing : bool) (thr : R) (inv : bool) :
  (0 < batch_size)%nat ->
  (exists tr vis,
      get_diffuse_visibility VisModel dbg rand_theta rand_phi batch_size points normals
        lgtSGLobes lgtSGLambdas nsamp testing thr false true = (tr, Returned (VisMean vis)) /\
      breakpoints tr = [] /\
      Forall (Forall in_unit_interval) vis) /\
  (exists tr vis,
      get_specular_visibility VisModel dbg rand_theta rand_phi batch_size points normals
        viewdirs lgtSGLobes lgtSGLambdas nsamp testing inv true = (tr, Returned vis) /\
      breakpoints tr = [] /\
      Forall in_unit_interval vis).
Proof.
  intros Hb. split.
  - destruct (get_diffuse_visibility_run VisModel dbg rand_theta rand_phi batch_size
                points normals lgtSGLobes lgtSGLambdas nsamp testing thr false
                true Hb) as (tr & _ & Hbp & Hrun).
    pose proof (diffuse_aggregated_unit_of VisModel rand_theta rand_phi points normals
                  lgtSGLobes lgtSGLambdas nsamp thr true
                  ltac:(intros p d; apply is_binary_unit, argmax2_binary)) as Hu.
    cbv zeta in Hrun. rewrite (unit_rows_no_nan _ Hu) in Hrun.
    eexists tr, _. split; [exact Hrun|]. split; [exact Hbp | exact Hu].
  - destruct (get_specular_visibility_run VisModel dbg rand_theta rand_phi batch_size
                points normals viewdirs lgtSGLobes lgtSGLambdas nsamp testing inv
                true Hb) as (tr & _ & Hbp & Hrun).
    assert (Hred : forall p d, in_unit_interval (specular_reduce inv true (VisModel p d))).
    { intros p d. unfold specular_reduce.
      destruct inv; apply is_binary_unit; [apply argmin2_binary | apply argmax2_binary]. }
    pose proof (specular_aggregated_unit_of VisModel rand_theta rand_phi points normals
                  viewdirs lgtSGLobes lgtSGLambdas nsamp inv true Hred) as Hu.
    cbv zeta in Hrun.
    rewrite (any_nan_false _ (unit_no_nan _ Hu)) in Hrun.
    eexists tr, _. split; [exact Hrun|]. split; [exact Hbp | exact Hu].
Qed.

Lemma argmax_mode_never_traps_witness :
  (exists tr vis,
      get_diffuse_visibility ex_VisModel_nan ex_dbg ex_rand ex_rand 2 [V3 0 0 0] [z_axis]
        [z_axis] [1] 1 false 1 false true = (tr, Returned (VisMean vis)) /\
      breakpoints tr = [] /\
      Forall (Forall in_unit_interval) vis) /\
  (exists tr vis,
      get_specular_visibility ex_VisModel_nan ex_dbg ex_rand ex_rand 2 [V3 0 0 0] [z_axis]
        [z_axis] [z_axis] [1] 1 false false true = (tr, Returned vis) /\
      breakpoints tr = [] /\
      Forall in_unit_interval vis).
Proof.
  apply (argmax_mode_never_traps ex_VisModel_nan ex_dbg ex_rand ex_rand 2 [V3 0 0 0]
           [z_axis] [z_axis] [z_axis] [1] 1 false 1 false).
  lia.
Defined.

(** ** The mirror direction of the specular sampler *)

(** X18.  For a unit normal facing the viewer ([n . v >= 0]) the
    direction [ref_dir] of the specular sampler is the mirror image of
    the view direction: it has the same length and the same component
    along the normal.  For a normal facing away the clamp makes it the
    opposite of the view direction. *)
Theorem specular_ref_dir_mirror (normal viewdir : vec3) :
  norm normal = 1 ->
  (0 <= dot normal viewdir ->
   dot normal (specular_ref_dir normal viewdir) = dot normal viewdir /\
   norm (specular_ref_dir normal viewdir) = norm viewdir) /\
  (dot normal viewdir <= 0 -> specular_ref_dir normal viewdir = vneg viewdir).
Proof.
  intros Hn.
  assert (Hnn : dot normal normal = 1) by (rewrite <- norm_sqr, Hn; ring).
  split.
  - intros Hpos. unfold specular_ref_dir, clamp_min. cbv zeta.
    rewrite Rmax_left by exact Hpos.
    set (c := dot normal viewdir) in *.
    assert (Hd : dot normal (vadd (vneg viewdir) (vscale (2 * c) normal)) = c).
    { transitivity (- c + 2 * c * dot normal normal).
      - unfold c, dot, vadd, vneg, vscale. simpl. ring.
      - rewrite Hnn. ring. }
    split; [exact Hd|].
    unfold norm. f_equal.
    transitivity (dot viewdir viewdir - 4 * c * c + 4 * c * c * dot normal normal).
    + unfold c, dot, vadd, vneg, vscale. simpl. ring.
    + rewrite Hnn. ring.
  - intros Hneg. unfold specular_ref_dir, clamp_min. cbv zeta.
    rewrite Rmax_right by exact Hneg.
    unfold vadd, vneg, vscale. simpl. f_equal; ring.
Qed.

Lemma specular_ref_dir_mirror_witness :
  (0 <= dot z_axis z_axis ->
   dot z_axis (specular_ref_dir z_axis z_axis) = dot z_axis z_axis /\
   norm (specular_ref_dir z_axis z_axis) = norm z_axis) /\
  (dot z_axis z_axis <= 0 -> specular_ref_dir z_axis z_axis = vneg z_axis).
Proof. apply (specular_ref_dir_mirror z_axis z_axis). apply norm_z_axis. Defined.

(** ** The inverted visibility of the indirect pass *)

(** X19.  With [inv] the specular sampler reduces the two-class scores
    to the complement: in softmax mode the inverted value is one minus
    the plain one for every NaN-free score; in argmax mode as well, unless
    the two scores are equal, when [argmax] and [argmin] both return
    index 0. *)
Theorem inverted_visibility_complement (s : score) :
  numeric_score s ->
  specular_reduce true false s = tsub (Val 1) (specular_reduce false false s) /\
  (fst s <> snd s ->
   specular_reduce true true s = tsub (Val 1) (specular_reduce false true s)) /\
  (fst s = snd s ->
   specular_reduce true true s = Val 0 /\ specular_reduce false true s = Val 0).
Proof.
  destruct s as [[a|] [b|]]; intros [H1 H2]; simpl in *; try discriminate.
  unfold specular_reduce, softmax2_0, softmax2_1, argmax2, argmin2, tsub, tlift2.
  cbn [fst snd].
  split; [|split].
  - f_equal. pose proof (exp_pos a). pose proof (exp_pos b). field. lra.
  - intros Hne.
    destruct (Rlt_dec b a) as [Hba|Hba], (Rlt_dec a b) as [Hab|Hab]; simpl.
    + lra.
    + f_equal. ring.
    + f_equal. ring.
    + exfalso. apply Hne. f_equal. lra.
  - intros Heq. injection Heq as ->.
    destruct (Rlt_dec b b) as [Hbb|Hbb]; [lra|]. split; reflexivity.
Qed.

Lemma inverted_visibility_complement_witness :
  specular_reduce true false (Val 0, Val 1) =
    tsub (Val 1) (specular_reduce false false (Val 0, Val 1)) /\
  (fst (Val 0, Val 1) <> snd (Val 0, Val 1) ->
   specular_reduce true true (Val 0, Val 1) =
     tsub (Val 1) (specular_reduce false true (Val 0, Val 1))) /\
  (fst (Val 0, Val 1) = snd (Val 0, Val 1) ->
   specular_reduce true true (Val 0, Val 1) = Val 0 /\
   specular_reduce false true (Val 0, Val 1) = Val 0).
Proof.
  apply (inverted_visibility_complement (Val 0, Val 1)). split; reflexivity.
Defined.

(** ** The shape of the aggregated tensors *)

(** X20.  The diffuse sampler returns one row per light lobe and one
    column per point, the specular sampler one value per point, and in
    multi-view mode one row per view with one value per point, when
    the argument tensors agree in their leading sizes. *)
Theorem aggregated_visibility_shapes (VisModel : vec3 -> vec3 -> score)
    (rand_theta rand_phi : nat -> nat -> R)
    (points normals viewdirs lgtSGLobes warpLobes : list vec3)
    (lgtSGLambdas warpLambdas : list R)
    (viewdirs_mv warpLobes_mv : list (list vec3)) (warpLambdas_mv : list (list R))
    (nsamp : nat) (thr : R) (inv argmax_vis : bool) :
  length lgtSGLambdas = length lgtSGLobes ->
  length normals = length points ->
  length viewdirs = length points ->
  length warpLobes = length points ->
  length warpLambdas = length points ->
  length warpLobes_mv = length viewdirs_mv ->
  length warpLambdas_mv = length viewdirs_mv ->
  Forall (fun v => length v = length points) viewdirs_mv ->
  Forall (fun v => length v = length points) warpLobes_mv ->
  Forall (fun v => length v = length points) warpLambdas_mv ->
  let diffuse := diffuse_aggregated_vis VisModel rand_theta rand_phi points normals
                   lgtSGLobes lgtSGLambdas nsamp thr argmax_vis in
  let specular := specular_aggregated_vis VisModel rand_theta rand_phi points normals
                    viewdirs warpLobes warpLambdas nsamp inv argmax_vis in
  let multi := multi_view_aggregated_vis VisModel rand_theta rand_phi points normals
                 viewdirs_mv warpLobes_mv warpLambdas_mv nsamp in
  length diffuse = length lgtSGLobes /\
  Forall (fun row => length row = length points) diffuse /\
  length specular = length points /\
  length multi = length viewdirs_mv /\
  Forall (fun row => length row = length points) multi.
Proof.
  intros Hl Hn Hv Hwl Hwm Hml Hmm Fv Fl Fm diffuse specular multi.
  assert (Hpts : forall vd wl wm,
             length vd = length points -> length wl = length points ->
             length wm = length points ->
             length (specular_points points normals vd wl wm) = length points).
  { intros vd wl wm H1 H2 H3. unfold specular_points.
    rewrite length_zip_with, !length_combine. lia. }
  split; [|split; [|split; [|split]]].
  - unfold diffuse, diffuse_aggregated_vis, diffuse_mean_vis.
    rewrite length_zip_with.
    unfold diffuse_per_sample_vis, diffuse_vis_permuted, diffuse_weight_vis. cbv zeta.
    rewrite length_map, length_seq, length_zip_with, length_combine.
    unfold diffuse_light_dirs. rewrite length_map.
    rewrite (diffuse_sample_dir_length rand_theta rand_phi lgtSGLobes lgtSGLambdas
               nsamp thr Hl).
    lia.
  - unfold diffuse, diffuse_aggregated_vis, diffuse_mean_vis.
    apply Forall_forall. intros row Hrow.
    apply list_elem_of_lookup in Hrow as [k Hk].
    rewrite lookup_zip_with in Hk.
    destruct (diffuse_per_sample_vis _ _ _ _ _ _ _ _ _ _ !! k) as [vis_k|];
      simpl in Hk; [|discriminate].
    destruct (diffuse_weight_vis _ _ _ !! k) as [w_k|]; simpl in Hk; [|discriminate].
    injection Hk as <-. rewrite length_map, length_seq. reflexivity.
  - unfold specular, specular_aggregated_vis. cbv zeta.
    rewrite length_imap. unfold specular_weight_vis.
    rewrite length_zip_with. unfold specular_sample_dir, specular_sample_dir_at.
    rewrite length_imap. rewrite Hpts by assumption. lia.
  - unfold multi, multi_view_aggregated_vis. cbv zeta.
    rewrite length_imap, length_zip_with.
    unfold multi_view_sample_dir. rewrite length_map.
    unfold specular_views. rewrite length_zip_with, length_combine. lia.
  - unfold multi, multi_view_aggregated_vis. cbv zeta.
    apply Forall_forall. intros row Hrow.
    apply list_elem_of_lookup in Hrow as [v Hrow].
    rewrite list_lookup_imap in Hrow.
    destruct (zip_with specular_weight_vis _ _ !! v) as [w_v|] eqn:Hw;
      simpl in Hrow; [|discriminate].
    injection Hrow as <-. rewrite length_imap.
    rewrite lookup_zip_with in Hw.
    destruct (specular_views _ _ _ _ _ !! v) as [pts|] eqn:Hp; simpl in Hw; [|discriminate].
    destruct (multi_view_sample_dir _ _ _ _ !! v) as [dirs|] eqn:Hd; simpl in Hw;
      [|discriminate].
    injection Hw as <-.
    unfold specular_weight_vis. rewrite length_zip_with.
    unfold multi_view_sample_dir in Hd.
    change (map ?f ?l) with (f <$> l) in Hd.
    rewrite list_lookup_fmap, Hp in Hd. simpl in Hd. injection Hd as <-.
    unfold specular_sample_dir_at. rewrite length_imap.
    unfold specular_views in Hp. rewrite lookup_zip_with in Hp.
    destruct (viewdirs_mv !! v) as [vd|] eqn:Hvd; simpl in Hp; [|discriminate].
    destruct (combine warpLobes_mv warpLambdas_mv !! v) as [[wl wm]|] eqn:Hc;
      simpl in Hp; [|discriminate].
    injection Hp as <-.
    assert (Hin : In (wl, wm) (combine warpLobes_mv warpLambdas_mv)).
    { apply list_elem_of_In. apply (list_elem_of_lookup_2 _ v). exact Hc. }
    rewrite Forall_forall in Fv. rewrite Forall_forall in Fl. rewrite Forall_forall in Fm.
    rewrite Hpts; [lia | | |].
    + apply Fv. apply (list_elem_of_lookup_2 _ v). exact Hvd.
    + apply Fl. apply list_elem_of_In. apply (in_combine_l _ _ _ _ Hin).
    + apply Fm. apply list_elem_of_In. apply (in_combine_r _ _ _ _ Hin).
Qed.

Lemma aggregated_visibility_shapes_witness :
  let diffuse := diffuse_aggregated_vis ex_VisModel ex_rand ex_rand [V3 0 0 0] [z_axis]
                   [z_axis] [1] 1 1 false in
  let specular := specular_aggregated_vis ex_VisModel ex_rand ex_rand [V3 0 0 0] [z_axis]
                    [z_axis] [z_axis] [1] 1 false false in
  let multi := multi_view_aggregated_vis ex_VisModel ex_rand ex_rand [V3 0 0 0] [z_axis]
                 [[z_axis]] [[z_axis]] [[1]] 1 in
  length diffuse = length [z_axis] /\
  Forall (fun row => length row = length [V3 0 0 0]) diffuse /\
  length specular = length [V3 0 0 0] /\
  length multi = length [[z_axis]] /\
  Forall (fun row => length row = length [V3 0 0 0]) multi.
Proof.
  apply (aggregated_visibility_shapes ex_VisModel ex_rand ex_rand [V3 0 0 0] [z_axis]
           [z_axis] [z_axis] [z_axis] [1] [1] [[z_axis]] [[z_axis]] [[1]] 1 1 false false);
    try reflexivity; repeat constructor.
Defined.

(** * Further properties of the shading engine *)

(** ** Fresnel term and warped BRDF lobe *)

Lemma Rpower_2_nonpos (x : R) : x <= 0 -> 0 < Rpower 2 x <= 1.
Proof.
  intros Hx. unfold Rpower.
  assert (Hl : 0 < ln 2) by (pose proof ln_lt_2; lra).
  apply exp_nonpos_le_1. nra.
Qed.

Lemma fresnel_bounds_aux (spec_col v_dot_h : R) :
  0 <= spec_col <= 1 -> 0 <= v_dot_h ->
  spec_col <= fresnel spec_col v_dot_h <= 1 /\ fresnel spec_col 0 = 1.
Proof.
  intros Hs Hv. split.
  - unfold fresnel.
    pose proof (Rpower_2_nonpos (- (5.55473 * v_dot_h + 6.8316) * v_dot_h) ltac:(nra)) as Hp.
    set (p := Rpower 2 _) in *. split; nra.
  - unfold fresnel. replace (- (5.55473 * 0 + 6.8316) * 0) with 0 by ring.
    rewrite Rpower_O by lra. ring.
Qed.

(** X23.  For a base reflectance in [[0, 1]] and [v_dot_h >= 0]
    Schlick's Fresnel term lies between the base reflectance and 1, and
    it is exactly 1 at [v_dot_h = 0]. *)
Theorem fresnel_bounds (spec_col v_dot_h : R) :
  0 <= spec_col <= 1 -> 0 <= v_dot_h ->
  spec_col <= fresnel spec_col v_dot_h <= 1 /\ fresnel spec_col 0 = 1.
Proof. apply fresnel_bounds_aux. Qed.

Lemma fresnel_bounds_witness :
  1 / 25 <= fresnel (1 / 25) (1 / 2) <= 1 /\ fresnel (1 / 25) 0 = 1.
Proof. apply (fresnel_bounds (1 / 25) (1 / 2)); lra. Defined.




(** ** What the shading engine asks the predictor *)

Lemma queried_rows_trap_if (dbg : trap_site -> dbg_cmd) (cond : bool) (site : trap_site) :
  queried_rows (trace_of (trap_if dbg cond site)) = [].
Proof. rewrite trace_of_trap_if. destruct cond; reflexivity. Qed.

Lemma get_diffuse_visibility_queries (VisModel : vec3 -> vec3 -> score)
    (dbg : trap_site -> dbg_cmd) (rand_theta rand_phi : nat -> nat -> R)
    (batch_size : nat) (points normals lgtSGLobes : list vec3) (lgtSGLambdas : list R)
    (nsamp : nat) (testing : bool) (thr : R) (bounding argmax_vis : bool) :
  (0 < batch_size)%nat ->
  queried_rows (trace_of (get_diffuse_visibility VisModel dbg rand_theta rand_phi batch_size
                            points normals lgtSGLobes lgtSGLambdas nsamp testing thr
                            bounding argmax_vis)) =
  diffuse_masked_rows rand_theta rand_phi points normals lgtSGLobes lgtSGLambdas nsamp thr.
Proof.
  intros Hb.
  destruct (get_diffuse_visibility_run VisModel dbg rand_theta rand_phi batch_size
              points normals lgtSGLobes lgtSGLambdas nsamp testing thr bounding
              argmax_vis Hb) as (tr & Hq & _ & ->).
  cbv zeta. destruct bounding; [exact Hq|].
  destruct (any_nan _); unfold trace_of; simpl; [|exact Hq].
  rewrite queried_rows_app, Hq. simpl. apply app_nil_r.
Qed.

Lemma get_specular_visibility_queries (VisModel : vec3 -> vec3 -> score)
    (dbg : trap_site -> dbg_cmd) (rand_theta rand_phi : nat -> nat -> R)
    (batch_size : nat) (points normals viewdirs lgtSGLobes : list vec3)
    (lgtSGLambdas : list R) (nsamp : nat) (testing inv argmax_vis : bool) :
  (0 < batch_size)%nat ->
  queried_rows (trace_of (get_specular_visibility VisModel dbg rand_theta rand_phi batch_size
                            points normals viewdirs lgtSGLobes lgtSGLambdas nsamp testing
                            inv argmax_vis)) =
  specular_masked_rows rand_theta rand_phi points normals viewdirs lgtSGLobes lgtSGLambdas
                       nsamp.
Proof.
  intros Hb.
  destruct (get_specular_visibility_run VisModel dbg rand_theta rand_phi batch_size
              points normals viewdirs lgtSGLobes lgtSGLambdas nsamp testing inv
              argmax_vis Hb) as (tr & Hq & _ & ->).
  cbv zeta. destruct (any_nan _); unfold trace_of; simpl; [|exact Hq].
  rewrite queried_rows_app, Hq. simpl. apply app_nil_r.
Qed.

Section ShadingQueries.

Variable VisModel : vec3 -> vec3 -> score.
Variable dbg : trap_site -> dbg_cmd.
Variable kl_divergence : list (list tval) -> R -> tval.
Variable points normal viewdirs : list vec3.
Variable lgtSGs : list (list lgtSG).
Variable specular_reflectance : R.
Variable diffuse_albedo : list vec3.
Variable comp_vis lin_diff testing : bool.
Variable metallic : option (list vec3).
Variable argmax_vis : bool.

(** The rows of the light-visibility sampler inside [render_with_sg]. *)
Let light_rows (rand_theta rand_phi : nat -> nat -> R)
    (diffuse_vis : option (list (list R))) : list (vec3 * vec3) :=
  diffuse_masked_rows rand_theta rand_phi points normal
    (map lgtSGLobes_of (nth 0 lgtSGs [])) (map lgtSGLambdas_of (nth 0 lgtSGs []))
    (match diffuse_vis with None => 32%nat | Some _ => 8%nat end) 1.

(** The rows of the BRDF-visibility sampler inside [specular_rgb_fn]. *)
Let brdf_rows (rand_theta rand_phi : nat -> nat -> R) (roughness : list R)
  : list (vec3 * vec3) :=
  let brdf := warped_brdfs normal viewdirs specular_reflectance diffuse_albedo metallic
                roughness in
  specular_masked_rows rand_theta rand_phi points normal viewdirs
    (map warpBrdfSGLobes brdf) (map warpBrdfSGLambdas brdf) 8.

Lemma light_visibility_queries (rand_theta rand_phi : nat -> nat -> R)
      (diffuse_vis : option (list (list R))) (prefit : prefit_mode) :
  queried_rows
    (trace_of (light_visibility VisModel dbg kl_divergence points normal lgtSGs comp_vis
                 testing argmax_vis rand_theta rand_phi diffuse_vis prefit)) =
  if comp_vis then light_rows rand_theta rand_phi diffuse_vis else [].
Proof.
  unfold light_visibility. destruct comp_vis; [|reflexivity].
  rewrite trace_of_bind, queried_rows_app.
  rewrite get_diffuse_visibility_queries by apply diffuse_batch_size_pos.
  fold (light_rows rand_theta rand_phi diffuse_vis).
  destruct (result_of _) as [v|]; [|simpl; apply app_nil_r].
  destruct diffuse_vis as [dv|]; [destruct prefit|]; simpl; apply app_nil_r.
Qed.

Lemma specular_rgb_fn_queries (rand_theta rand_phi : nat -> nat -> R) (roughness : list R) :
  queried_rows
    (trace_of (specular_rgb_fn VisModel dbg points normal viewdirs lgtSGs
                 specular_reflectance diffuse_albedo comp_vis testing metallic argmax_vis
                 rand_theta rand_phi roughness)) =
  brdf_rows rand_theta rand_phi roughness.
Proof.
  unfold specular_rgb_fn. cbv zeta.
  rewrite any_nan_map_Val, trap_if_false.
  rewrite !trace_of_bind. simpl.
  rewrite queried_rows_app.
  rewrite get_specular_visibility_queries by apply specular_batch_size_pos.
  fold (brdf_rows rand_theta rand_phi roughness).
  destruct (result_of _) as [vis|]; [|apply app_nil_r].
  rewrite trace_of_bind, queried_rows_app, queried_rows_trap_if.
  destruct (result_of _); simpl; apply app_nil_r.
Qed.

(** The predictor rows of a [render_with_sg] call that returns. *)
Lemma render_with_sg_queries
      (rand_d_theta rand_d_phi rand_s_theta rand_s_phi : nat -> nat -> R)
      (roughness : list R) (fun_spec : bool) (indir_integral : option (list vec3))
      (diffuse_vis : option (list (list R))) (prefit : prefit_mode)
      (out : shading_output) :
  let call := render_with_sg VisModel dbg kl_divergence points normal viewdirs lgtSGs
                specular_reflectance diffuse_albedo comp_vis lin_diff testing metallic
                argmax_vis rand_d_theta rand_d_phi rand_s_theta rand_s_phi roughness
                fun_spec indir_integral diffuse_vis prefit in
  result_of call = Returned out ->
  queried_rows (trace_of call) =
  (if comp_vis then light_rows rand_d_theta rand_d_phi diffuse_vis else []) ++
  (if fun_spec then [] else brdf_rows rand_s_theta rand_s_phi roughness).
Proof.
  intros call. unfold call, render_with_sg.
  rewrite result_of_bind, trace_of_bind, queried_rows_app, light_visibility_queries.
  destruct (result_of (light_visibility _ _ _ _ _ _ _ _ _ _ _ _ _)) as [st|];
    [|discriminate].
  cbv zeta.
  rewrite result_of_bind, trace_of_bind, queried_rows_app, queried_rows_trap_if.
  destruct (result_of (trap_if _ _ _)) as [[]|]; [|discriminate].
  intros Hout. f_equal. simpl.
  destruct fun_spec; [reflexivity|].
  rewrite trace_of_bind, queried_rows_app, specular_rgb_fn_queries.
  rewrite result_of_bind in Hout.
  destruct (result_of (specular_rgb_fn _ _ _ _ _ _ _ _ _ _ _ _ _ _ _)) as [spec|];
    [|discriminate].
  simpl. apply app_nil_r.
Qed.

(** X25.  A single-view [render_with_sg] call that returns has asked the
    predictor for exactly these rows, in this order: with [comp_vis] the masked
    rows of the light-visibility sampler (32 samples per lobe, 8 when a
    [diffuse_vis] is supplied, drawn around the lobes of the first
    point), and unless [fun_spec] defers the specular term, the masked
    rows of the BRDF-visibility sampler (8 samples per point).  Without
    [comp_vis] and with [fun_spec] the predictor is not called at all. *)
Theorem render_with_sg_predictor_rows
      (rand_d_theta rand_d_phi rand_s_theta rand_s_phi : nat -> nat -> R)
      (roughness : list R) (fun_spec : bool) (indir_integral : option (list vec3))
      (diffuse_vis : option (list (list R))) (prefit : prefit_mode)
      (out : shading_output) :
  let call := render_with_sg VisModel dbg kl_divergence points normal viewdirs lgtSGs
                specular_reflectance diffuse_albedo comp_vis lin_diff testing metallic
                argmax_vis rand_d_theta rand_d_phi rand_s_theta rand_s_phi roughness
                fun_spec indir_integral diffuse_vis prefit in
  let brdf := warped_brdfs normal viewdirs specular_reflectance diffuse_albedo metallic
                roughness in
  result_of call = Returned out ->
  queried_rows (trace_of call) =
  (if comp_vis
   then diffuse_masked_rows rand_d_theta rand_d_phi points normal
          (map lgtSGLobes_of (nth 0 lgtSGs [])) (map lgtSGLambdas_of (nth 0 lgtSGs []))
          (match diffuse_vis with None => 32%nat | Some _ => 8%nat end) 1
   else []) ++
  (if fun_spec then []
   else specular_masked_rows rand_s_theta rand_s_phi points normal viewdirs
          (map warpBrdfSGLobes brdf) (map warpBrdfSGLambdas brdf) 8).
Proof.
  intros call brdf Hout.
  apply (render_with_sg_queries rand_d_theta rand_d_phi rand_s_theta rand_s_phi roughness
           fun_spec indir_integral diffuse_vis prefit out Hout).
Qed.

End ShadingQueries.

Lemma render_with_sg_predictor_rows_witness :
  exists out,
    result_of (render_with_sg ex_VisModel ex_dbg ex_kl_divergence [V3 0 0 0] [z_axis]
                 [z_axis] ex_lgtSGs (1 / 25) ex_albedo true false false None false
                 ex_rand ex_rand ex_rand ex_rand [1 / 2] false None None PrefitOther) =
      Returned out /\
    queried_rows
      (trace_of (render_with_sg ex_VisModel ex_dbg ex_kl_divergence [V3 0 0 0] [z_axis]
                   [z_axis] ex_lgtSGs (1 / 25) ex_albedo true false false None false
                   ex_rand ex_rand ex_rand ex_rand [1 / 2] false None None PrefitOther)) =
    diffuse_masked_rows ex_rand ex_rand [V3 0 0 0] [z_axis]
      (map lgtSGLobes_of (nth 0 ex_lgtSGs [])) (map lgtSGLambdas_of (nth 0 ex_lgtSGs []))
      32 1 ++
    specular_masked_rows ex_rand ex_rand [V3 0 0 0] [z_axis] [z_axis]
      (map warpBrdfSGLobes (warped_brdfs [z_axis] [z_axis] (1 / 25) ex_albedo None [1 / 2]))
      (map warpBrdfSGLambdas (warped_brdfs [z_axis] [z_axis] (1 / 25) ex_albedo None [1 / 2]))
      8.
Proof.
  destruct (render_with_sg_continue ex_VisModel ex_dbg ex_kl_divergence [V3 0 0 0] [z_axis]
              [z_axis] ex_lgtSGs (1 / 25) ex_albedo true false false None false
              ex_rand ex_rand ex_rand ex_rand [1 / 2] false None None PrefitOther
              ltac:(reflexivity)) as (out & Hout).
  exists out. split; [exact Hout|].
  apply (render_with_sg_predictor_rows ex_VisModel ex_dbg ex_kl_divergence [V3 0 0 0]
           [z_axis] [z_axis] ex_lgtSGs (1 / 25) ex_albedo true false false None false
           ex_rand ex_rand ex_rand ex_rand [1 / 2] false None None PrefitOther out Hout).
Defined.

(** ** The shadow map and the supervision term *)

Lemma imap_weighted_sum_bounds {A : Type} (l : list A) (f : nat -> tval) (g : A -> R) :
  (forall k, in_unit_interval (f k)) -> (forall a, 0 <= g a) ->
  exists x, tsum (imap (fun k a => tmul (f k) (Val (g a))) l) = Val x /\
            0 <= x <= Rsum (map g l).
Proof.
  revert f. induction l as [|a l IH]; intros f Hf Hg.
  - exists 0. simpl. split; [reflexivity | lra].
  - destruct (IH (fun k => f (S k)) (fun k => Hf (S k)) Hg) as (x & Hx & Hb).
    pose proof (Hf 0%nat) as H0. destruct (f 0%nat) as [r|] eqn:Hf0; [|contradiction].
    simpl in H0. pose proof (Hg a) as Ha.
    exists (r * g a + x). cbn [imap tsum fold_right map Rsum].
    change (fold_right tadd (Val 0)
              (imap ((fun k a0 => tmul (f k) (Val (g a0))) ∘ S) l))
      with (tsum (imap (fun k a0 => tmul (f (S k)) (Val (g a0))) l)).
    rewrite Hx, Hf0. simpl. split; [reflexivity | unfold Rsum in *; nra].
Qed.

Lemma shadow_channel_unit (lights : list lgtSG) (lv : nat -> tval) (channel : vec3 -> R) :
  (forall k, in_unit_interval (lv k)) ->
  (forall sg, 0 <= channel (origin_lgtSGMus_of sg)) ->
  in_unit_interval
    (tdiv (tsum (imap (fun k sg => tmul (lv k) (Val (channel (origin_lgtSGMus_of sg))))
                      lights))
          (Val (clamp_min (Rsum (map (fun sg => channel (origin_lgtSGMus_of sg)) lights))
                          1e-4))).
Proof.
  intros Hlv Hch.
  destruct (imap_weighted_sum_bounds lights lv
              (fun sg => channel (origin_lgtSGMus_of sg)) Hlv Hch) as (x & -> & Hx).
  set (s := Rsum _) in *.
  assert (Hd : 0 < clamp_min s 1e-4).
  { apply Rlt_le_trans with 1e-4; [lra | apply clamp_min_ge]. }
  assert (Hs : s <= clamp_min s 1e-4) by (unfold clamp_min; apply Rmax_l).
  simpl. split.
  - apply Rmult_le_pos; [lra | left; apply Rinv_0_lt_compat; exact Hd].
  - apply (Rmult_le_reg_r (clamp_min s 1e-4)); [exact Hd|].
    unfold Rdiv. rewrite Rmult_assoc, Rinv_l by lra. lra.
Qed.

Lemma origin_lgtSGMus_nonneg (sg : lgtSG) :
  0 <= vx (origin_lgtSGMus_of sg) /\ 0 <= vy (origin_lgtSGMus_of sg) /\
  0 <= vz (origin_lgtSGMus_of sg).
Proof. unfold origin_lgtSGMus_of. simpl. repeat split; apply Rabs_pos. Qed.

Section ShadowMap.

Variable VisModel : vec3 -> vec3 -> score.
Variable dbg : trap_site -> dbg_cmd.
Variable kl_divergence : list (list tval) -> R -> tval.
Variable points normal viewdirs : list vec3.
Variable lgtSGs : list (list lgtSG).
Variable specular_reflectance : R.
Variable diffuse_albedo : list vec3.
Variable comp_vis lin_diff testing : bool.
Variable metallic : option (list vec3).
Variable argmax_vis : bool.

(** [vis_shadow] as computed from the light visibility [light_vis]. *)
Let vis_shadow_of (light_vis : nat -> nat -> tval) : list tvec3 :=
  map (fun i =>
         let lights := nth i lgtSGs [] in
         let shadow := fun (channel : vec3 -> R) =>
           tdiv (tsum (imap (fun k sg =>
                               tmul (light_vis i k)
                                    (Val (channel (origin_lgtSGMus_of sg))))
                            lights))
                (Val (clamp_min (Rsum (map (fun sg => channel (origin_lgtSGMus_of sg))
                                           lights))
                                1e-4)) in
         T3 (shadow vx) (shadow vy) (shadow vz))
      (seq 0 (length normal)).

Lemma vis_shadow_of_unit (light_vis : nat -> nat -> tval) :
  (forall i k, in_unit_interval (light_vis i k)) ->
  Forall tvec3_in_unit (vis_shadow_of light_vis).
Proof.
  intros Hlv. unfold vis_shadow_of.
  apply Forall_forall. intros c Hc.
  apply list_elem_of_fmap in Hc as (i & -> & _).
  pose proof origin_lgtSGMus_nonneg as Hn.
  unfold tvec3_in_unit. cbn [tr tg tb].
  repeat split; apply shadow_channel_unit; try (intros k; apply Hlv);
    intros sg; apply Hn.
Qed.

(** What the light-visibility block of [render_with_sg] has returned. *)
Lemma light_visibility_inv (rand_theta rand_phi : nat -> nat -> R)
      (diffuse_vis : option (list (list R))) (prefit : prefit_mode)
      (st : option (nat -> nat -> tval) * list tvec3 * tval) :
  let agg := diffuse_aggregated_vis VisModel rand_theta rand_phi points normal
               (map lgtSGLobes_of (nth 0 lgtSGs [])) (map lgtSGLambdas_of (nth 0 lgtSGs []))
               (match diffuse_vis with None => 32%nat | Some _ => 8%nat end) 1 argmax_vis in
  result_of (light_visibility VisModel dbg kl_divergence points normal lgtSGs comp_vis
               testing argmax_vis rand_theta rand_phi diffuse_vis prefit) = Returned st ->
  if comp_vis then
    exists light_vis,
      fst st = (Some light_vis, vis_shadow_of light_vis) /\
      match diffuse_vis with
      | None => light_vis = light_vis_at agg /\ snd st = Val 0
      | Some dv =>
          match prefit with
          | PrefitWarmup => light_vis = light_vis_at agg
          | _ => light_vis = fun i k => Val (nth k (nth i dv []) 0)
          end
      end
  else st = (None, repeat (T3 (Val 0) (Val 0) (Val 0)) (length normal), Val 0).
Proof.
  intros agg. unfold light_visibility. destruct comp_vis.
  - destruct (get_diffuse_visibility_run VisModel dbg rand_theta rand_phi
                diffuse_batch_size points normal
                (map lgtSGLobes_of (nth 0 lgtSGs [])) (map lgtSGLambdas_of (nth 0 lgtSGs []))
                (match diffuse_vis with None => 32%nat | Some _ => 8%nat end)
                testing 1 false argmax_vis diffuse_batch_size_pos) as (tr & _ & _ & ->).
    cbv zeta. fold agg.
    assert (Hgo : forall m : M diffuse_visibility,
               result_of m = Returned (VisMean agg) \/ result_of m = BdbQuit ->
               forall k : diffuse_visibility -> M _,
                 result_of (bind m k) = Returned st ->
                 result_of (k (VisMean agg)) = Returned st).
    { intros m [Hm|Hm] k; rewrite result_of_bind, Hm; [auto | discriminate]. }
    intros Hst. apply Hgo in Hst.
    2:{ destruct (any_nan (concat agg)); [destruct (dbg InDiffuseVisibility)|];
          unfold result_of; simpl; auto. }
    clear Hgo. unfold n_dots in Hst.
    destruct diffuse_vis as [dv|]; [destruct prefit|];
      cbv beta iota zeta in Hst; unfold ret, result_of in Hst; cbn [snd] in Hst;
      injection Hst as <-;
      [ exists (light_vis_at agg)
      | exists (fun i k => Val (nth k (nth i dv []) 0))
      | exists (fun i k => Val (nth k (nth i dv []) 0))
      | exists (light_vis_at agg) ];
      (split; [reflexivity|]); auto.
  - intros Hst. injection Hst as <-. reflexivity.
Qed.

(** What [render_with_sg] returns under ['vis_shadow'] and ['supervise']
    is what the light-visibility block has returned. *)
Lemma render_with_sg_vis_state
      (rand_d_theta rand_d_phi rand_s_theta rand_s_phi : nat -> nat -> R)
      (roughness : list R) (fun_spec : bool) (indir_integral : option (list vec3))
      (diffuse_vis : option (list (list R))) (prefit : prefit_mode)
      (out : shading_output) :
  result_of (render_with_sg VisModel dbg kl_divergence points normal viewdirs lgtSGs
               specular_reflectance diffuse_albedo comp_vis lin_diff testing metallic
               argmax_vis rand_d_theta rand_d_phi rand_s_theta rand_s_phi roughness
               fun_spec indir_integral diffuse_vis prefit) = Returned out ->
  exists st,
    result_of (light_visibility VisModel dbg kl_divergence points normal lgtSGs comp_vis
                 testing argmax_vis rand_d_theta rand_d_phi diffuse_vis prefit) =
      Returned st /\
    vis_shadow out = snd (fst st) /\ supervise out = snd st.
Proof.
  unfold render_with_sg. rewrite result_of_bind.
  destruct (result_of (light_visibility _ _ _ _ _ _ _ _ _ _ _ _ _)) as [st|];
    [|discriminate].
  cbv zeta. rewrite result_of_bind.
  destruct (result_of (trap_if _ _ _)) as [[]|]; [|discriminate].
  intros Hout. exists st. split; [reflexivity|].
  destruct fun_spec.
  - injection Hout as <-. auto.
  - rewrite result_of_bind in Hout.
    destruct (result_of (specular_rgb_fn _ _ _ _ _ _ _ _ _ _ _ _ _ _ _)) as [spec|];
      [|discriminate].
    injection Hout as <-. auto.
Qed.

(** X21.  The shadow map ['vis_shadow'] returned by [render_with_sg]
    has one row per point and every channel in [[0, 1]], for a predictor
    whose scores are numbers and a supplied [diffuse_vis] (when it is the
    one used for shading) with entries in [[0, 1]]: it is the mean of the
    light visibility weighted by the lobe amplitudes, whose sum is
    clamped from below by 1e-4.  Without [comp_vis] it is all zeros. *)
Theorem vis_shadow_unit
      (rand_d_theta rand_d_phi rand_s_theta rand_s_phi : nat -> nat -> R)
      (roughness : list R) (fun_spec : bool) (indir_integral : option (list vec3))
      (diffuse_vis : option (list (list R))) (prefit : prefit_mode)
      (out : shading_output) :
  (forall p d, numeric_score (VisModel p d)) ->
  match diffuse_vis with
  | Some dv => prefit = PrefitWarmup \/ Forall (Forall (fun x => 0 <= x <= 1)) dv
  | None => True
  end ->
  result_of (render_with_sg VisModel dbg kl_divergence points normal viewdirs lgtSGs
               specular_reflectance diffuse_albedo comp_vis lin_diff testing metallic
               argmax_vis rand_d_theta rand_d_phi rand_s_theta rand_s_phi roughness
               fun_spec indir_integral diffuse_vis prefit) = Returned out ->
  length (vis_shadow out) = length normal /\
  Forall tvec3_in_unit (vis_shadow out) /\
  (comp_vis = false ->
   vis_shadow out = repeat (T3 (Val 0) (Val 0) (Val 0)) (length normal)).
Proof.
  intros Hnum Hdv Hout.
  destruct (render_with_sg_vis_state rand_d_theta rand_d_phi rand_s_theta rand_s_phi
              roughness fun_spec indir_integral diffuse_vis prefit out Hout)
    as (st & Hst & -> & _).
  pose proof (light_visibility_inv rand_d_theta rand_d_phi diffuse_vis prefit st Hst) as Hinv.
  cbv zeta in Hinv.
  pose proof (diffuse_aggregated_unit VisModel rand_d_theta rand_d_phi points normal
                (map lgtSGLobes_of (nth 0 lgtSGs [])) (map lgtSGLambdas_of (nth 0 lgtSGs []))
                (match diffuse_vis with None => 32%nat | Some _ => 8%nat end) 1
                argmax_vis Hnum) as Hu.
  set (agg := diffuse_aggregated_vis _ _ _ _ _ _ _ _ _ _) in *.
  assert (Hgt : forall i k, in_unit_interval (light_vis_at agg i k)).
  { intros i k. unfold light_vis_at.
    apply nth_Forall_default; [|simpl; lra].
    apply (nth_Forall_default (Forall in_unit_interval)); [exact Hu | constructor]. }
  destruct comp_vis.
  - destruct Hinv as (light_vis & Hfst & Hlv). rewrite Hfst. cbn [snd].
    assert (Hunit : forall i k, in_unit_interval (light_vis i k)).
    { assert (Hsup : forall dv : list (list R),
                 Forall (Forall (fun x => 0 <= x <= 1)) dv ->
                 forall i k, in_unit_interval (Val (nth k (nth i dv []) 0))).
      { intros dv Hall i k. simpl.
        apply (nth_Forall_default (fun x => 0 <= x <= 1)); [|lra].
        apply (nth_Forall_default (Forall (fun x => 0 <= x <= 1)));
          [exact Hall | constructor]. }
      destruct diffuse_vis as [dv|].
      - destruct prefit; subst light_vis.
        + exact Hgt.
        + destruct Hdv as [Hw|Hdv]; [discriminate | apply Hsup, Hdv].
        + destruct Hdv as [Hw|Hdv]; [discriminate | apply Hsup, Hdv].
      - destruct Hlv as [-> _]. exact Hgt. }
    split; [unfold vis_shadow_of; rewrite length_map, length_seq; reflexivity|].
    split; [apply vis_shadow_of_unit; exact Hunit | discriminate].
  - rewrite Hinv. cbn [fst snd]. split; [apply repeat_length|]. split; [|reflexivity].
    apply Forall_forall. intros c Hc. apply list_elem_of_In, repeat_spec in Hc. subst c.
    unfold tvec3_in_unit. simpl. lra.
Qed.

(** The statements of [render_with_sg] after the light-visibility block. *)
Let finish (rand_s_theta rand_s_phi : nat -> nat -> R) (roughness : list R)
    (fun_spec : bool) (indir_integral : option (list vec3))
    (vis_state : option (nat -> nat -> tval) * list tvec3 * tval) : M shading_output :=
  let light_vis := fst (fst vis_state) in
  let vis_shadow := snd (fst vis_state) in
  let supervise := snd vis_state in
  let diffuse_rgb := diffuse_rgb_sg normal lgtSGs diffuse_albedo lin_diff light_vis in
  let diffuse_rgb := diffuse_rgb_override diffuse_albedo lin_diff indir_integral diffuse_rgb in
  run trap_if dbg (any_nan (flat_map tvec3_channels diffuse_rgb)) InDiffuseRgb;
  if fun_spec then
    ret (ShadingOutput diffuse_rgb
           (SpecularDeferred
              (specular_rgb_fn VisModel dbg points normal viewdirs lgtSGs
                 specular_reflectance diffuse_albedo comp_vis testing metallic argmax_vis))
           diffuse_rgb vis_shadow supervise)
  else
    do specular_rgb <-
      specular_rgb_fn VisModel dbg points normal viewdirs lgtSGs specular_reflectance
        diffuse_albedo comp_vis testing metallic argmax_vis rand_s_theta rand_s_phi roughness;
    let rgb := zip_with (tvec3_map2 tadd) specular_rgb diffuse_rgb in
    ret (ShadingOutput rgb (SpecularValue specular_rgb) diffuse_rgb vis_shadow supervise).

Lemma finish_same_radiance (rand_s_theta rand_s_phi : nat -> nat -> R) (roughness : list R)
      (fun_spec : bool) (indir_integral : option (list vec3))
      (st1 st2 : option (nat -> nat -> tval) * list tvec3 * tval) (out1 : shading_output) :
  fst st1 = fst st2 ->
  result_of (finish rand_s_theta rand_s_phi roughness fun_spec indir_integral st1) =
    Returned out1 ->
  exists out2,
    result_of (finish rand_s_theta rand_s_phi roughness fun_spec indir_integral st2) =
      Returned out2 /\
    sg_rgb out2 = sg_rgb out1 /\
    sg_specular_rgb out2 = sg_specular_rgb out1 /\
    sg_diffuse_rgb out2 = sg_diffuse_rgb out1 /\
    vis_shadow out2 = vis_shadow out1 /\
    supervise out2 = snd st2.
Proof.
  destruct st1 as [[lv1 vs1] s1], st2 as [[lv2 vs2] s2]. cbn [fst].
  intros Heq. injection Heq as -> ->.
  unfold finish. cbv zeta. cbn [fst snd].
  rewrite !result_of_bind.
  destruct (result_of (trap_if _ _ _)) as [[]|]; [|discriminate].
  destruct fun_spec.
  - intros Hout. injection Hout as <-. eexists. split; [reflexivity|]. simpl. auto.
  - rewrite !result_of_bind.
    destruct (result_of (specular_rgb_fn _ _ _ _ _ _ _ _ _ _ _ _ _ _ _)) as [spec|];
      [|discriminate].
    intros Hout. injection Hout as <-. eexists. split; [reflexivity|]. simpl. auto.
Qed.

(** X22.  In warm-up mode ([prefit == "warmup"]) a supplied
    [diffuse_vis] (one row per point, one entry per lobe) enters the
    ['supervise'] term only: the shading uses the sampled light
    visibility, so two calls that differ in the supplied tensor, with
    the same sample draws, return the same radiance and the same shadow
    map.  Without a supplied [diffuse_vis], and without [comp_vis], the
    supervision term is 0. *)
Theorem warmup_ignores_diffuse_vis
      (rand_d_theta rand_d_phi rand_s_theta rand_s_phi : nat -> nat -> R)
      (roughness : list R) (fun_spec : bool) (indir_integral : option (list vec3))
      (dv1 dv2 : list (list R)) (prefit : prefit_mode) :
  diffuse_vis_shape lgtSGs dv1 -> diffuse_vis_shape lgtSGs dv2 ->
  let call := render_with_sg VisModel dbg kl_divergence points normal viewdirs lgtSGs
                specular_reflectance diffuse_albedo comp_vis lin_diff testing metallic
                argmax_vis rand_d_theta rand_d_phi rand_s_theta rand_s_phi roughness
                fun_spec indir_integral in
  (forall out1, result_of (call (Some dv1) PrefitWarmup) = Returned out1 ->
     exists out2,
       result_of (call (Some dv2) PrefitWarmup) = Returned out2 /\
       sg_rgb out2 = sg_rgb out1 /\
       sg_specular_rgb out2 = sg_specular_rgb out1 /\
       sg_diffuse_rgb out2 = sg_diffuse_rgb out1 /\
       vis_shadow out2 = vis_shadow out1) /\
  (forall out, result_of (call None prefit) = Returned out -> supervise out = Val 0) /\
  (forall out, comp_vis = false ->
     result_of (call (Some dv1) prefit) = Returned out -> supervise out = Val 0).
Proof.
  intros _ _ call. split; [|split].
  - intros out1 Hout1.
    assert (Hcall : forall dv,
               call (Some dv) PrefitWarmup =
               bind (light_visibility VisModel dbg kl_divergence points normal lgtSGs comp_vis
                       testing argmax_vis rand_d_theta rand_d_phi (Some dv) PrefitWarmup)
                    (finish rand_s_theta rand_s_phi roughness fun_spec indir_integral))
      by reflexivity.
    rewrite Hcall in Hout1. rewrite Hcall. rewrite result_of_bind in *.
    destruct (result_of (light_visibility _ _ _ _ _ _ _ _ _ _ _ (Some dv1) _))
      as [st1|] eqn:H1; [|discriminate].
    assert (Hst2 : exists st2,
               result_of (light_visibility VisModel dbg kl_divergence points normal lgtSGs
                            comp_vis testing argmax_vis rand_d_theta rand_d_phi (Some dv2)
                            PrefitWarmup) = Returned st2 /\ fst st1 = fst st2).
    { revert H1. unfold light_visibility. destruct comp_vis.
      - rewrite !result_of_bind.
        destruct (result_of (get_diffuse_visibility _ _ _ _ _ _ _ _ _ _ _ _ _ _))
          as [v|]; [|discriminate].
        cbv beta iota zeta. unfold ret, result_of. cbn [snd].
        intros Hst. injection Hst as <-. eexists. split; reflexivity.
      - intros Hst. injection Hst as <-. eexists. split; reflexivity. }
    destruct Hst2 as (st2 & -> & Heq).
    destruct (finish_same_radiance rand_s_theta rand_s_phi roughness fun_spec indir_integral
                st1 st2 out1 Heq Hout1) as (out2 & Hr & E1 & E2 & E3 & E4 & _).
    exists out2. auto.
  - intros out Hout.
    destruct (render_with_sg_vis_state rand_d_theta rand_d_phi rand_s_theta rand_s_phi
                roughness fun_spec indir_integral None prefit out Hout)
      as (st & Hst & _ & ->).
    pose proof (light_visibility_inv rand_d_theta rand_d_phi None prefit st Hst) as Hinv.
    cbv zeta in Hinv. destruct comp_vis.
    + destruct Hinv as (lv & _ & _ & Hs). exact Hs.
    + rewrite Hinv. reflexivity.
  - intros out Hc Hout.
    destruct (render_with_sg_vis_state rand_d_theta rand_d_phi rand_s_theta rand_s_phi
                roughness fun_spec indir_integral (Some dv1) prefit out Hout)
      as (st & Hst & _ & ->).
    pose proof (light_visibility_inv rand_d_theta rand_d_phi (Some dv1) prefit st Hst)
      as Hinv.
    cbv zeta in Hinv. rewrite Hc in Hinv. rewrite Hinv. reflexivity.
Qed.

End ShadowMap.

Lemma warmup_ignores_diffuse_vis_witness :
  let call := render_with_sg ex_VisModel ex_dbg ex_kl_divergence [V3 0 0 0] [z_axis]
                [z_axis] ex_lgtSGs (1 / 25) ex_albedo true false false None false
                ex_rand ex_rand ex_rand ex_rand [1 / 2] false None in
  exists out1 out2,
    result_of (call (Some [[1 / 2]]) PrefitWarmup) = Returned out1 /\
    result_of (call (Some [[1]]) PrefitWarmup) = Returned out2 /\
    sg_rgb out2 = sg_rgb out1 /\
    sg_specular_rgb out2 = sg_specular_rgb out1 /\
    sg_diffuse_rgb out2 = sg_diffuse_rgb out1 /\
    vis_shadow out2 = vis_shadow out1.
Proof.
  intros call.
  destruct (render_with_sg_continue ex_VisModel ex_dbg ex_kl_divergence [V3 0 0 0] [z_axis]
              [z_axis] ex_lgtSGs (1 / 25) ex_albedo true false false None false
              ex_rand ex_rand ex_rand ex_rand [1 / 2] false None (Some [[1 / 2]])
              PrefitWarmup ltac:(reflexivity)) as (out1 & Hout1).
  assert (Hs : forall x, diffuse_vis_shape ex_lgtSGs [[x]])
    by (intros x; repeat constructor).
  destruct (warmup_ignores_diffuse_vis ex_VisModel ex_dbg ex_kl_divergence [V3 0 0 0]
              [z_axis] [z_axis] ex_lgtSGs (1 / 25) ex_albedo true false false None false
              ex_rand ex_rand ex_rand ex_rand [1 / 2] false None [[1 / 2]] [[1]]
              PrefitWarmup (Hs (1 / 2)) (Hs 1)) as (Hsame & _ & _).
  destruct (Hsame out1 Hout1) as (out2 & Hout2 & E).
  exists out1, out2. split; [exact Hout1 | split; [exact Hout2 | exact E]].
Defined.

Lemma vis_shadow_unit_witness :
  exists out,
    result_of (render_with_sg ex_VisModel ex_dbg ex_kl_divergence [V3 0 0 0] [z_axis]
                 [z_axis] ex_lgtSGs (1 / 25) ex_albedo true false false None false
                 ex_rand ex_rand ex_rand ex_rand [1 / 2] false None None PrefitOther) =
      Returned out /\
    length (vis_shadow out) = length [z_axis] /\
    Forall tvec3_in_unit (vis_shadow out) /\
    (true = false -> vis_shadow out = repeat (T3 (Val 0) (Val 0) (Val 0)) (length [z_axis])).
Proof.
  destruct (render_with_sg_continue ex_VisModel ex_dbg ex_kl_divergence [V3 0 0 0] [z_axis]
              [z_axis] ex_lgtSGs (1 / 25) ex_albedo true false false None false
              ex_rand ex_rand ex_rand ex_rand [1 / 2] false None None PrefitOther
              ltac:(reflexivity)) as (out & Hout).
  exists out. split; [exact Hout|].
  apply (vis_shadow_unit ex_VisModel ex_dbg ex_kl_divergence [V3 0 0 0] [z_axis] [z_axis]
           ex_lgtSGs (1 / 25) ex_albedo true false false None false
           ex_rand ex_rand ex_rand ex_rand [1 / 2] false None None PrefitOther out
           ex_VisModel_numeric I Hout).
Defined.

(** * Direct and indirect light together: [render_with_all_sg] *)





Section AllSg.

Variable VisModel : vec3 -> vec3 -> score.
Variable dbg : trap_site -> dbg_cmd.
Variable kl_divergence : list (list tval) -> R -> tval.
Variable points normal viewdirs : list vec3.
Variable lgtSGs : lgtSGs_arg.
Variable specular_reflectance : R.
Variable roughness : list R.
Variable diffuse_albedo : list vec3.
Variable indir_integral : option (list vec3).
Variable indir_lgtSGs : option (list (list lgtSG)).
Variable fun_spec lin_diff testing : bool.
Variable metallic : option (list vec3).
Variable diffuse_vis : option (list (list R)).
Variable prefit : prefit_mode.
Variable argmax_vis : bool.
Variable rand_d_theta rand_d_phi rand_s_theta rand_s_phi rand_i_theta rand_i_phi
  : nat -> nat -> R.

Let call :=
  render_with_all_sg VisModel dbg kl_divergence points normal viewdirs lgtSGs
    specular_reflectance roughness diffuse_albedo indir_integral indir_lgtSGs
    fun_spec lin_diff testing metallic diffuse_vis prefit argmax_vis
    rand_d_theta rand_d_phi rand_s_theta rand_s_phi rand_i_theta rand_i_phi.

(** The direct pass. *)
Let direct_call :=
  render_with_sg VisModel dbg kl_divergence points normal viewdirs
    (expand_lgtSGs (length normal) lgtSGs)
    specular_reflectance diffuse_albedo true lin_diff testing metallic argmax_vis
    rand_d_theta rand_d_phi rand_s_theta rand_s_phi roughness fun_spec None
    diffuse_vis prefit.

(** The indirect pass for given lobes. *)
Let indirect_call (indir_lgtSGs : list (list lgtSG)) :=
  render_with_sg VisModel dbg kl_divergence points normal viewdirs indir_lgtSGs
    specular_reflectance diffuse_albedo false lin_diff testing metallic argmax_vis
    rand_i_theta rand_i_phi rand_i_theta rand_i_phi roughness fun_spec
    indir_integral None PrefitOther.

Lemma render_with_all_sg_result :
  result_of call =
  match result_of direct_call with
  | Returned d_out =>
      match indir_lgtSGs with
      | Some il =>
          match result_of (indirect_call il) with
          | Returned i_out =>
              Returned (AllSgOutput d_out (sg_rgb i_out) (sg_diffuse_rgb i_out)
                                    (sg_specular_rgb i_out))
          | BdbQuit => BdbQuit
          end
      | None =>
          Returned (AllSgOutput d_out (zeros_like points) (zeros_like points)
                                (SpecularValue (zeros_like points)))
      end
  | BdbQuit => BdbQuit
  end.
Proof.
  unfold call, render_with_all_sg. cbv zeta. fold direct_call.
  rewrite result_of_bind.
  destruct (result_of direct_call) as [d_out|]; [|reflexivity].
  rewrite result_of_bind.
  destruct indir_lgtSGs as [il|]; [|reflexivity].
  fold (indirect_call il). rewrite result_of_bind.
  destruct (result_of (indirect_call il)) as [i_out|]; reflexivity.
Qed.

Lemma render_with_all_sg_trace :
  trace_of call =
  trace_of direct_call ++
  match result_of direct_call with
  | Returned _ =>
      match indir_lgtSGs with
      | Some il => trace_of (indirect_call il)
      | None => []
      end
  | BdbQuit => []
  end.
Proof.
  unfold call, render_with_all_sg. cbv zeta. fold direct_call.
  rewrite trace_of_bind. f_equal.
  destruct (result_of direct_call) as [d_out|]; [|reflexivity].
  rewrite trace_of_bind.
  destruct indir_lgtSGs as [il|]; [|reflexivity].
  fold (indirect_call il). rewrite trace_of_bind, result_of_bind.
  destruct (result_of (indirect_call il)) as [i_out|]; simpl; rewrite ?app_nil_r;
    reflexivity.
Qed.


(** X27.  A single-view [render_with_all_sg] call that returns has asked
    the predictor, in this order, for the rows of the light-visibility
    sampler and of the BRDF-visibility sampler of the direct pass and,
    when [indir_lgtSGs] is given, for the rows of the BRDF-visibility
    sampler of the indirect pass: the indirect pass never samples the
    light visibility, and its BRDF samples are drawn for the same
    points, normals, view directions and warped BRDF lobes as those of
    the direct pass, with fresh draws.  With [fun_spec] only the light
    visibility is sampled. *)
Theorem render_with_all_sg_predictor_rows (out : all_sg_output) :
  let brdf := warped_brdfs normal viewdirs specular_reflectance diffuse_albedo metallic
                roughness in
  let lights := nth 0 (expand_lgtSGs (length normal) lgtSGs) [] in
  let brdf_rows := fun rand_theta rand_phi =>
    specular_masked_rows rand_theta rand_phi points normal viewdirs
      (map warpBrdfSGLobes brdf) (map warpBrdfSGLambdas brdf) 8 in
  result_of call = Returned out ->
  queried_rows (trace_of call) =
  diffuse_masked_rows rand_d_theta rand_d_phi points normal
    (map lgtSGLobes_of lights) (map lgtSGLambdas_of lights)
    (match diffuse_vis with None => 32%nat | Some _ => 8%nat end) 1 ++
  (if fun_spec then [] else brdf_rows rand_s_theta rand_s_phi) ++
  (match indir_lgtSGs with
   | Some _ => if fun_spec then [] else brdf_rows rand_i_theta rand_i_phi
   | None => []
   end).
Proof.
  intros brdf lights brdf_rows.
  rewrite render_with_all_sg_result, render_with_all_sg_trace, queried_rows_app.
  destruct (result_of direct_call) as [d_out|] eqn:Hd; [|discriminate].
  pose proof (render_with_sg_queries VisModel dbg kl_divergence points normal viewdirs
                (expand_lgtSGs (length normal) lgtSGs) specular_reflectance diffuse_albedo
                true lin_diff testing metallic argmax_vis
                rand_d_theta rand_d_phi rand_s_theta rand_s_phi roughness fun_spec None
                diffuse_vis prefit d_out Hd) as Hq.
  cbv zeta in Hq. fold direct_call in Hq. rewrite Hq.
  fold lights. fold brdf. rewrite <- app_assoc. f_equal. f_equal.
  destruct indir_lgtSGs as [il|]; [|reflexivity].
  destruct (result_of (indirect_call il)) as [i_out|] eqn:Hi; [|discriminate].
  intros _.
  pose proof (render_with_sg_queries VisModel dbg kl_divergence points normal viewdirs
                il specular_reflectance diffuse_albedo
                false lin_diff testing metallic argmax_vis
                rand_i_theta rand_i_phi rand_i_theta rand_i_phi roughness fun_spec
                indir_integral None PrefitOther i_out Hi) as Hqi.
  cbv zeta in Hqi. fold (indirect_call il) in Hqi. rewrite Hqi. reflexivity.
Qed.

End AllSg.


Lemma render_with_all_sg_continue
    (VisModel : vec3 -> vec3 -> score) (dbg : trap_site -> dbg_cmd)
    (kl_divergence : list (list tval) -> R -> tval)
    (points normal viewdirs : list vec3) (lgtSGs : lgtSGs_arg)
    (specular_reflectance : R) (roughness : list R) (diffuse_albedo : list vec3)
    (indir_integral : option (list vec3)) (indir_lgtSGs : option (list (list lgtSG)))
    (fun_spec lin_diff testing : bool) (metallic : option (list vec3))
    (diffuse_vis : option (list (list R))) (prefit : prefit_mode) (argmax_vis : bool)
    (rand_d_theta rand_d_phi rand_s_theta rand_s_phi rand_i_theta rand_i_phi
       : nat -> nat -> R) :
  (forall site, dbg site = DbgContinue) ->
  exists out,
    result_of (render_with_all_sg VisModel dbg kl_divergence points normal viewdirs lgtSGs
                 specular_reflectance roughness diffuse_albedo indir_integral indir_lgtSGs
                 fun_spec lin_diff testing metallic diffuse_vis prefit argmax_vis
                 rand_d_theta rand_d_phi rand_s_theta rand_s_phi rand_i_theta rand_i_phi) =
    Returned out.
Proof.
  intros Hc. rewrite render_with_all_sg_result.
  destruct (render_with_sg_continue VisModel dbg kl_divergence points normal viewdirs
              (expand_lgtSGs (length normal) lgtSGs) specular_reflectance diffuse_albedo
              true lin_diff testing metallic argmax_vis
              rand_d_theta rand_d_phi rand_s_theta rand_s_phi roughness fun_spec None
              diffuse_vis prefit Hc) as (d_out & ->).
  destruct indir_lgtSGs as [il|]; [|eexists; reflexivity].
  destruct (render_with_sg_continue VisModel dbg kl_divergence points normal viewdirs
              il specular_reflectance diffuse_albedo
              false lin_diff testing metallic argmax_vis
              rand_i_theta rand_i_phi rand_i_theta rand_i_phi roughness fun_spec
              indir_integral None PrefitOther Hc) as (i_out & ->).
  eexists; reflexivity.
Qed.

Lemma render_with_all_sg_predictor_rows_witness :
  let brdf := warped_brdfs [z_axis] [z_axis] (1 / 25) ex_albedo None [1 / 2] in
  let lights := nth 0 (expand_lgtSGs (length [z_axis]) (LgtSGsShared (nth 0 ex_lgtSGs []))) [] in
  let brdf_rows := fun rand_theta rand_phi =>
    specular_masked_rows rand_theta rand_phi [V3 0 0 0] [z_axis] [z_axis]
      (map warpBrdfSGLobes brdf) (map warpBrdfSGLambdas brdf) 8 in
  exists out,
    result_of (render_with_all_sg ex_VisModel ex_dbg ex_kl_divergence [V3 0 0 0] [z_axis]
                 [z_axis] (LgtSGsShared (nth 0 ex_lgtSGs [])) (1 / 25) [1 / 2] ex_albedo
                 (Some [V3 1 1 1]) (Some ex_lgtSGs) false false false None None PrefitOther
                 false ex_rand ex_rand ex_rand ex_rand ex_rand ex_rand) = Returned out /\
    queried_rows
      (trace_of (render_with_all_sg ex_VisModel ex_dbg ex_kl_divergence [V3 0 0 0] [z_axis]
                   [z_axis] (LgtSGsShared (nth 0 ex_lgtSGs [])) (1 / 25) [1 / 2] ex_albedo
                   (Some [V3 1 1 1]) (Some ex_lgtSGs) false false false None None PrefitOther
                   false ex_rand ex_rand ex_rand ex_rand ex_rand ex_rand)) =
    diffuse_masked_rows ex_rand ex_rand [V3 0 0 0] [z_axis]
      (map lgtSGLobes_of lights) (map lgtSGLambdas_of lights) 32 1 ++
    brdf_rows ex_rand ex_rand ++ brdf_rows ex_rand ex_rand.
Proof.
  intros brdf lights brdf_rows.
  destruct (render_with_all_sg_continue ex_VisModel ex_dbg ex_kl_divergence [V3 0 0 0]
              [z_axis] [z_axis] (LgtSGsShared (nth 0 ex_lgtSGs [])) (1 / 25) [1 / 2] ex_albedo
              (Some [V3 1 1 1]) (Some ex_lgtSGs) false false false None None PrefitOther
              false ex_rand ex_rand ex_rand ex_rand ex_rand ex_rand ltac:(reflexivity))
    as (out & Hout).
  exists out. split; [exact Hout|].
  apply (render_with_all_sg_predictor_rows ex_VisModel ex_dbg ex_kl_divergence [V3 0 0 0]
           [z_axis] [z_axis] (LgtSGsShared (nth 0 ex_lgtSGs [])) (1 / 25) [1 / 2] ex_albedo
           (Some [V3 1 1 1]) (Some ex_lgtSGs) false false false None None PrefitOther
           false ex_rand ex_rand ex_rand ex_rand ex_rand ex_rand out Hout).
Defined.

(** * The training script *)

(** ** [mse2psnr] *)

Lemma ln_10_pos : 0 < ln 10.
Proof. rewrite <- ln_1. apply ln_increasing; lra. Qed.

(** X29.  [mse2psnr] maps an error of 0 to exactly 80 dB (the epsilon
    1e-8 inside the logarithm caps it), it is strictly decreasing on
    non-negative errors, and so no non-negative error is reported above
    80 dB. *)
Theorem mse2psnr_capped :
  mse2psnr 0 = 80 /\
  (forall x y, 0 <= x -> x < y -> mse2psnr y < mse2psnr x) /\
  (forall x, 0 <= x -> mse2psnr x <= 80).
Proof.
  pose proof ln_10_pos as H10.
  assert (H0 : mse2psnr 0 = 80).
  { unfold mse2psnr.
    replace (0 + 1e-8) with (/ 10 ^ 8) by (simpl; lra).
    rewrite ln_Rinv by (apply pow_lt; lra).
    rewrite ln_pow by lra. simpl INR. field. lra. }
  assert (Hdec : forall x y, 0 <= x -> x < y -> mse2psnr y < mse2psnr x).
  { intros x y Hx Hxy. unfold mse2psnr.
    assert (Hln : ln (x + 1e-8) < ln (y + 1e-8)) by (apply ln_increasing; lra).
    apply (Rmult_lt_reg_r (ln 10)); [exact H10|].
    unfold Rdiv. rewrite !Rmult_assoc, Rinv_l by lra. lra. }
  split; [exact H0|]. split; [exact Hdec|].
  intros x [Hx|Hx].
  - left. rewrite <- H0. apply Hdec; lra.
  - subst x. right. exact H0.
Qed.

(** ** [white_loss] *)

Lemma var3_bounds (x : vec3) :
  0 <= vx x -> 0 <= vy x -> 0 <= vz x ->
  0 <= var3 x <= dot x x / 3 /\ (var3 x = 0 <-> vx x = vy x /\ vy x = vz x).
Proof.
  intros Hx Hy Hz. destruct x as [a b c]. unfold var3, dot. simpl in *.
  set (m := (a + b + c) / 3).
  assert (Hm : a + b + c = 3 * m) by (unfold m; field).
  assert (Hv : ((a - m) * (a - m) + (b - m) * (b - m) + (c - m) * (c - m)) / (3 - 1) =
               ((a - m) * (a - m) + (b - m) * (b - m) + (c - m) * (c - m)) / 2)
    by (f_equal; ring).
  rewrite Hv. clear Hv.
  assert (Hsq : (a - m) * (a - m) + (b - m) * (b - m) + (c - m) * (c - m) =
                a * a + b * b + c * c - 3 * m * m).
  { transitivity (a * a + b * b + c * c - 2 * m * (a + b + c) + 3 * m * m);
      [ring | rewrite Hm; ring]. }
  assert (Hs0 : 0 <= (a - m) * (a - m) + (b - m) * (b - m) + (c - m) * (c - m)).
  { pose proof (Rle_0_sqr (a - m)). pose proof (Rle_0_sqr (b - m)).
    pose proof (Rle_0_sqr (c - m)). unfold Rsqr in *. lra. }
  split.
  - split; [lra|].
    assert (0 <= a * b /\ 0 <= a * c /\ 0 <= b * c) as (P1 & P2 & P3).
    { repeat split; apply Rmult_le_pos; assumption. }
    rewrite Hsq.
    assert (H9 : 3 * (3 * m * m) = (a + b + c) * (a + b + c)) by (rewrite Hm; ring).
    lra.
  - split.
    + intros H0.
      assert (Hs : (a - m) * (a - m) + (b - m) * (b - m) + (c - m) * (c - m) = 0) by lra.
      pose proof (Rle_0_sqr (a - m)) as Q1. pose proof (Rle_0_sqr (b - m)) as Q2.
      pose proof (Rle_0_sqr (c - m)) as Q3. unfold Rsqr in *.
      assert (E1 : (a - m) * (a - m) = 0) by lra.
      assert (E2 : (b - m) * (b - m) = 0) by lra.
      assert (E3 : (c - m) * (c - m) = 0) by lra.
      apply Rmult_integral in E1. apply Rmult_integral in E2. apply Rmult_integral in E3.
      lra.
    + intros [-> ->].
      assert (Hmc : m = c) by (unfold m; field). rewrite Hmc.
      unfold Rdiv. ring.
Qed.

Lemma white_lobe_bounds (sg : lgtSG) :
  let lgt := origin_lgtSGMus_of sg in
  let v := var3 (vdiv lgt (norm lgt + 1e-4)) in
  0 <= v < 1 / 3 /\ (v = 0 <-> grey_lobe sg).
Proof.
  intros lgt v.
  pose proof (norm_nonneg lgt) as Hn.
  set (mu := norm lgt + 1e-4) in *.
  assert (Hmu : 0 < mu) by (unfold mu; lra).
  destruct (origin_lgtSGMus_nonneg sg) as (P1 & P2 & P3). fold lgt in P1, P2, P3.
  assert (Q : forall c, 0 <= c -> 0 <= c / mu).
  { intros c Hc. apply Rmult_le_pos; [exact Hc | left; apply Rinv_0_lt_compat; exact Hmu]. }
  destruct (var3_bounds (vdiv lgt mu)) as [[Hlo Hhi] Hzero];
    [simpl; apply Q; assumption ..|].
  fold v in Hlo, Hhi, Hzero.
  assert (Hd : dot (vdiv lgt mu) (vdiv lgt mu) < 1).
  { rewrite <- norm_sqr, norm_vdiv by exact Hmu.
    assert (Hq : 0 <= norm lgt / mu < 1).
    { split; [apply Q; exact Hn|].
      apply (Rmult_lt_reg_r mu); [exact Hmu|].
      unfold Rdiv. rewrite Rmult_assoc, Rinv_l by lra. unfold mu. lra. }
    nra. }
  split; [lra|].
  rewrite Hzero. unfold grey_lobe. fold lgt. simpl.
  change (Rabs (vx (sg_mu sg))) with (vx lgt).
  change (Rabs (vy (sg_mu sg))) with (vy lgt).
  change (Rabs (vz (sg_mu sg))) with (vz lgt).
  split; intros [E1 E2].
  - split.
    + apply (Rmult_eq_reg_r (/ mu)); [exact E1 | apply Rinv_neq_0_compat; lra].
    + apply (Rmult_eq_reg_r (/ mu)); [exact E2 | apply Rinv_neq_0_compat; lra].
  - unfold Rdiv. rewrite E1, E2. auto.
Qed.

Lemma Rsum_bounded (l : list R) (b : R) :
  Forall (fun v => 0 <= v < b) l ->
  0 <= Rsum l <= b * INR (length l) /\
  (l <> [] -> Rsum l < b * INR (length l)) /\
  (Rsum l = 0 <-> Forall (fun v => v = 0) l).
Proof.
  induction 1 as [|v l Hv Hl IH].
  - simpl. split; [lra|]. split; [congruence|]. split; [constructor | reflexivity].
  - destruct IH as (B1 & B2 & B3).
    cbn [Rsum fold_right length]. change (fold_right Rplus 0 l) with (Rsum l).
    rewrite S_INR. split; [nra|]. split; [intros _; nra|].
    split.
    + intros H0. assert (v = 0 /\ Rsum l = 0) as [E1 E2] by lra.
      constructor; [exact E1 | apply B3, E2].
    + intros Hall. inversion Hall as [|? ? E1 E2]; subst.
      apply B3 in E2. lra.
Qed.

(** X28.  The white-light regulariser is non-negative and below
    [0.01 / 3] for every non-empty set of lobes, and it is 0 exactly
    when every lobe is grey (its three amplitudes agree in absolute
    value); the signs of the amplitudes do not matter.  For an empty
    tensor of lobes it is NaN, the mean of an empty tensor. *)
Theorem white_loss_range (lgtSGs : list lgtSG) :
  white_loss [] = NaN /\
  (lgtSGs <> [] ->
   exists x, white_loss lgtSGs = Val x /\ 0 <= x < 0.01 / 3 /\
             (x = 0 <-> Forall grey_lobe lgtSGs)).
Proof.
  split; [reflexivity|]. intros Hne.
  unfold white_loss. cbv zeta.
  set (per_lobe := map _ lgtSGs).
  assert (Hlen : length per_lobe = length lgtSGs) by (unfold per_lobe; apply length_map).
  assert (Hpos : 0 < INR (length per_lobe)).
  { rewrite Hlen. apply lt_0_INR. destruct lgtSGs; [congruence | simpl; lia]. }
  assert (Hall : Forall (fun v => 0 <= v < 1 / 3) per_lobe).
  { unfold per_lobe. apply Forall_forall. intros v Hv.
    apply list_elem_of_fmap in Hv as (sg & -> & _).
    apply (white_lobe_bounds sg). }
  destruct (Rsum_bounded per_lobe (1 / 3) Hall) as ((S1 & _) & S2 & S3).
  assert (Hne' : per_lobe <> []).
  { intros E. rewrite E in Hpos. simpl in Hpos. lra. }
  specialize (S2 Hne').
  assert (Ht : tmean per_lobe = Val (Rsum per_lobe / INR (length per_lobe))).
  { destruct per_lobe; [congruence | reflexivity]. }
  rewrite Ht. eexists. split; [reflexivity|].
  set (n := INR (length per_lobe)) in *. set (s := Rsum per_lobe) in *.
  assert (Hq : 0 <= s / n < 1 / 3).
  { split.
    - apply Rmult_le_pos; [exact S1 | left; apply Rinv_0_lt_compat; exact Hpos].
    - apply (Rmult_lt_reg_r n); [exact Hpos|].
      unfold Rdiv at 1. rewrite Rmult_assoc, Rinv_l by lra. lra. }
  split; [lra|].
  assert (Hz : s / n * 0.01 = 0 <-> s = 0).
  { split; intros E.
    - assert (E' : s / n = 0) by lra.
      apply (Rmult_eq_reg_r (/ n)); [|apply Rinv_neq_0_compat; lra].
      unfold Rdiv in E'. lra.
    - rewrite E. unfold Rdiv. ring. }
  rewrite Hz, S3. unfold per_lobe.
  rewrite Forall_fmap. apply Forall_iff. intros sg.
  apply (white_lobe_bounds sg).
Qed.

Lemma white_loss_range_witness :
  white_loss [] = NaN /\
  exists x, white_loss [LgtSG z_axis 10 (V3 1 1 1)] = Val x /\ 0 <= x < 0.01 / 3 /\
            (x = 0 <-> Forall grey_lobe [LgtSG z_axis 10 (V3 1 1 1)]).
Proof.
  destruct (white_loss_range [LgtSG z_axis 10 (V3 1 1 1)]) as [H0 H1].
  split; [exact H0|]. apply H1. discriminate.
Defined.

(** ** [get_sg_render] *)

Lemma normalize_view_dirs_short (view_dirs : list vec3) :
  Forall (fun v => norm v < 1) (normalize_view_dirs view_dirs).
Proof.
  unfold normalize_view_dirs. apply Forall_forall. intros v Hv.
  apply list_elem_of_fmap in Hv as (u & -> & _).
  change 1e-6 with TINY_NUMBER. apply norm_guarded_lt_1.
Qed.

Lemma normalize_normals_length (normals : list vec3) :
  Forall (fun n => norm n <= 1) (normalize_normals normals) /\
  (Forall (fun n => 1e-4 <= norm n) normals ->
   Forall (fun n => norm n = 1) (normalize_normals normals)).
Proof.
  assert (Hd : forall n : vec3, 0 < clamp_min (norm n) 1e-4).
  { intros n. apply Rlt_le_trans with 1e-4; [lra | apply clamp_min_ge]. }
  unfold normalize_normals. split.
  - apply Forall_forall. intros v Hv.
    apply list_elem_of_fmap in Hv as (n & -> & _).
    rewrite norm_vdiv by apply Hd.
    apply (Rmult_le_reg_r (clamp_min (norm n) 1e-4)); [apply Hd|].
    unfold Rdiv. rewrite Rmult_assoc, Rinv_l by (pose proof (Hd n); lra).
    unfold clamp_min. pose proof (Rmax_l (norm n) 1e-4). lra.
  - intros Hall. apply Forall_forall. intros v Hv.
    apply list_elem_of_fmap in Hv as (n & -> & Hn).
    rewrite Forall_forall in Hall. pose proof (Hall n Hn) as Hge.
    rewrite norm_vdiv by apply Hd.
    unfold clamp_min. rewrite Rmax_left by exact Hge.
    field. lra.
Qed.

Lemma zip_with_scaled_indir (indir albedo : list vec3) :
  zip_with (fun ii al =>
              tvec3_of (V3 (vx ii * (vx al / PI)) (vy ii * (vy al / PI))
                           (vz ii * (vz al / PI))))
           (scale_indir_integral indir) albedo =
  zip_with (fun ii al =>
              tvec3_of (V3 (2 * vx ii * vx al) (2 * vy ii * vy al) (2 * vz ii * vz al)))
           indir albedo.
Proof.
  pose proof PI_RGT_0 as Hp.
  revert albedo. induction indir as [|ii indir IH]; intros albedo; [reflexivity|].
  destruct albedo as [|al albedo]; [reflexivity|].
  cbn [scale_indir_integral map zip_with]. fold (scale_indir_integral indir).
  rewrite IH. f_equal. unfold tvec3_of. simpl.
  f_equal; f_equal; field; lra.
Qed.

Section GetSgRenderFacts.

Variable Xi : Type.
Variable get_idr_render : list vec3 -> list vec3 -> list vec3.
Variable envmap_material_network : list vec3 -> bool -> sg_envmap_material Xi.
Variable VisModel : vec3 -> vec3 -> score.
Variable dbg : trap_site -> dbg_cmd.
Variable kl_divergence : list (list tval) -> R -> tval.
Variable self_train_spec self_is_training self_no_normal : bool.

Let get_sg_render' :=
  get_sg_render Xi get_idr_render envmap_material_network VisModel dbg kl_divergence
    self_train_spec self_is_training self_no_normal.

(** X30.  Whatever [get_sg_render] returns: the call has passed the
    assertion [train_spec == self.train_spec]; the view directions it
    handed to the renderer are shorter than 1 (each is divided by its
    norm plus 1e-6, so none is exactly a unit vector); the returned
    normals have length at most 1, and exactly 1 where the network's
    normal is not shorter than 1e-4; and ['indir_diffuse_rgb'] is
    [2 * indir_integral * diffuse_albedo] in every channel, independent
    of the indirect light lobes (the factor [2 pi] applied to the
    integral meets the [1 / pi] of the Lambertian term).  A mismatch of
    [train_spec] ends in an AssertionError, and a missing
    [indir_integral] in a TypeError, before any rendering. *)
Theorem get_sg_render_indirect_diffuse (points view_dirs : list vec3)
    (indir_lgtSGs : list (list lgtSG)) (fun_spec lin_diff train_spec : bool)
    (indir_integral : option (list vec3))
    (rand_d_theta rand_d_phi rand_s_theta rand_s_phi rand_i_theta rand_i_phi
       : nat -> nat -> R) :
  let call := get_sg_render' points view_dirs indir_lgtSGs fun_spec lin_diff train_spec
                indir_integral rand_d_theta rand_d_phi rand_s_theta rand_s_phi
                rand_i_theta rand_i_phi in
  let material := envmap_material_network points train_spec in
  (train_spec <> self_train_spec -> call = AssertionError) /\
  (train_spec = self_train_spec -> indir_integral = None -> call = TypeError) /\
  (forall m out, call = Ran m -> result_of m = Returned out ->
     train_spec = self_train_spec /\
     Forall (fun v => norm v < 1) (normalize_view_dirs view_dirs) /\
     out_normals out =
       normalize_normals (get_idr_render points (normalize_view_dirs view_dirs)) /\
     Forall (fun n => norm n <= 1) (out_normals out) /\
     exists indir,
       indir_integral = Some indir /\
       indir_diffuse_rgb (out_sg out) =
       zip_with (fun ii al =>
                   tvec3_of (V3 (2 * vx ii * vx al) (2 * vy ii * vy al)
                                (2 * vz ii * vz al)))
                indir (sg_diffuse_albedo material)).
Proof.
  intros call material. unfold call, get_sg_render', get_sg_render. cbv zeta.
  fold material.
  split; [|split].
  - intros Hne. destruct train_spec, self_train_spec; simpl; congruence.
  - intros -> ->. rewrite eqb_reflx. reflexivity.
  - intros m out.
    destruct (Bool.eqb train_spec self_train_spec) eqn:Heq; simpl; [|discriminate].
    apply eqb_prop in Heq.
    destruct indir_integral as [indir|]; [|discriminate].
    intros Hm Hout. injection Hm as <-.
    rewrite result_of_bind in Hout.
    destruct (result_of (render_with_all_sg _ _ _ _ _ _ _ _ _ _ _ _ _ _ _ _ _ _ _ _ _ _ _ _ _))
      as [sg_ret|] eqn:Hsg; [|discriminate].
    injection Hout as <-. cbn [out_normals out_sg].
    split; [exact Heq|].
    split; [apply normalize_view_dirs_short|].
    split; [reflexivity|].
    split; [apply normalize_normals_length|].
    exists indir. split; [reflexivity|].
    rewrite render_with_all_sg_result in Hsg.
    destruct (result_of (render_with_sg _ _ _ _ _ _ _ _ _ true _ _ _ _ _ _ _ _ _ _ _ _ _))
      as [d_out|]; [|discriminate].
    destruct (result_of (render_with_sg _ _ _ _ _ _ _ _ _ false _ _ _ _ _ _ _ _ _ _ _ _ _))
      as [i_out|] eqn:Hi; [|discriminate].
    injection Hsg as <-. cbn [indir_diffuse_rgb].
    destruct (render_with_sg_inv _ _ _ _ _ _ _ _ _ _ _ _ _ _ _ _ _ _ _ _ _ _ _ _ Hi)
      as (st & _ & Hd & _).
    cbv zeta in Hd. rewrite Hd.
    unfold diffuse_rgb_override. apply zip_with_scaled_indir.
Qed.

(** Under an operator who always resumes, a call that passes the
    assertion and is given an [indir_integral] returns. *)
Lemma get_sg_render_continue (points view_dirs : list vec3)
    (indir_lgtSGs : list (list lgtSG)) (fun_spec lin_diff : bool) (indir : list vec3)
    (rand_d_theta rand_d_phi rand_s_theta rand_s_phi rand_i_theta rand_i_phi
       : nat -> nat -> R) :
  (forall site, dbg site = DbgContinue) ->
  exists m out,
    get_sg_render' points view_dirs indir_lgtSGs fun_spec lin_diff self_train_spec
      (Some indir) rand_d_theta rand_d_phi rand_s_theta rand_s_phi rand_i_theta rand_i_phi =
      Ran m /\
    result_of m = Returned out.
Proof.
  intros Hc. unfold get_sg_render', get_sg_render. cbv zeta.
  rewrite eqb_reflx. cbn [negb].
  eexists. 
  match goal with
  | |- context [render_with_all_sg ?a1 ?a2 ?a3 ?a4 ?a5 ?a6 ?a7 ?a8 ?a9 ?a10 ?a11 ?a12 ?a13
                  ?a14 ?a15 ?a16 ?a17 ?a18 ?a19 ?a20 ?a21 ?a22 ?a23 ?a24 ?a25] =>
      destruct (render_with_all_sg_continue a1 a2 a3 a4 a5 a6 a7 a8 a9 a10 a11 a12 a13
                  a14 a15 a16 a17 a18 a19 a20 a21 a22 a23 a24 a25 Hc) as (sg & Hsg)
  end.
  eexists. split; [reflexivity|].
  rewrite result_of_bind, Hsg. reflexivity.
Qed.

End GetSgRenderFacts.

Lemma get_sg_render_indirect_diffuse_witness :
  exists m out,
    get_sg_render unit (fun _ _ => [z_axis])
      (fun _ _ => SgEnvmapMaterial (LgtSGsShared (nth 0 ex_lgtSGs [])) (1 / 25) ex_albedo
                    [1 / 2] [V3 0 0 0] [z_axis] tt tt tt)
      ex_VisModel ex_dbg ex_kl_divergence true true false
      [V3 0 0 0] [z_axis] ex_lgtSGs false false true (Some [V3 1 1 1])
      ex_rand ex_rand ex_rand ex_rand ex_rand ex_rand = Ran m /\
    result_of m = Returned out /\
    indir_diffuse_rgb (out_sg out) =
      [tvec3_of (V3 (2 * 1 * (1 / 2)) (2 * 1 * (1 / 2)) (2 * 1 * (1 / 2)))].
Proof.
  destruct (get_sg_render_continue unit (fun _ _ => [z_axis])
              (fun _ _ => SgEnvmapMaterial (LgtSGsShared (nth 0 ex_lgtSGs [])) (1 / 25)
                            ex_albedo [1 / 2] [V3 0 0 0] [z_axis] tt tt tt)
              ex_VisModel ex_dbg ex_kl_divergence true true false
              [V3 0 0 0] [z_axis] ex_lgtSGs false false [V3 1 1 1]
              ex_rand ex_rand ex_rand ex_rand ex_rand ex_rand ltac:(reflexivity))
    as (m & out & Hm & Hout).
  exists m, out. split; [exact Hm|]. split; [exact Hout|].
  destruct (get_sg_render_indirect_diffuse unit (fun _ _ => [z_axis])
              (fun _ _ => SgEnvmapMaterial (LgtSGsShared (nth 0 ex_lgtSGs [])) (1 / 25)
                            ex_albedo [1 / 2] [V3 0 0 0] [z_axis] tt tt tt)
              ex_VisModel ex_dbg ex_kl_divergence true true false
              [V3 0 0 0] [z_axis] ex_lgtSGs false false true (Some [V3 1 1 1])
              ex_rand ex_rand ex_rand ex_rand ex_rand ex_rand) as (_ & _ & H3).
  destruct (H3 m out Hm Hout) as (_ & _ & _ & _ & indir & Hi & Hd).
  injection Hi as <-. exact Hd.
Defined.
